(** * Privacy Shield: span detection, reconciliation and segmentation

    A shallow embedding of the algorithmic core of
    [frontend/components/shield-chat.tsx]: the pattern catalogue
    [PII_PATTERNS], the local detector [detectPII], the reconciler
    [convertBackendResponseToMatches] with its two local helpers
    [normalizeEntityType] and [inferEntityType], the segmenter
    [RedactedText] and the submission handler [handleSanitize]; then the
    other handlers of [ShieldChat] with the events that drive them, its
    threat summary, the step indicator [StepIndicator], and the API client
    ([normalizeFetchError], [apiFetch] and the calls built on it); and, of
    the governance panel that chooses the entities to detect, the rules
    with [deriveEnabledEntities], [calculateRisk], [getRiskLevel] and
    [toggleRule].

    JavaScript strings are sequences of UTF-16 code units, numbers that
    index them are integers, [Set<string>] is a finite set of strings and
    regular expressions follow the backtracking semantics of ECMAScript. *)

From Stdlib Require Import ZArith NArith List Sorted Permutation Lia String Ascii Bool.
From stdpp Require Import base gmap sets list strings pretty sorting.

Open Scope Z_scope.

(** ** JavaScript strings and arrays *)

Module JS.

(** A string is its sequence of UTF-16 code units. *)
Abbreviation jsstring := (list N).

(** String literals of the source, written as Rocq strings. *)
Definition js (s : string) : jsstring :=
  N_of_ascii <$> list_ascii_of_string s.

Definition code (a : ascii) : N := N_of_ascii a.

(** [s.length] *)
Definition len (s : jsstring) : Z := Z.of_nat (length s).

(** [s.slice(start, end)]: negative arguments count from the end, both
    are clamped to the string, an empty range gives the empty string. *)
Definition rel_index (n i : Z) : Z :=
  if i <? 0 then Z.max (n + i) 0 else Z.min i n.

Definition slice (s : jsstring) (start end_ : Z) : jsstring :=
  let from := rel_index (len s) start in
  let to := rel_index (len s) end_ in
  take (Z.to_nat (to - from)) (drop (Z.to_nat from) s).

(** [s.slice(start)] *)
Definition slice_from (s : jsstring) (start : Z) : jsstring :=
  slice s start (len s).

(** [l] starts with [p]. *)
Fixpoint starts_with (p l : jsstring) : bool :=
  match p, l with
  | [], _ => true
  | _ :: _, [] => false
  | a :: p', b :: l' => (a =? b)%N && starts_with p' l'
  end.

(** First position [k], counted from [k0], at which [search] occurs in
    the remainder [l]. *)
Fixpoint find_from (search l : jsstring) (k0 : nat) : option nat :=
  if starts_with search l then Some k0
  else match l with
       | [] => None
       | _ :: l' => find_from search l' (S k0)
       end.

(** [s.indexOf(search, position)]: the position is clamped to
    [0 .. s.length]; the result is [-1] when there is no occurrence. *)
Definition indexOf (s search : jsstring) (position : Z) : Z :=
  let p := Z.to_nat (Z.min (Z.max position 0) (len s)) in
  match find_from search (drop p s) p with
  | Some k => Z.of_nat k
  | None => -1
  end.

(** [s.includes(search)] *)
Definition includes (s search : jsstring) : bool :=
  negb (indexOf s search 0 =? -1).

(** [s.replace(pattern, replacement)] with a string pattern: only the
    first occurrence is replaced (the replacement strings of the source
    contain no dollar sign, so they are inserted literally). *)
Definition replace (s pattern replacement : jsstring) : jsstring :=
  let i := indexOf s pattern 0 in
  if i =? -1 then s
  else slice s 0 i ++ replacement ++ slice_from s (i + len pattern).

(** [s.split(sep)[0]] for a non-empty separator: the text before the
    first occurrence of the separator, the whole string without one. *)
Definition split_first (s sep : jsstring) : jsstring :=
  let i := indexOf s sep 0 in
  if i =? -1 then s else slice s 0 i.

(** White space and line terminators ([\s], [trim]). *)
Definition is_space (c : N) : bool :=
  ((9 <=? c) && (c <=? 13) || (c =? 32) || (c =? 160) || (c =? 5760)
   || (8192 <=? c) && (c <=? 8202) || (c =? 8232) || (c =? 8233)
   || (c =? 8239) || (c =? 8287) || (c =? 12288) || (c =? 65279))%N.

Fixpoint trim_start (s : jsstring) : jsstring :=
  match s with
  | c :: s' => if is_space c then trim_start s' else s
  | [] => []
  end.

(** [s.trim()] *)
Definition trim (s : jsstring) : jsstring :=
  rev (trim_start (rev (trim_start s))).

(** Template-literal conversion of an integer: its decimal digits,
    with a leading minus sign when negative. *)
Definition Number_toString (z : Z) : jsstring := js (pretty z).

(** [while (...) { ... }]: [body] runs one iteration and returns [None]
    when the loop is left (guard false, or [break]).  [fuel] bounds the
    number of iterations; running out of it is reported as [None]. *)
Fixpoint while {St : Type} (fuel : nat) (body : St -> option St) (s : St) : option St :=
  match fuel with
  | O => None
  | S fuel' =>
      match body s with
      | None => Some s
      | Some s' => while fuel' body s'
      end
  end.

(** [for (const a of l) { ... }] with a body that may not terminate. *)
Fixpoint for_of {A St : Type} (l : list A) (body : A -> St -> option St) (s : St) : option St :=
  match l with
  | [] => Some s
  | a :: l' => match body a s with
               | Some s' => for_of l' body s'
               | None => None
               end
  end.

(** [arr.sort(cmp)]: the sort is stable, so for a consistent comparator
    its result is the one of any stable sort; here insertion from the
    right, an element going before the first one it does not exceed. *)
Fixpoint insert_sorted {A : Type} (cmp : A -> A -> Z) (x : A) (l : list A) : list A :=
  match l with
  | [] => [x]
  | y :: l' => if cmp x y <=? 0 then x :: y :: l' else y :: insert_sorted cmp x l'
  end.

Definition sort {A : Type} (cmp : A -> A -> Z) (l : list A) : list A :=
  foldr (insert_sorted cmp) [] l.

(** [arr.filter((x, index, array) => ...)] *)
Definition filter_indexed {A : Type} (f : A -> nat -> list A -> bool) (arr : list A) : list A :=
  (omap (fun '(i, x) => if f x i arr then Some x else None) (imap pair arr)).

End JS.

Import JS.
Arguments js _%_string.
Arguments code _%_char.


(** ** Regular expressions

    The pattern language used by the source ([\b], [\d], [\s], classes,
    bounded and unbounded greedy quantifiers, alternation, capturing
    groups, [^] and [$], no flags besides [g]) with the backtracking
    matcher of the language: a matcher takes the current state (end index
    and captures) and a continuation, and the first alternative whose
    continuation succeeds wins. *)

Module RegExp.

Inductive regex : Type :=
| Empty
| CharSet (cs : N -> bool)
| Seq (r1 r2 : regex)
| Alt (r1 r2 : regex)
| Quant (r : regex) (min : nat) (max : option nat)
| Group (n : nat) (r : regex)
| WordBoundary
| InputStart
| InputEnd.

(** The state of a match: the end index and the capture ranges. *)
Definition captures := list (option (nat * nat)).
Definition state := (nat * captures)%type.
Definition cont := state -> option state.

Definition is_digit (c : N) : bool := ((48 <=? c) && (c <=? 57))%N.
Definition is_upper (c : N) : bool := ((65 <=? c) && (c <=? 90))%N.
Definition is_lower (c : N) : bool := ((97 <=? c) && (c <=? 122))%N.

(** The word characters of [\b]: letters, digits and underscore. *)
Definition is_word_char (c : N) : bool :=
  is_upper c || is_lower c || is_digit c || (c =? 95)%N.

Definition word_at (text : jsstring) (i : nat) : bool :=
  match text !! i with
  | Some c => is_word_char c
  | None => false
  end.

Definition at_word_boundary (text : jsstring) (e : nat) : bool :=
  xorb (match e with O => false | S e' => word_at text e' end) (word_at text e).

(** Capture groups contained in a pattern; a quantifier resets them
    before each of its iterations. *)
Fixpoint groups_of (r : regex) : list nat :=
  match r with
  | Seq r1 r2 | Alt r1 r2 => groups_of r1 ++ groups_of r2
  | Quant r' _ _ => groups_of r'
  | Group n r' => n :: groups_of r'
  | _ => []
  end.

Definition reset_groups (gs : list nat) (cap : captures) : captures :=
  foldr (fun n c => <[n := None]> c) cap gs.

Definition dec_max (max : option nat) : option nat := Nat.pred <$> max.

Definition max_is_zero (max : option nat) : bool :=
  match max with Some O => true | _ => false end.

(** The repetition matcher: [m] is the matcher of the quantified atom,
    [reset] clears its captures.  An iteration that is not required
    ([min = 0]) and matches the empty string is rejected.  [fuel] bounds
    the number of iterations. *)
Fixpoint repeat_matcher (m : state -> cont -> option state) (reset : captures -> captures)
    (fuel min : nat) (max : option nat) (x : state) (c : cont) {struct fuel} : option state :=
  match fuel with
  | O => None
  | S fuel' =>
      if max_is_zero max then c x
      else
        let d : cont := fun y =>
          if (min =? 0)%nat && (y.1 =? x.1)%nat then None
          else repeat_matcher m reset fuel' (Nat.pred min) (dec_max max) y c in
        let xr : state := (x.1, reset x.2) in
        if (min =? 0)%nat
        then match m xr d with
             | Some z => Some z
             | None => c x
             end
        else m xr d
  end.

Fixpoint matcher (text : jsstring) (r : regex) (x : state) (c : cont) {struct r} : option state :=
  match r with
  | Empty => c x
  | CharSet cs =>
      match text !! x.1 with
      | Some ch => if cs ch then c (S x.1, x.2) else None
      | None => None
      end
  | Seq r1 r2 => matcher text r1 x (fun y => matcher text r2 y c)
  | Alt r1 r2 =>
      match matcher text r1 x c with
      | Some z => Some z
      | None => matcher text r2 x c
      end
  | Quant r' min max =>
      repeat_matcher (matcher text r') (reset_groups (groups_of r'))
        (S (min + (length text - x.1))) min max x c
  | Group n r' =>
      matcher text r' x (fun y => c (y.1, <[n := Some (x.1, y.1)]> y.2))
  | WordBoundary => if at_word_boundary text x.1 then c x else None
  | InputStart => if (x.1 =? 0)%nat then c x else None
  | InputEnd => if (x.1 =? length text)%nat then c x else None
  end.

(** A compiled pattern: its body and the number of capture groups. *)
Record RegExp : Type := mkRegExp { source : regex; ngroups : nat }.

(** The result array of [exec]: [index], [match[0]] and the groups. *)
Record MatchResult : Type := mkMatch {
  index : nat;
  end_index : nat;
  matched : jsstring;
  group : nat -> jsstring
}.

Definition match_at (re : RegExp) (text : jsstring) (i : nat) : option state :=
  matcher text (source re) (i, replicate (S (ngroups re)) None) Some.

(** Try the start positions [i], [i + 1], ..., [i + n] in turn. *)
Fixpoint scan (re : RegExp) (text : jsstring) (n i : nat) : option (nat * state) :=
  match match_at re text i with
  | Some y => Some (i, y)
  | None =>
      match n with
      | O => None
      | S n' => scan re text n' (S i)
      end
  end.

Definition capture_text (text : jsstring) (cap : captures) (n : nat) : jsstring :=
  match cap !! n with
  | Some (Some (s, e)) => take (e - s) (drop s text)
  | _ => []
  end.

(** [re.exec(text)] for a pattern whose [lastIndex] is [lastIndex]:
    [None] is JavaScript's [null].  With the [g] flag the caller stores
    [end_index] back into [lastIndex]; without it [lastIndex] is 0. *)
Definition exec (re : RegExp) (text : jsstring) (lastIndex : nat) : option MatchResult :=
  if (length text <? lastIndex)%nat then None
  else match scan re text (length text - lastIndex) lastIndex with
       | Some (i, (e, cap)) =>
           Some {| index := i; end_index := e;
                   matched := take (e - i) (drop i text);
                   group := capture_text text cap |}
       | None => None
       end.

(** One iteration of
    [while ((match = re.exec(text)) !== null) { out.push(f(match)) }]
    for a pattern with the [g] flag: the state is [re.lastIndex] and the
    array [out]. *)
Definition exec_push {A : Type} (re : RegExp) (text : jsstring) (f : MatchResult -> A)
    (st : nat * list A) : option (nat * list A) :=
  match exec re text st.1 with
  | None => None
  | Some m => Some (end_index m, st.2 ++ [f m])
  end.

(** [text.match(re)] for a pattern without the [g] flag, used as a
    condition: whether there is a match. *)
Definition test (re : RegExp) (text : jsstring) : bool :=
  match exec re text 0 with Some _ => true | None => false end.

(** Notation of the pattern syntax. *)
Definition chr (a : ascii) : regex := CharSet (fun c => (c =? code a)%N).
Definition opt (r : regex) : regex := Quant r 0 (Some 1%nat).
Definition plus (r : regex) : regex := Quant r 1 None.
Definition times (n : nat) (r : regex) : regex := Quant r n (Some n).
Definition at_least (n : nat) (r : regex) : regex := Quant r n None.
Definition between (n m : nat) (r : regex) : regex := Quant r n (Some m).
Fixpoint seq (rs : list regex) : regex :=
  match rs with
  | [] => Empty
  | [r] => r
  | r :: rs' => Seq r (seq rs')
  end.
Fixpoint lit (s : list ascii) : regex :=
  match s with
  | [] => Empty
  | [a] => chr a
  | a :: s' => Seq (chr a) (lit s')
  end.
Definition str (s : string) : regex := lit (list_ascii_of_string s).
Definition digit : regex := CharSet is_digit.

End RegExp.

Import RegExp.
Arguments chr _%_char.
Arguments str _%_string.

(** ** The pattern catalogue *)

(** [interface PIIMatch]; [end] is spelled [end_]. *)
Record PIIMatch : Type := mkPIIMatch {
  type : jsstring;
  original : jsstring;
  replacement : jsstring;
  start : Z;
  end_ : Z
}.

Record EntityPattern : Type := mkPattern {
  pattern_type : jsstring;
  pattern_regex : RegExp;
  pattern_replacement : jsstring
}.

Definition dash_or_space : regex := CharSet (fun c => (c =? code "-")%N || is_space c).
Definition dash : regex := chr "-".
Definition dash_dot_space : regex :=
  CharSet (fun c => (c =? code "-")%N || (c =? code ".")%N || is_space c).
Definition alnum (c : N) : bool := is_upper c || is_lower c || is_digit c.

(** [\d{4}[-\s]?\d{4}[-\s]?\d{4}[-\s]?\d{4}] *)
Definition card_body : regex :=
  seq [times 4 digit; opt dash_or_space; times 4 digit; opt dash_or_space;
       times 4 digit; opt dash_or_space; times 4 digit].

(** [\d{3}-?\d{2}-?\d{4}] *)
Definition ssn_body : regex :=
  seq [times 3 digit; opt dash; times 2 digit; opt dash; times 4 digit].

(** [\d{1,3}\.\d{1,3}\.\d{1,3}\.\d{1,3}] *)
Definition ip_body : regex :=
  seq [between 1 3 digit; chr "."; between 1 3 digit; chr ".";
       between 1 3 digit; chr "."; between 1 3 digit].

(** [[A-Za-z0-9._%+-]+@[A-Za-z0-9.-]+\.[A-Z|a-z]{2,}] *)
Definition email_body : regex :=
  seq [plus (CharSet (fun c => alnum c || (c =? code ".")%N || (c =? code "_")%N
                               || (c =? code "%")%N || (c =? code "+")%N || (c =? code "-")%N));
       chr "@";
       plus (CharSet (fun c => alnum c || (c =? code ".")%N || (c =? code "-")%N));
       chr ".";
       at_least 2 (CharSet (fun c => is_upper c || (c =? code "|")%N || is_lower c))].

(** [(\+?1[-.\s]?)?\(?\d{3}\)?[-.\s]?\d{3}[-.\s]?\d{4}] *)
Definition phone_body : regex :=
  seq [opt (Group 1 (seq [opt (chr "+"); chr "1"; opt dash_dot_space]));
       opt (chr "("); times 3 digit; opt (chr ")"); opt dash_dot_space;
       times 3 digit; opt dash_dot_space; times 4 digit].

(** [(AKIA[0-9A-Z]{16})] *)
Definition aws_key_body : regex :=
  Group 1 (Seq (str "AKIA") (times 16 (CharSet (fun c => is_digit c || is_upper c)))).

(** [(sk-[a-zA-Z0-9]{32,})] *)
Definition api_key_body : regex :=
  Group 1 (Seq (str "sk-") (at_least 32 (CharSet (fun c => is_lower c || is_upper c || is_digit c)))).

(** [/\b ... \b/g] *)
Definition word (body : regex) (ngroups : nat) : RegExp :=
  mkRegExp (seq [WordBoundary; body; WordBoundary]) ngroups.

(** [/^ ... $/] *)
Definition whole (body : regex) : RegExp :=
  mkRegExp (seq [InputStart; body; InputEnd]) 0.

Definition PII_PATTERNS : list EntityPattern :=
  [ mkPattern (js "CREDIT_CARD") (word card_body 0) (js "[REDACTED_CC]");
    mkPattern (js "SSN") (word ssn_body 0) (js "[REDACTED_SSN]");
    mkPattern (js "EMAIL") (word email_body 0) (js "[REDACTED_EMAIL]");
    mkPattern (js "PHONE") (word phone_body 1) (js "[REDACTED_PHONE]");
    mkPattern (js "AWS_KEY") (word aws_key_body 1) (js "[REDACTED_AWS_KEY]");
    mkPattern (js "API_KEY") (word api_key_body 1) (js "[REDACTED_API_KEY]");
    mkPattern (js "IP_ADDRESS") (word ip_body 0) (js "[REDACTED_IP]") ].

(** ** The local detector *)

(** The object pushed for a match of [pattern], and one iteration of
    [while ((match = regex.exec(text)) !== null)]: the state is the
    pattern's [lastIndex] and the array [matches]. *)
Definition detected (pattern : EntityPattern) (m : MatchResult) : PIIMatch :=
  {| type := pattern_type pattern;
     original := matched m;
     replacement := pattern_replacement pattern;
     start := Z.of_nat (index m);
     end_ := Z.of_nat (index m) + len (matched m) |}.

Definition detect_body (text : jsstring) (pattern : EntityPattern)
    : nat * list PIIMatch -> option (nat * list PIIMatch) :=
  exec_push (pattern_regex pattern) text (detected pattern).

Definition by_start (a b : PIIMatch) : Z := start a - start b.

Definition detectPII (fuel : nat) (text : jsstring) : option (list PIIMatch) :=
  matches ← for_of PII_PATTERNS
               (fun pattern matches =>
                  snd <$> while fuel (detect_body text pattern) (O, matches))
               [];
  Some (sort by_start matches).

(** ** Label normalisation and inference *)

Definition normalizeEntityType (entityType : jsstring) : jsstring :=
  replace (replace (replace (replace (replace (replace (replace entityType
    (js "EMAIL_ADDRESS") (js "EMAIL"))
    (js "PHONE_NUMBER") (js "PHONE"))
    (js "US_SSN") (js "SSN"))
    (js "IP_ADDRESS") (js "IP"))
    (js "_ADDRESS") (js ""))
    (js "_NUMBER") (js ""))
    (js "US_") (js "").

(** [[\d\s\-\(\)]] *)
Definition phone_char (c : N) : bool :=
  is_digit c || is_space c || (c =? code "-")%N || (c =? code "(")%N || (c =? code ")")%N.

(** [\+?[\d\s\-\(\)]{10,}] *)
Definition phone_like_body : regex :=
  Seq (opt (chr "+")) (at_least 10 (CharSet phone_char)).

(** [/^(sk-|ghp_|AKIA)/] *)
Definition credential_prefix : RegExp :=
  mkRegExp (Seq InputStart (Group 1 (Alt (str "sk-") (Alt (str "ghp_") (str "AKIA"))))) 1.

Definition inferEntityType (original : jsstring) : jsstring :=
  if includes original (js "@") then js "EMAIL"
  else if test (whole ssn_body) original then js "SSN"
  else if test (whole card_body) original then js "CREDIT_CARD"
  else if test (whole phone_like_body) original then js "PHONE"
  else if test credential_prefix original then js "API_KEY"
  else if test (whole ip_body) original then js "IP"
  else js "PERSON".

(** ** The reconciler *)

(** [[A-Z_]] *)
Definition label_char (c : N) : bool := is_upper c || (c =? code "_")%N.

(** [/^<[A-Z_]+>$/] *)
Definition bracketed_token : RegExp :=
  whole (seq [chr "<"; plus (CharSet label_char); chr ">"]).

(** [/^[A-Z_]+ \d+$/] *)
Definition numbered_token : RegExp :=
  whole (seq [plus (CharSet label_char); chr " "; plus digit]).

(** [/<([A-Z_]+)>/g] *)
Definition tagPattern : RegExp :=
  mkRegExp (seq [chr "<"; Group 1 (plus (CharSet label_char)); chr ">"]) 1.

(** The variables of the map-driven scan: [searchIndex] is local to one
    entry, [matches] and [processedPositions] are shared by all. *)
Record scan_state : Type := mkScan {
  searchIndex : Z;
  matches : list PIIMatch;
  processedPositions : gset jsstring
}.

Definition posKey (index end_index : Z) : jsstring :=
  Number_toString index ++ js "-" ++ Number_toString end_index.

Definition classify (original replacement : jsstring) : jsstring :=
  if test bracketed_token replacement
  then normalizeEntityType (slice replacement 1 (-1))
  else if test numbered_token replacement
  then normalizeEntityType (split_first replacement (js " "))
  else inferEntityType original.

(** One iteration of [while (searchIndex < cleanText.length)]. *)
Definition scan_body (cleanText original replacement : jsstring)
    (st : scan_state) : option scan_state :=
  if searchIndex st <? len cleanText then
    let index := indexOf cleanText replacement (searchIndex st) in
    if index =? -1 then None
    else
      let key := posKey index (index + len replacement) in
      if decide (key ∈ processedPositions st)
      then Some {| searchIndex := index + 1;
                   matches := matches st;
                   processedPositions := processedPositions st |}
      else Some {| searchIndex := index + len replacement;
                   matches := matches st ++
                     [ {| type := classify original replacement;
                          original := original;
                          replacement := replacement;
                          start := index;
                          end_ := index + len replacement |} ];
                   processedPositions := {[ key ]} ∪ processedPositions st |}
  else None.

(** The body of [for (const [original, replacement] of Object.entries(syntheticMap))]. *)
Definition scan_entry (fuel : nat) (cleanText : jsstring) (entry : jsstring * jsstring)
    (st : scan_state) : option scan_state :=
  while fuel (scan_body cleanText entry.1 entry.2)
    {| searchIndex := 0; matches := matches st;
       processedPositions := processedPositions st |}.

(** The object pushed for a tag, and one iteration of
    [while ((match = tagPattern.exec(cleanText)) !== null)]. *)
Definition tagged (m : MatchResult) : PIIMatch :=
  let rawEntityType := group m 1%nat in
  {| type := normalizeEntityType rawEntityType;
     original := js "[" ++ rawEntityType ++ js "]";
     replacement := matched m;
     start := Z.of_nat (index m);
     end_ := Z.of_nat (index m) + len (matched m) |}.

Definition tag_body (cleanText : jsstring)
    : nat * list PIIMatch -> option (nat * list PIIMatch) :=
  exec_push tagPattern cleanText tagged.

(** The callback of the final [filter]. *)
Definition differs_from_previous (m : PIIMatch) (index : nat) (array : list PIIMatch) : bool :=
  match index with
  | O => true
  | S i =>
      match array !! i with
      | Some prev => negb (start m =? start prev) || negb (end_ m =? end_ prev)
      | None => true
      end
  end.

(** [syntheticMap] is [None] when the argument is absent; a present map
    is the sequence of its entries as [Object.entries] enumerates them. *)
Definition convertBackendResponseToMatches (fuel : nat) (originalText cleanText : jsstring)
    (items : list jsstring) (syntheticMap : option (list (jsstring * jsstring)))
    : option (list PIIMatch) :=
  found ←
    match syntheticMap with
    | Some (entry :: entries) =>
        matches <$> for_of (entry :: entries) (scan_entry fuel cleanText)
                      {| searchIndex := 0; matches := []; processedPositions := ∅ |}
    | _ => snd <$> while fuel (tag_body cleanText) (O, [])
    end;
  Some (filter_indexed differs_from_previous (sort by_start found)).

(** ** The segmenter *)

(** The React keys [text-i], [redacted-i] and [text-end]. *)
Inductive part_key : Type :=
| KeyText (i : nat)
| KeyRedacted (i : nat)
| KeyTextEnd.

(** The children pushed to [parts]: a plain [span] holding a piece of the
    text, or the highlighted [motion.span] holding [m.replacement]. *)
Inductive part : Type :=
| PlainPart (key : part_key) (children : jsstring)
| RedactedPart (key : part_key) (children : jsstring).

Inductive rendered : Type :=
| Placeholder
| WholeText (text : jsstring)
| Parts (isScanning : bool) (parts : list part).

(** The callback of [matches.forEach((m, i) => ...)] on the variables
    [parts] and [lastIndex]. *)
Definition render_match (text : jsstring) (st : list part * Z) (i : nat) (m : PIIMatch)
    : list part * Z :=
  let parts := if start m >? st.2
               then st.1 ++ [PlainPart (KeyText i) (slice text st.2 (start m))]
               else st.1 in
  (parts ++ [RedactedPart (KeyRedacted i) (replacement m)], end_ m).

Fixpoint forEach_indexed {A St : Type} (f : St -> nat -> A -> St) (i : nat) (l : list A) (s : St) : St :=
  match l with
  | [] => s
  | a :: l' => forEach_indexed f (S i) l' (f s i a)
  end.

Definition RedactedText (text : jsstring) (matches : list PIIMatch) (isScanning : bool) : rendered :=
  match text, matches with
  | [], _ => Placeholder
  | _, [] => WholeText text
  | _, _ =>
      let st := forEach_indexed (render_match text) O matches ([], 0) in
      Parts isScanning
        (if st.2 <? len text
         then st.1 ++ [PlainPart KeyTextEnd (slice_from text st.2)]
         else st.1)
  end.

(** ** The submission handler *)

Inductive AuditStatus : Type := idle | running | passed | failed | rate_limited.
Inductive Step : Type := step_sanitize | step_verify | step_forward.
Inductive SanitizeMode : Type := strict | synthetic | mask.

(** A value caught by [catch]: an [Error] with its message, or anything
    else with its string conversion. *)
Inductive thrown : Type :=
| ErrorObject (message : jsstring)
| OtherValue (as_string : jsstring).

Inductive outcome (A : Type) : Type :=
| Resolved (a : A)
| Rejected (e : thrown).
Arguments Resolved {A} a.
Arguments Rejected {A} e.

Section Orchestration.

(** Numbers that are only passed along (scores, times). *)
Variable number : Type.

Record AuditResult : Type := mkAudit {
  safety_score : number;
  usability_score : number;
  critique : jsstring
}.

Record SanitizeResponse : Type := mkResponse {
  clean_text : jsstring;
  items : list jsstring;
  processing_time_ms : number;
  synthetic_map : option (list (jsstring * jsstring))
}.

Record HistoryEntry : Type := mkEntry {
  entry_id : number;
  entry_input : jsstring;
  entry_matches : list PIIMatch;
  entry_timestamp : number
}.

(** The state variables of [ShieldChat]. *)
Record ShieldState : Type := mkState {
  input : jsstring;
  isScanning : bool;
  currentMatches : list PIIMatch;
  sanitizedText : jsstring;
  history : list HistoryEntry;
  activeStep : Step;
  apiError : option jsstring;
  auditResult : option AuditResult;
  auditStatus : AuditStatus;
  processingTime : option number;
  sanitizeMode : SanitizeMode;
  aiResponse : jsstring;
  isLoadingAI : bool;
  aiError : option jsstring
}.

Definition setIsScanning (v : bool) (s : ShieldState) : ShieldState :=
  mkState (input s) v (currentMatches s) (sanitizedText s) (history s) (activeStep s)
    (apiError s) (auditResult s) (auditStatus s) (processingTime s) (sanitizeMode s)
    (aiResponse s) (isLoadingAI s) (aiError s).
Definition setCurrentMatches (v : list PIIMatch) (s : ShieldState) : ShieldState :=
  mkState (input s) (isScanning s) v (sanitizedText s) (history s) (activeStep s)
    (apiError s) (auditResult s) (auditStatus s) (processingTime s) (sanitizeMode s)
    (aiResponse s) (isLoadingAI s) (aiError s).
Definition setSanitizedText (v : jsstring) (s : ShieldState) : ShieldState :=
  mkState (input s) (isScanning s) (currentMatches s) v (history s) (activeStep s)
    (apiError s) (auditResult s) (auditStatus s) (processingTime s) (sanitizeMode s)
    (aiResponse s) (isLoadingAI s) (aiError s).
Definition setHistory (f : list HistoryEntry -> list HistoryEntry) (s : ShieldState) : ShieldState :=
  mkState (input s) (isScanning s) (currentMatches s) (sanitizedText s) (f (history s))
    (activeStep s) (apiError s) (auditResult s) (auditStatus s) (processingTime s)
    (sanitizeMode s) (aiResponse s) (isLoadingAI s) (aiError s).
Definition setActiveStep (v : Step) (s : ShieldState) : ShieldState :=
  mkState (input s) (isScanning s) (currentMatches s) (sanitizedText s) (history s) v
    (apiError s) (auditResult s) (auditStatus s) (processingTime s) (sanitizeMode s)
    (aiResponse s) (isLoadingAI s) (aiError s).
Definition setApiError (v : option jsstring) (s : ShieldState) : ShieldState :=
  mkState (input s) (isScanning s) (currentMatches s) (sanitizedText s) (history s)
    (activeStep s) v (auditResult s) (auditStatus s) (processingTime s) (sanitizeMode s)
    (aiResponse s) (isLoadingAI s) (aiError s).
Definition setAuditResult (v : option AuditResult) (s : ShieldState) : ShieldState :=
  mkState (input s) (isScanning s) (currentMatches s) (sanitizedText s) (history s)
    (activeStep s) (apiError s) v (auditStatus s) (processingTime s) (sanitizeMode s)
    (aiResponse s) (isLoadingAI s) (aiError s).
Definition setAuditStatus (v : AuditStatus) (s : ShieldState) : ShieldState :=
  mkState (input s) (isScanning s) (currentMatches s) (sanitizedText s) (history s)
    (activeStep s) (apiError s) (auditResult s) v (processingTime s) (sanitizeMode s)
    (aiResponse s) (isLoadingAI s) (aiError s).
Definition setProcessingTime (v : option number) (s : ShieldState) : ShieldState :=
  mkState (input s) (isScanning s) (currentMatches s) (sanitizedText s) (history s)
    (activeStep s) (apiError s) (auditResult s) (auditStatus s) v (sanitizeMode s)
    (aiResponse s) (isLoadingAI s) (aiError s).
Definition setIsLoadingAI (v : bool) (s : ShieldState) : ShieldState :=
  mkState (input s) (isScanning s) (currentMatches s) (sanitizedText s) (history s)
    (activeStep s) (apiError s) (auditResult s) (auditStatus s) (processingTime s)
    (sanitizeMode s) (aiResponse s) v (aiError s).
Definition setAiError (v : option jsstring) (s : ShieldState) : ShieldState :=
  mkState (input s) (isScanning s) (currentMatches s) (sanitizedText s) (history s)
    (activeStep s) (apiError s) (auditResult s) (auditStatus s) (processingTime s)
    (sanitizeMode s) (aiResponse s) (isLoadingAI s) v.

(** A sequence of state updates, applied left to right. *)
Definition run (updates : list (ShieldState -> ShieldState)) (s : ShieldState) : ShieldState :=
  foldl (fun s f => f s) s updates.

(** [auditError instanceof Error ? auditError.message : String(auditError)] *)
Definition message_of (e : thrown) : jsstring :=
  match e with
  | ErrorObject message => message
  | OtherValue as_string => as_string
  end.

(** The statements of [handleSanitize] before the first [await]; [None]
    when the handler returns at once because the input is blank. *)
Definition sanitize_started (s : ShieldState) : option ShieldState :=
  match trim (input s) with
  | [] => None
  | _ => Some (run [ setActiveStep step_sanitize; setIsScanning true; setApiError None;
                     setAuditResult None; setAuditStatus idle; setProcessingTime None ] s)
  end.

(** The statements between the two [await]s, run when [sanitizeText]
    resolved with [response]: [text] is the input the handler closed
    over, [now] is [Date.now()] and [date] is [new Date()].  The chat
    request started here settles on its own and writes only the three AI
    variables.  The result is [None] when the reconciler does not return
    within [fuel]. *)
Definition sanitize_resolved (fuel : nat) (text : jsstring) (now date : number)
    (response : SanitizeResponse) (s : ShieldState) : option ShieldState :=
  found ← convertBackendResponseToMatches fuel text (clean_text response)
            (items response) (synthetic_map response);
  Some (run [ setSanitizedText (clean_text response);
              setProcessingTime (Some (processing_time_ms response));
              setCurrentMatches found;
              setIsScanning false;
              setActiveStep step_verify;
              setHistory (fun prev => mkEntry now text found date :: prev);
              setIsLoadingAI true;
              setAiError None;
              setAuditStatus running ] s).

(** The outer [catch], run when [sanitizeText] rejected, and the callback
    it schedules with [setTimeout]: the local detector takes over. *)
Definition sanitize_rejected (error : thrown) (s : ShieldState) : ShieldState :=
  run [ setApiError (Some match error with
                          | ErrorObject message => message
                          | OtherValue _ => js "Backend unavailable - using demo mode"
                          end);
        setAuditStatus idle ] s.

Definition fallback_timeout (fuel : nat) (text : jsstring) (now date : number)
    (s : ShieldState) : option ShieldState :=
  found ← detectPII fuel text;
  Some (run [ setCurrentMatches found;
              setSanitizedText text;
              setIsScanning false;
              setActiveStep step_verify;
              setHistory (fun prev => mkEntry now text found date :: prev);
              setAuditStatus idle ] s).

(** The statements after [await auditText(...)], for its two outcomes. *)
Definition audit_settled (audit : outcome AuditResult) (s : ShieldState) : ShieldState :=
  match audit with
  | Resolved result => run [ setAuditResult (Some result); setAuditStatus passed ] s
  | Rejected auditError =>
      let msg := message_of auditError in
      let isRateLimited :=
        includes msg (js "429") || includes msg (js "rate")
        || includes msg (js "limit") || includes msg (js "500") in
      run [ setAuditStatus (if isRateLimited then rate_limited else failed);
            setAuditResult None ] s
  end.

(** One run of [handleSanitize] for given outcomes of the sanitize and
    audit calls, with nothing else touching the state in between; a blank
    input leaves the state as it is. *)
Definition handleSanitize (fuel : nat) (now date : number)
    (sanitize : outcome SanitizeResponse) (audit : outcome AuditResult)
    (s : ShieldState) : option ShieldState :=
  match sanitize_started s with
  | None => Some s
  | Some s1 =>
      match sanitize with
      | Resolved response =>
          s2 ← sanitize_resolved fuel (input s) now date response s1;
          Some (audit_settled audit s2)
      | Rejected error =>
          fallback_timeout fuel (input s) now date (sanitize_rejected error s1)
      end
  end.

End Orchestration.

Arguments input {number}.
Arguments currentMatches {number}.
Arguments sanitizedText {number}.
Arguments history {number}.
Arguments auditResult {number}.
Arguments auditStatus {number}.
Arguments clean_text {number}.
Arguments items {number}.
Arguments synthetic_map {number}.

(** ** Vocabulary of the statements *)

(** [run] returns: from some amount of fuel on, the result is the same
    value [r], and [r] satisfies [P]. *)
Definition returns {A : Type} (run : nat -> option A) (P : A -> Prop) : Prop :=
  exists n r, (forall fuel, (n <= fuel)%nat -> run fuel = Some r) /\ P r.

(** [spans[i].start <= spans[i+1].start] for all consecutive indices. *)
Definition sorted_by_start (spans : list PIIMatch) : Prop :=
  forall i a b, spans !! i = Some a -> spans !! S i = Some b -> start a <= start b.

Definition start_le (a b : PIIMatch) : Prop := start a <= start b.

Definition range_of (m : PIIMatch) : Z * Z := (start m, end_ m).

(** The least number of code units a match of a pattern consumes. *)
Definition min_count (min : nat) (max : option nat) : nat :=
  match max with
  | Some m => Nat.min min m
  | None => min
  end.

Fixpoint min_length (r : regex) : nat :=
  match r with
  | CharSet _ => 1
  | Seq r1 r2 => min_length r1 + min_length r2
  | Alt r1 r2 => Nat.min (min_length r1) (min_length r2)
  | Quant r' min max => min_count min max * min_length r'
  | Group _ r' => min_length r'
  | _ => 0
  end.

(** The Span invariant [0 <= start < end]. *)
Definition span_ok (m : PIIMatch) : Prop := 0 <= start m < end_ m.

(** Spans laid out one after the other, each of positive width, none
    reaching beyond [bound]. *)
Definition laid_out (bound : Z) (l : list PIIMatch) : Prop :=
  StronglySorted (fun a b => end_ a <= start b) l
  /\ Forall (fun a => span_ok a /\ end_ a <= bound) l.

(** A span as the reconciler places it: it starts inside the text, it is
    as wide as its replacement token and it ends inside the text. *)
Definition placed (cleanText : jsstring) (m : PIIMatch) : Prop :=
  0 <= start m /\ end_ m = start m + len (replacement m) /\ end_ m <= len cleanText.

Definition key_of (m : PIIMatch) : jsstring := posKey (start m) (end_ m).

(** What the map-driven scan maintains: every span is placed, its key is
    in [processedPositions], and no two spans have the same key. *)
Definition scan_inv (cleanText : jsstring) (st : scan_state) : Prop :=
  Forall (placed cleanText) (matches st)
  /\ (forall m, m ∈ matches st -> key_of m ∈ processedPositions st)
  /\ NoDup (key_of <$> matches st).

(** The quantity that decreases with every iteration of the scan: twice
    the distance to the end of the text, plus one while the range at the
    search index is still unclaimed. *)
Definition scan_measure (cleanText replacement : jsstring) (st : scan_state) : nat :=
  (2 * Z.to_nat (len cleanText - searchIndex st)
   + (if decide (posKey (searchIndex st) (searchIndex st + len replacement)
                   ∈ processedPositions st) then 0 else 1))%nat.

(** The span pushed for an accepted occurrence at [index]. *)
Definition accepted (original replacement : jsstring) (index : Z) : PIIMatch :=
  {| type := classify original replacement;
     original := original;
     replacement := replacement;
     start := index;
     end_ := index + len replacement |}.

(** No two spans of a list have the same [(start, end)]. *)
Definition distinct_ranges (spans : list PIIMatch) : Prop :=
  forall i j a b, spans !! i = Some a -> spans !! j = Some b -> i <> j ->
                  ~ (start a = start b /\ end_ a = end_ b).

(** The map argument is absent or has no entries. *)
Definition no_entries (syntheticMap : option (list (jsstring * jsstring))) : Prop :=
  syntheticMap = None \/ syntheticMap = Some [].

(** The fuel that is always enough for the reconciler. *)
Definition reconcile_fuel (cleanText : jsstring) : nat := 2 * length cleanText + 2.

(** [pattern] occurs somewhere in [s]. *)
Definition occurs_in (pattern s : jsstring) : Prop :=
  exists before after, s = before ++ pattern ++ after.

(** The rewrite rules of the normaliser, in the order of its [replace]
    calls: search string and replacement. *)
Definition rewrite_rules : list (jsstring * jsstring) :=
  [ (js "EMAIL_ADDRESS", js "EMAIL"); (js "PHONE_NUMBER", js "PHONE");
    (js "US_SSN", js "SSN"); (js "IP_ADDRESS", js "IP");
    (js "_ADDRESS", js ""); (js "_NUMBER", js ""); (js "US_", js "") ].

(** The precondition of the segmenter: every span lies inside the text,
    the spans are sorted by start and each ends before the next starts. *)
Definition segmentable (text : jsstring) (spans : list PIIMatch) : Prop :=
  Forall (fun m => 0 <= start m <= end_ m /\ end_ m <= len text) spans
  /\ sorted_by_start spans
  /\ (forall i a b, spans !! i = Some a -> spans !! S i = Some b -> end_ a <= start b).

(** The characters of the text a part stands for: a plain part for its
    own content, the redacted part of span [i] for the range of that span. *)
Definition covered (text : jsstring) (spans : list PIIMatch) (p : part) : jsstring :=
  match p with
  | PlainPart _ children => children
  | RedactedPart (KeyRedacted i) _ =>
      match spans !! i with
      | Some m => slice text (start m) (end_ m)
      | None => []
      end
  | RedactedPart _ _ => []
  end.

(** [tiles text spans a parts b]: the parts consume the range from [a] to
    [b] of the text piece by piece, each piece beginning where the one
    before ended: a plain part holds a non-empty gap of the text, a
    redacted part stands for one span and shows its replacement. *)
Inductive tiles (text : jsstring) (spans : list PIIMatch) : Z -> list part -> Z -> Prop :=
| tiles_nil a : tiles text spans a [] a
| tiles_plain a b key ps c :
    a < b -> tiles text spans b ps c ->
    tiles text spans a (PlainPart key (slice text a b) :: ps) c
| tiles_redacted i m ps c :
    spans !! i = Some m -> tiles text spans (end_ m) ps c ->
    tiles text spans (start m) (RedactedPart (KeyRedacted i) (replacement m) :: ps) c.

Definition is_redacted (p : part) : bool :=
  match p with RedactedPart _ _ => true | PlainPart _ _ => false end.

(** The number of leading code units of [l] that belong to the class. *)
Fixpoint run_length (cs : N -> bool) (l : jsstring) : nat :=
  match l with
  | c :: l' => if cs c then S (run_length cs l') else O
  | [] => O
  end.

(** A bracketed tag at the front of [l]: an opening angle bracket, the
    longest run of label characters, which is not empty, and a closing
    angle bracket.  The result is the label between the brackets. *)
Definition tag_prefix (l : jsstring) : option jsstring :=
  match l with
  | c :: l' =>
      if (c =? code "<")%N then
        match take (run_length label_char l') l', drop (run_length label_char l') l' with
        | (_ :: _) as label, d :: _ => if (d =? code ">")%N then Some label else None
        | _, _ => None
        end
      else None
  | [] => None
  end.

(** The bracketed-tag occurrences of a text from left to right, each with
    its start offset and its label: [skip] code units of the tag just found
    are passed over, so occurrences do not overlap. *)
Fixpoint tag_scan (skip pos : nat) (l : jsstring) : list (nat * jsstring) :=
  match l with
  | [] => []
  | _ :: l' =>
      match skip with
      | S k => tag_scan k (S pos) l'
      | O =>
          match tag_prefix l with
          | Some label => (pos, label) :: tag_scan (S (length label)) (S pos) l'
          | None => tag_scan O (S pos) l'
          end
      end
  end.

Definition tag_occurrences (text : jsstring) : list (nat * jsstring) :=
  tag_scan O O text.

(** The span of a tag occurrence: the type is the normalised label, the
    original value is the label in square brackets, the replacement value
    is the tag as it stands in the text, the range is that of the tag. *)
Definition tag_span (occurrence : nat * jsstring) : PIIMatch :=
  {| type := normalizeEntityType occurrence.2;
     original := js "[" ++ occurrence.2 ++ js "]";
     replacement := js "<" ++ occurrence.2 ++ js ">";
     start := Z.of_nat occurrence.1;
     end_ := Z.of_nat occurrence.1 + (len occurrence.2 + 2) |}.

(** The first bracketed tag of [l], whose first code unit is at offset
    [pos]: its offset and its label. *)
Fixpoint first_tag (pos : nat) (l : jsstring) : option (nat * jsstring) :=
  match tag_prefix l with
  | Some label => Some (pos, label)
  | None =>
      match l with
      | [] => None
      | _ :: l' => first_tag (S pos) l'
      end
  end.

(** The state in which the matcher leaves a tag with label [label] at
    offset [p]: its end index and the range of the first group. *)
Definition tag_state (p : nat) (label : jsstring) : state :=
  ((p + length label + 2)%nat,
   <[1%nat := Some (S p, (S p + length label)%nat)]> (replicate 2 None)).

(** The text has a bracketed tag with label [label] at offset [p]. *)
Definition tag_at (text : jsstring) (p : nat) (label : jsstring) : Prop :=
  label <> []
  /\ Forall (fun c => label_char c = true) label
  /\ exists rest, drop p text = js "<" ++ label ++ js ">" ++ rest.

(** The declarative reading of a pattern: [Matches text r i j] says that
    [r] matches the code units of [text] from offset [i] up to offset [j].
    As in the language, an iteration of a quantifier that is not required
    consumes at least one code unit. *)
Inductive Matches (text : jsstring) : regex -> nat -> nat -> Prop :=
| Matches_Empty i : Matches text Empty i i
| Matches_CharSet cs i ch :
    text !! i = Some ch -> cs ch = true -> Matches text (CharSet cs) i (S i)
| Matches_Seq r1 r2 i j k :
    Matches text r1 i j -> Matches text r2 j k -> Matches text (Seq r1 r2) i k
| Matches_Alt_l r1 r2 i j : Matches text r1 i j -> Matches text (Alt r1 r2) i j
| Matches_Alt_r r1 r2 i j : Matches text r2 i j -> Matches text (Alt r1 r2) i j
| Matches_Quant_done r min max i :
    min = O \/ max = Some O -> Matches text (Quant r min max) i i
| Matches_Quant_more r min max i j k :
    max_is_zero max = false ->
    Matches text r i j -> (min = O -> (i < j)%nat) ->
    Matches text (Quant r (Nat.pred min) (dec_max max)) j k ->
    Matches text (Quant r min max) i k
| Matches_Group n r i j : Matches text r i j -> Matches text (Group n r) i j
| Matches_WordBoundary i :
    at_word_boundary text i = true -> Matches text WordBoundary i i
| Matches_InputStart : Matches text InputStart O O
| Matches_InputEnd : Matches text InputEnd (length text) (length text).

(** The whole of [value] has the shape of [body]. *)
Definition shape (body : regex) (value : jsstring) : Prop :=
  Matches value body O (length value).

(** [value] starts with one of the credential prefixes. *)
Definition credential_prefixed (value : jsstring) : Prop :=
  exists rest, value = js "sk-" ++ rest \/ value = js "ghp_" ++ rest
               \/ value = js "AKIA" ++ rest.

(** Every success of the first continuation is one of the second. *)
Definition succeeds_more (c c' : cont) : Prop :=
  forall y, c y <> None -> c' y <> None.

(** The position at which [indexOf] starts to search. *)
Definition clamp_position (s : jsstring) (position : Z) : Z :=
  Z.min (Z.max position 0) (len s).

(** Every success of [m] hands its continuation a state at least [k]
    code units further on, and still inside the text. *)
Definition progresses (text : jsstring) (m : state -> cont -> option state) (k : nat) : Prop :=
  forall x c z, m x c = Some z ->
    exists y, c y = Some z /\ (x.1 + k <= y.1)%nat
              /\ ((x.1 <= length text)%nat -> (y.1 <= length text)%nat).

(** Soundness of a matcher for a pattern: what it accepts, the pattern
    matches. *)
Definition sound (text : jsstring) (m : state -> cont -> option state) (r : regex) : Prop :=
  forall x c z, m x c = Some z -> exists y, Matches text r x.1 y.1 /\ c y = Some z.

(** A matcher keeps a success when its continuation succeeds more often. *)
Definition monotone (m : state -> cont -> option state) : Prop :=
  forall x c c', succeeds_more c c' -> m x c <> None -> m x c' <> None.

(** The array [matches] of the reconciler as its loops leave it, before
    the final [sort] and [filter]. *)
Definition collect_matches (fuel : nat) (cleanText : jsstring)
    (syntheticMap : option (list (jsstring * jsstring))) : option (list PIIMatch) :=
  match syntheticMap with
  | Some (entry :: entries) =>
      matches <$> for_of (entry :: entries) (scan_entry fuel cleanText)
                    {| searchIndex := 0; matches := []; processedPositions := ∅ |}
  | _ => snd <$> while fuel (tag_body cleanText) (O, [])
  end.

(** A replacement token that is a bracketed tag: a non-empty label of
    capital letters and underscores between angle brackets. *)
Definition tag_token (token : jsstring) : Prop :=
  exists label, label <> [] /\ Forall (fun c => label_char c = true) label
                /\ token = js "<" ++ label ++ js ">".

(** ** The other handlers of the component *)

Section Interaction.

Variable number : Type.

Definition setInput (v : jsstring) (s : ShieldState number) : ShieldState number :=
  mkState number v (isScanning number s) (currentMatches s) (sanitizedText s) (history s)
    (activeStep number s) (apiError number s) (auditResult s) (auditStatus s)
    (processingTime number s) (sanitizeMode number s) (aiResponse number s)
    (isLoadingAI number s) (aiError number s).
Definition setAiResponse (v : jsstring) (s : ShieldState number) : ShieldState number :=
  mkState number (input s) (isScanning number s) (currentMatches s) (sanitizedText s)
    (history s) (activeStep number s) (apiError number s) (auditResult s) (auditStatus s)
    (processingTime number s) (sanitizeMode number s) v (isLoadingAI number s)
    (aiError number s).

(** The initial values of the [useState] calls. *)
Definition initial_state : ShieldState number :=
  mkState number [] false [] [] [] step_sanitize None None idle None synthetic [] false None.

Definition handleSampleClick (sample : jsstring) (s : ShieldState number) : ShieldState number :=
  run number [ setInput sample; setSanitizedText number []; setCurrentMatches number [];
               setActiveStep number step_sanitize ] s.

Definition handleInputChange (value : jsstring) (s : ShieldState number) : ShieldState number :=
  match trim value with
  | _ :: _ => run number [ setInput value; setActiveStep number step_sanitize ] s
  | [] => run number [ setInput value; setActiveStep number step_sanitize;
                       setSanitizedText number []; setCurrentMatches number [] ] s
  end.

(** [handleForward], and the callback it schedules with [setTimeout]. *)
Definition handleForward (s : ShieldState number) : ShieldState number :=
  run number [ setActiveStep number step_forward; setAuditStatus number idle ] s.

Definition forward_timeout (s : ShieldState number) : ShieldState number :=
  run number [ setInput []; setSanitizedText number []; setCurrentMatches number [];
               setAuditResult number None; setApiError number None;
               setActiveStep number step_sanitize ] s.

Definition handleClear (s : ShieldState number) : ShieldState number :=
  run number [ setInput []; setSanitizedText number []; setCurrentMatches number [];
               setAuditResult number None; setAuditStatus number idle; setAiResponse [];
               setAiError number None ] s.

(** The [then] and [catch] callbacks of the chat request. *)
Definition chat_settled (chat : outcome jsstring) (s : ShieldState number) : ShieldState number :=
  match chat with
  | Resolved reply => run number [ setAiResponse reply; setIsLoadingAI number false ] s
  | Rejected aiErr =>
      run number [ setAiError number (Some match aiErr with
                                           | ErrorObject message => message
                                           | OtherValue _ => js "AI unavailable"
                                           end);
                   setIsLoadingAI number false ] s
  end.

(** The effect that follows [currentMatches] and [isScanning]. *)
Definition step_effect (s : ShieldState number) : ShieldState number :=
  if (0 <? Z.of_nat (length (currentMatches s))) && negb (isScanning number s)
  then setActiveStep number step_verify s
  else setActiveStep number step_sanitize s.

(** What can happen to the component: a handler is invoked, a pending
    request settles, a timer fires.  Each runs to completion before the
    next.  The continuations of [handleSanitize] carry what the handler
    closed over ([text] is its [input]) and what the outside world
    supplies (the response, the clock); they are not restricted to follow
    the event that scheduled them. *)
Inductive event : Type :=
| SanitizeInvoked
| SanitizeResolved (text : jsstring) (now date : number) (response : SanitizeResponse number)
| SanitizeRejected (error : thrown)
| FallbackTimeout (text : jsstring) (now date : number)
| AuditSettled (audit : outcome (AuditResult number))
| ChatSettled (chat : outcome jsstring)
| SampleClicked (sample : jsstring)
| InputChanged (value : jsstring)
| ForwardInvoked
| ForwardTimeout
| ClearInvoked
| StepEffect.

(** The state after an event.  The reconciler and the detector run with
    fuel that is always enough for them. *)
Definition apply_event (e : event) (s : ShieldState number) : option (ShieldState number) :=
  match e with
  | SanitizeInvoked =>
      match sanitize_started number s with
      | Some s' => Some s'
      | None => Some s
      end
  | SanitizeResolved text now date response =>
      sanitize_resolved number (reconcile_fuel (clean_text response)) text now date response s
  | SanitizeRejected error => Some (sanitize_rejected number error s)
  | FallbackTimeout text now date =>
      fallback_timeout number (length text + 2) text now date s
  | AuditSettled audit => Some (audit_settled number audit s)
  | ChatSettled chat => Some (chat_settled chat s)
  | SampleClicked sample => Some (handleSampleClick sample s)
  | InputChanged value => Some (handleInputChange value s)
  | ForwardInvoked => Some (handleForward s)
  | ForwardTimeout => Some (forward_timeout s)
  | ClearInvoked => Some (handleClear s)
  | StepEffect => Some (step_effect s)
  end.

Definition apply_events (events : list event) (s : ShieldState number)
    : option (ShieldState number) :=
  for_of events apply_event s.

(** Every span on display lies inside the sanitized text on display. *)
Definition spans_inside_text (s : ShieldState number) : Prop :=
  Forall (fun m => 0 <= start m <= end_ m /\ end_ m <= len (sanitizedText s))
    (currentMatches s).

End Interaction.

Arguments SanitizeInvoked {number}.
Arguments SanitizeResolved {number}.
Arguments SanitizeRejected {number}.
Arguments FallbackTimeout {number}.
Arguments AuditSettled {number}.
Arguments ChatSettled {number}.
Arguments SampleClicked {number}.
Arguments InputChanged {number}.
Arguments ForwardInvoked {number}.
Arguments ForwardTimeout {number}.
Arguments ClearInvoked {number}.
Arguments StepEffect {number}.

(** ** The API client *)

(** A value that reaches a [catch] of the client: a [TypeError], another
    [Error], both with their message, or a value that is not an [Error],
    with its string conversion. *)
Inductive caught : Type :=
| TypeErrorValue (message : jsstring)
| ErrorValue (message : jsstring)
| NonError (as_string : jsstring).

(** The same value as the component's [catch] sees it. *)
Definition to_thrown (error : caught) : thrown :=
  match error with
  | TypeErrorValue message | ErrorValue message => ErrorObject message
  | NonError as_string => OtherValue as_string
  end.

(** What a promise settles with. *)
Inductive settled (T : Type) : Type :=
| Fulfilled (value : T)
| RejectedWith (error : caught).
Arguments Fulfilled {T} value.
Arguments RejectedWith {T} error.

Definition to_outcome {T : Type} (p : settled T) : outcome T :=
  match p with
  | Fulfilled value => Resolved value
  | RejectedWith error => Rejected (to_thrown error)
  end.

(** The response of [fetch] as the client reads it: [ok], [status], what
    [text()] settles with ([None] when it rejects) and what [json()]
    settles with. *)
Record Response (T : Type) : Type := mkHttp {
  response_ok : bool;
  response_status : Z;
  response_text : option jsstring;
  response_json : settled T
}.
Arguments mkHttp {T}.
Arguments response_ok {T}.
Arguments response_status {T}.
Arguments response_text {T}.
Arguments response_json {T}.

(** What one call of [fetch] settles with. *)
Inductive fetched (T : Type) : Type :=
| FetchRejected (error : caught)
| FetchResolved (response : Response T).
Arguments FetchRejected {T} error.
Arguments FetchResolved {T} response.

Section Api.

(** [process.env.NEXT_PUBLIC_API_BASE], [None] when it is not set. *)
Variable NEXT_PUBLIC_API_BASE : option jsstring.

Definition API_BASE : jsstring :=
  match NEXT_PUBLIC_API_BASE with
  | Some (c :: base) => c :: base
  | _ => js "http://127.0.0.1:8000"
  end.

Definition normalizeFetchError (error : caught) : caught :=
  let msg := match error with
             | TypeErrorValue message | ErrorValue message => message
             | NonError _ => []
             end in
  let isNetworkError :=
    match error with TypeErrorValue _ => true | _ => false end
    || bool_decide (msg = js "Failed to fetch")
    || includes msg (js "NetworkError")
    || includes msg (js "Load failed") in
  if isNetworkError then
    ErrorValue (js "Cannot reach the API at " ++ API_BASE
                ++ js ". Ensure the backend is running (e.g. `uvicorn app.main:app`) and reachable.")
  else
    match error with
    | NonError _ => ErrorValue (js "API request failed")
    | _ => error
    end.

(** The [try] block of one attempt, given what [fetch] settled with:
    [inl] when the function returns the promise of [response.json()],
    which settles outside the [try], [inr] with the value that reaches
    the [catch]. *)
Definition attempt {T : Type} (f : fetched T) : settled T + caught :=
  match f with
  | FetchRejected error => inr error
  | FetchResolved response =>
      if negb (response_ok response) then
        if response_status response =? 429
        then inr (ErrorValue (js "Rate limit exceeded. Please try again later."))
        else
          let errorText := match response_text response with
                           | Some t => t
                           | None => js "Unknown error"
                           end in
          inr (ErrorValue (js "API error (" ++ Number_toString (response_status response)
                           ++ js "): " ++ errorText))
      else inl (response_json response)
  end.

(** The loop of [apiFetch] from the iteration with counter [attempt_index]
    on: [fetch k] is what the call of [fetch] in iteration [k] settles
    with, [delays] are the waits so far.  The result is what the promise
    of [apiFetch] settles with, and the waits made. *)
Fixpoint apiFetch_loop {T : Type} (fuel : nat) (fetch : Z -> fetched T)
    (retries baseDelayMs : Z) (attempt_index : Z) (lastError : caught) (delays : list Z)
    : option (settled T * list Z) :=
  match fuel with
  | O => None
  | S fuel' =>
      if attempt_index <=? retries then
        match attempt (fetch attempt_index) with
        | inl promise => Some (promise, delays)
        | inr error =>
            if attempt_index >=? retries
            then Some (RejectedWith (normalizeFetchError error), delays)
            else apiFetch_loop fuel' fetch retries baseDelayMs (attempt_index + 1) error
                   (delays ++ [baseDelayMs * 2 ^ attempt_index])
        end
      else Some (RejectedWith (normalizeFetchError lastError), delays)
  end.

(** [lastError] starts as [undefined]. *)
Definition apiFetch {T : Type} (fuel : nat) (fetch : Z -> fetched T)
    (retries baseDelayMs : Z) : option (settled T * list Z) :=
  apiFetch_loop fuel fetch retries baseDelayMs 0 (NonError (js "undefined")) [].

(** [sanitizeText], [auditText] and [chatProxy] call [apiFetch] with the
    default [retry] and throw on what they catch; the request they send
    shows only in what [fetch] settles with. *)
Definition sanitizeText {T : Type} (fuel : nat) (fetch : Z -> fetched T)
    : option (settled T * list Z) :=
  apiFetch fuel fetch 0 250.

Definition auditText {T : Type} (fuel : nat) (fetch : Z -> fetched T)
    : option (settled T * list Z) :=
  apiFetch fuel fetch 0 250.

(** [getStats], [getEvents], [getPiiDistribution] and [getTimeline]. *)
Definition getStats {T : Type} (fuel : nat) (fetch : Z -> fetched T)
    : option (settled T * list Z) :=
  apiFetch fuel fetch 1 250.

End Api.

(** The attempts with counter below [k] all reach the [catch]. *)
Definition all_fail {T : Type} (fetch : Z -> fetched T) (k : Z) : Prop :=
  forall i, 0 <= i < k -> exists error, attempt (fetch i) = inr error.

(** The waits before the attempts [1 .. k]: the base delay doubled each
    time. *)
Definition backoff (baseDelayMs : Z) (k : Z) : list Z :=
  (fun i => baseDelayMs * 2 ^ i) <$> seqZ 0 k.

(** ** The threat summary and the step indicator *)

(** A [Map] with string keys: its entries in insertion order, with
    [get] and [set]. *)
Fixpoint Map_get {V : Type} (m : list (jsstring * V)) (key : jsstring) : option V :=
  match m with
  | [] => None
  | (k, v) :: m' => if decide (k = key) then Some v else Map_get m' key
  end.





(** [arr.findIndex(p)] *)
Fixpoint findIndex_from {A : Type} (p : A -> bool) (l : list A) (k : Z) : Z :=
  match l with
  | [] => -1
  | a :: l' => if p a then k else findIndex_from p l' (k + 1)
  end.

Definition findIndex {A : Type} (p : A -> bool) (l : list A) : Z := findIndex_from p l 0.

(** The look the class names give a step: the unavailable look wins over
    the active one, that over the completed one. *)
Inductive step_style : Type :=
| StyleUnavailable
| StyleActive
| StyleCompleted
| StylePending.

(** What [StepIndicator] renders for the steps with the given ids: the
    look of each step, and for each step but the last whether the
    connector after it is lit. *)
Definition StepIndicator (steps : list jsstring) (activeStep : jsstring)
    (unavailableSteps : list jsstring) : list (step_style * option bool) :=
  let activeIndex := findIndex (fun step => bool_decide (step = activeStep)) steps in
  imap (fun index step =>
          let isActive := bool_decide (step = activeStep) in
          let isCompleted := Z.of_nat index <? activeIndex in
          let isUnavailable := bool_decide (step ∈ unavailableSteps) in
          (if isUnavailable then StyleUnavailable
           else if isActive then StyleActive
           else if isCompleted then StyleCompleted
           else StylePending,
           if Z.of_nat index <? Z.of_nat (length steps) - 1
           then Some (Z.of_nat index <? activeIndex)
           else None))
    steps.

(** The look of step [i] when step [k] is the active one. *)
Definition expected_style (unavailableSteps : list jsstring) (k i : nat) (step : jsstring)
    : step_style :=
  if bool_decide (step ∈ unavailableSteps) then StyleUnavailable
  else if decide (i = k) then StyleActive
  else if decide (i < k)%nat then StyleCompleted
  else StylePending.

(** What the map-driven scan also maintains: a claimed range that starts
    at an offset is the range of a span found, and every span found starts
    at an offset and stands where its replacement token occurs. *)
Definition claims_inv (cleanText : jsstring) (st : scan_state) : Prop :=
  (forall a b, 0 <= a -> posKey a b ∈ processedPositions st ->
     exists m, m ∈ matches st /\ start m = a /\ end_ m = b)
  /\ Forall (fun m => 0 <= start m
                      /\ slice cleanText (start m) (end_ m) = replacement m) (matches st).

(** ** The governance panel *)

Inductive Severity : Type := critical | high | medium | low.

(** A detection rule; its label, description, icon and category are only
    rendered. *)
Record DetectionRule : Type := mkRule {
  rule_id : jsstring;
  rule_enabled : bool;
  rule_severity : Severity
}.

Definition INITIAL_RULES : list DetectionRule :=
  [ mkRule (js "financial") true critical;
    mkRule (js "medical") true critical;
    mkRule (js "names") false medium;
    mkRule (js "emails") true high;
    mkRule (js "phone") true high;
    mkRule (js "credentials") true critical;
    mkRule (js "ip") true medium;
    mkRule (js "ssn") true critical ].

(** The own properties of the object [RULE_TO_ENTITIES]. *)
Definition RULE_TO_ENTITIES : list (jsstring * list jsstring) :=
  [ (js "financial", [js "CREDIT_CARD"]);
    (js "medical", [js "PERSON"]);
    (js "names", [js "PERSON"]);
    (js "emails", [js "EMAIL_ADDRESS"]);
    (js "phone", [js "PHONE_NUMBER"]);
    (js "credentials", [js "API_KEY"]);
    (js "ip", [js "IP_ADDRESS"]);
    (js "ssn", [js "US_SSN"]) ].

Definition SEVERITY_WEIGHTS (severity : Severity) : Z :=
  match severity with
  | critical => 40
  | high => 25
  | medium => 15
  | low => 5
  end.

(** [set.add(e)] on a [Set], kept as its elements in insertion order. *)
Definition Set_add (set : list jsstring) (e : jsstring) : list jsstring :=
  if decide (e ∈ set) then set else set ++ [e].

(** The ids of the rules are those of [INITIAL_RULES], which are the own
    properties of [RULE_TO_ENTITIES]; [None] is [undefined]. *)
Definition deriveEnabledEntities (nextRules : list DetectionRule) : list jsstring :=
  foldl (fun set rule =>
           if negb (rule_enabled rule) then set
           else match Map_get RULE_TO_ENTITIES (rule_id rule) with
                | None => set
                | Some ents => foldl Set_add set ents
                end)
    [] nextRules.

Definition calculateRisk (rules : list DetectionRule) : Z :=
  foldl (fun sum rule => sum + SEVERITY_WEIGHTS (rule_severity rule)) 0
    (List.filter (fun rule => negb (rule_enabled rule)) rules).

Inductive RiskLevel : Type := LOW | MEDIUM | HIGH.

Definition getRiskLevel (riskScore : Z) : RiskLevel :=
  if riskScore <=? 20 then LOW
  else if riskScore <=? 50 then MEDIUM
  else HIGH.

(** The array [next] of [toggleRule]. *)
Definition toggleRule (id : jsstring) (rules : list DetectionRule) : list DetectionRule :=
  (fun r => if decide (rule_id r = id)
            then mkRule (rule_id r) (negb (rule_enabled r)) (rule_severity r)
            else r) <$> rules.

(** * Properties *)

(** ** Loops *)

Section Loops.
Context {St : Type} (body : St -> option St).

Lemma while_mono fuel fuel' s r :
  while fuel body s = Some r -> (fuel <= fuel')%nat -> while fuel' body s = Some r.
Proof.
  revert fuel' s. induction fuel as [|n IH]; intros fuel' s H Hle; simpl in H.
  - discriminate.
  - destruct fuel' as [|m]; [lia|]. simpl.
    destruct (body s) as [s'|]; [|exact H]. apply IH; [exact H|lia].
Qed.

Lemma while_inv (I : St -> Prop) fuel s r :
  (forall s s', I s -> body s = Some s' -> I s') ->
  I s -> while fuel body s = Some r -> I r /\ body r = None.
Proof.
  intros Hstep. revert s. induction fuel as [|n IH]; intros s Hs H; simpl in H.
  - discriminate.
  - destruct (body s) as [s'|] eqn:Hb.
    + apply (IH s'); [eapply Hstep; eauto|exact H].
    + inversion H; subst. auto.
Qed.

Lemma while_total (I : St -> Prop) (measure : St -> nat) :
  (forall s s', I s -> body s = Some s' -> I s' /\ (measure s' < measure s)%nat) ->
  forall fuel s, I s -> (measure s < fuel)%nat -> exists r, while fuel body s = Some r.
Proof.
  intros Hstep. induction fuel as [|n IH]; intros s Hs Hm; [lia|]. simpl.
  destruct (body s) as [s'|] eqn:Hb; [|eauto].
  destruct (Hstep _ _ Hs Hb) as [Hs' Hlt]. apply IH; [exact Hs'|lia].
Qed.
End Loops.

Section ForOf.
Context {A St : Type} (body : A -> St -> option St).

Lemma for_of_inv (I : St -> Prop) l s r :
  (forall a s s', a ∈ l -> I s -> body a s = Some s' -> I s') ->
  I s -> for_of l body s = Some r -> I r.
Proof.
  revert s. induction l as [|a l IH]; intros s Hstep Hs H; simpl in H.
  - inversion H; subst; exact Hs.
  - destruct (body a s) as [s'|] eqn:Hb; [|discriminate].
    apply (IH s'); [|eapply Hstep; eauto; left|exact H].
    intros b t t' Hin; apply Hstep; right; exact Hin.
Qed.

Lemma for_of_total (I : St -> Prop) l s :
  (forall a s, a ∈ l -> I s -> exists s', body a s = Some s' /\ I s') ->
  I s -> exists r, for_of l body s = Some r /\ I r.
Proof.
  revert s. induction l as [|a l IH]; intros s Hstep Hs; simpl.
  - eauto.
  - destruct (Hstep a s) as (s' & Hb & Hs'); [left|exact Hs|]. rewrite Hb.
    apply IH; [|exact Hs']. intros b t Hin; apply Hstep; right; exact Hin.
Qed.
End ForOf.

(** ** Sorting and filtering *)

Lemma insert_sorted_Permutation {A : Type} (cmp : A -> A -> Z) x l :
  insert_sorted cmp x l ≡ₚ x :: l.
Proof.
  induction l as [|y l IH]; simpl; [reflexivity|].
  destruct (cmp x y <=? 0); [reflexivity|].
  rewrite IH. apply perm_swap.
Qed.

Lemma sort_Permutation {A : Type} (cmp : A -> A -> Z) l : sort cmp l ≡ₚ l.
Proof.
  induction l as [|x l IH]; simpl; [reflexivity|].
  unfold sort in *; simpl. rewrite insert_sorted_Permutation, IH. reflexivity.
Qed.

Lemma insert_sorted_by_start x l :
  StronglySorted start_le l -> StronglySorted start_le (insert_sorted by_start x l).
Proof.
  induction l as [|y l IH]; intros Hl; simpl.
  - repeat constructor.
  - apply StronglySorted_cons in Hl as [Hy Hl].
    destruct (by_start x y <=? 0) eqn:Hc.
    + apply Z.leb_le in Hc. unfold by_start in Hc.
      apply StronglySorted_cons; split.
      * constructor; [unfold start_le; lia|].
        eapply Forall_impl; [exact Hy|]. unfold start_le; intros; lia.
      * apply StronglySorted_cons; auto.
    + apply Z.leb_gt in Hc. unfold by_start in Hc.
      apply StronglySorted_cons; split; [|auto].
      rewrite insert_sorted_Permutation. constructor; [unfold start_le; lia|exact Hy].
  Qed.

Lemma sort_by_start_sorted l : StronglySorted start_le (sort by_start l).
Proof.
  induction l as [|x l IH]; unfold sort in *; simpl.
  - constructor.
  - apply insert_sorted_by_start, IH.
Qed.

(** A list in ascending order is left as it is. *)
Lemma sort_by_start_id l : StronglySorted start_le l -> sort by_start l = l.
Proof.
  induction l as [|x l IH]; intros Hl; [reflexivity|].
  apply StronglySorted_cons in Hl as [Hx Hl].
  unfold sort in *; simpl. rewrite (IH Hl).
  destruct l as [|y l]; [reflexivity|]. simpl.
  apply Forall_cons in Hx as [Hxy _]. unfold start_le in Hxy.
  destruct (by_start x y <=? 0) eqn:Hc; [reflexivity|].
  apply Z.leb_gt in Hc. unfold by_start in Hc. lia.
Qed.

Lemma StronglySorted_sublist {A : Type} (R : A -> A -> Prop) l1 l2 :
  l1 `sublist_of` l2 -> StronglySorted R l2 -> StronglySorted R l1.
Proof.
  induction 1 as [|x l1 l2 Hsub IH|x l1 l2 Hsub IH]; intros Hs.
  - constructor.
  - apply StronglySorted_cons in Hs as [Hx Hs].
    apply StronglySorted_cons; split; [|auto].
    apply Forall_forall; intros y Hy.
    eapply (proj1 (Forall_forall _ _) Hx), elem_of_sublist; eauto.
  - apply StronglySorted_cons in Hs as [_ Hs]. auto.
Qed.

Lemma StronglySorted_sorted_by_start l : StronglySorted start_le l -> sorted_by_start l.
Proof.
  induction 1 as [|x l Hl IH Hx]; intros i a b Ha Hb.
  - rewrite lookup_nil in Ha; discriminate.
  - destruct i as [|i]; simpl in *.
    + inversion Ha; subst.
      eapply (proj1 (Forall_forall _ _) Hx), list_elem_of_lookup_2; eauto.
    + eapply IH; eauto.
Qed.

Lemma filter_indexed_gen {A : Type} (p : nat -> A -> bool) (k : nat -> nat) (l : list A) :
  omap (fun '(i, x) => if p i x then Some x else None) (imap (fun i x => (k i, x)) l)
  `sublist_of` l.
Proof.
  revert k. induction l as [|x l IH]; intros k; simpl; [constructor|].
  destruct (p (k O) x).
  - constructor. apply (IH (k ∘ S)).
  - constructor. apply (IH (k ∘ S)).
Qed.

Lemma filter_indexed_sublist {A : Type} (f : A -> nat -> list A -> bool) arr :
  filter_indexed f arr `sublist_of` arr.
Proof.
  unfold filter_indexed.
  apply (filter_indexed_gen (fun i x => f x i arr) (fun i => i)).
Qed.

Lemma filter_indexed_keep_gen {A : Type} (p : nat -> A -> bool) (k : nat -> nat) (l : list A) :
  (forall i x, l !! i = Some x -> p (k i) x = true) ->
  omap (fun '(i, x) => if p i x then Some x else None) (imap (fun i x => (k i, x)) l) = l.
Proof.
  revert k. induction l as [|x l IH]; intros k H; simpl; [reflexivity|].
  rewrite (H O x eq_refl). f_equal.
  apply (IH (k ∘ S)). intros i y Hy. apply (H (S i) y Hy).
Qed.

(** A callback that holds of every element keeps the whole array. *)
Lemma filter_indexed_keep {A : Type} (f : A -> nat -> list A -> bool) arr :
  (forall i x, arr !! i = Some x -> f x i arr = true) -> filter_indexed f arr = arr.
Proof.
  intros H. unfold filter_indexed.
  apply (filter_indexed_keep_gen (fun i x => f x i arr) (fun i => i)). exact H.
Qed.

(** ** Strings *)

Lemma len_nonneg (s : jsstring) : 0 <= len s.
Proof. unfold len. lia. Qed.

Lemma len_app (s t : jsstring) : len (s ++ t) = len s + len t.
Proof. unfold len. rewrite length_app. lia. Qed.

Lemma starts_with_spec p l : starts_with p l = true <-> take (length p) l = p.
Proof.
  revert l. induction p as [|a p IH]; intros l; simpl.
  - split; [intros _; apply take_0|reflexivity].
  - destruct l as [|b l]; simpl.
    + split; discriminate.
    + rewrite andb_true_iff, N.eqb_eq, IH. split.
      * intros [-> ->]. reflexivity.
      * intros H. inversion H; subst. rewrite H2. auto.
Qed.

Lemma starts_with_length p l : starts_with p l = true -> (length p <= length l)%nat.
Proof.
  intros H. apply starts_with_spec in H.
  rewrite <- H at 1. rewrite length_take. lia.
Qed.

Lemma find_from_range search l k0 k :
  find_from search l k0 = Some k ->
  (k0 <= k)%nat /\ (k + length search <= k0 + length l)%nat
  /\ starts_with search (drop (k - k0) l) = true.
Proof.
  revert k0. induction l as [|b l IH]; intros k0; simpl.
  - destruct (starts_with search []) eqn:Hs; [|discriminate].
    intros H; inversion H; subst. apply starts_with_length in Hs as Hl. simpl in Hl.
    replace (k - k)%nat with O by lia. repeat split; [lia|simpl; lia|exact Hs].
  - destruct (starts_with search (b :: l)) eqn:Hs.
    + intros H; inversion H; subst. apply starts_with_length in Hs as Hl. simpl in Hl.
      replace (k - k)%nat with O by lia. repeat split; [lia|lia|exact Hs].
    + intros H. apply IH in H as (H1 & H2 & H3).
      replace (k - k0)%nat with (S (k - S k0)) by lia. simpl.
      repeat split; [lia|lia|exact H3].
Qed.

(** Positions before the one found hold no occurrence. *)
Lemma find_from_first search l k0 k j :
  find_from search l k0 = Some k -> (k0 <= j < k)%nat ->
  starts_with search (drop (j - k0) l) = false.
Proof.
  revert k0. induction l as [|b l IH]; intros k0; simpl.
  - destruct (starts_with search []); [|discriminate]. intros H; inversion H; lia.
  - destruct (starts_with search (b :: l)) eqn:Hs.
    + intros H; inversion H; lia.
    + intros H Hj. destruct (decide (j = k0)) as [->|Hne].
      * replace (k0 - k0)%nat with O by lia. exact Hs.
      * replace (j - k0)%nat with (S (j - S k0)) by lia. simpl.
        apply (IH (S k0)); [exact H|lia].
Qed.

Lemma find_from_none search l k0 j :
  find_from search l k0 = None -> (j <= length l)%nat ->
  starts_with search (drop j l) = false.
Proof.
  revert k0 j. induction l as [|b l IH]; intros k0 j; simpl.
  - destruct (starts_with search []) eqn:Hs; [discriminate|].
    intros _ Hj. replace j with O by lia. exact Hs.
  - destruct (starts_with search (b :: l)) eqn:Hs; [discriminate|].
    intros H Hj. destruct j as [|j]; [exact Hs|]. simpl. apply (IH (S k0)); [exact H|lia].
Qed.

Lemma find_from_empty l k0 : find_from [] l k0 = Some k0.
Proof. destruct l; reflexivity. Qed.

Lemma indexOf_range s search position i :
  indexOf s search position = i -> i <> -1 ->
  clamp_position s position <= i /\ i + len search <= len s.
Proof.
  unfold indexOf, clamp_position.
  set (p := Z.to_nat (Z.min (Z.max position 0) (len s))).
  assert (Hp : Z.of_nat p = Z.min (Z.max position 0) (len s)).
  { unfold p. pose proof (len_nonneg s). lia. }
  destruct (find_from search (drop p s) p) as [k|] eqn:Hf; [|intros <-; congruence].
  intros <- _. apply find_from_range in Hf as (H1 & H2 & _).
  rewrite length_drop in H2. unfold len in *. lia.
Qed.

Lemma indexOf_empty s position : indexOf s [] position = clamp_position s position.
Proof.
  unfold indexOf, clamp_position. rewrite find_from_empty.
  pose proof (len_nonneg s). lia.
Qed.

Lemma slice_in_range s a b :
  0 <= a -> a <= b -> b <= len s ->
  slice s a b = take (Z.to_nat (b - a)) (drop (Z.to_nat a) s).
Proof.
  intros Ha Hab Hb. unfold slice, rel_index.
  destruct (a <? 0) eqn:E1; [apply Z.ltb_lt in E1; lia|].
  destruct (b <? 0) eqn:E2; [apply Z.ltb_lt in E2; lia|].
  rewrite !Z.min_l by lia. reflexivity.
Qed.

(** The position found holds an occurrence of the search string. *)
Lemma indexOf_occurrence s search position i :
  indexOf s search position = i -> i <> -1 -> slice s i (i + len search) = search.
Proof.
  intros Hi Hne. pose proof (indexOf_range _ _ _ _ Hi Hne) as [Hlo Hhi].
  pose proof (len_nonneg s) as Hs. pose proof (len_nonneg search) as Hse.
  assert (Hi0 : 0 <= i) by (unfold clamp_position in Hlo; lia).
  rewrite slice_in_range by lia.
  unfold indexOf in Hi.
  set (p := Z.to_nat (Z.min (Z.max position 0) (len s))) in *.
  destruct (find_from search (drop p s) p) as [k|] eqn:Hf; [|congruence].
  apply find_from_range in Hf as (H1 & H2 & H3). subst i.
  apply starts_with_spec in H3. rewrite drop_drop in H3.
  replace (Z.to_nat (Z.of_nat k)) with (p + (k - p))%nat by lia.
  replace (Z.to_nat (Z.of_nat k + len search - Z.of_nat k)) with (length search)
    by (unfold len; lia).
  exact H3.
Qed.

(** ** Progress of the matcher *)

Section Progress.
Variable text : jsstring.

Lemma repeat_matcher_progresses m reset k :
  progresses text m k ->
  forall fuel min max,
    progresses text (repeat_matcher m reset fuel min max) (min_count min max * k).
Proof.
  intros Hm. induction fuel as [|fuel IH]; intros min max x c z H; simpl in H.
  - discriminate.
  - destruct (max_is_zero max) eqn:Hz.
    + destruct max as [[|?]|]; try discriminate. exists x.
      unfold min_count. rewrite Nat.min_0_r. simpl. repeat split; auto; lia.
    + assert (Hstep : forall y, 
                repeat_matcher m reset fuel (Nat.pred min) (dec_max max) y c = Some z ->
                (x.1 + k <= y.1)%nat ->
                ((x.1 <= length text)%nat -> (y.1 <= length text)%nat) ->
                exists y', c y' = Some z /\ (x.1 + min_count min max * k <= y'.1)%nat
                  /\ ((x.1 <= length text)%nat -> (y'.1 <= length text)%nat)).
      { intros y Hy Hk Hb. apply IH in Hy as (y' & Hc & Hk' & Hb').
        exists y'. split; [exact Hc|]. split; [|auto].
        assert (min_count min max <= S (min_count (Nat.pred min) (dec_max max)))%nat.
        { destruct max as [[|mx]|]; try discriminate; destruct min; simpl; lia. }
        nia. }
      destruct (min =? 0)%nat eqn:Hmin.
      * apply Nat.eqb_eq in Hmin. subst min.
        destruct (m (x.1, reset x.2)) as [z'|] eqn:Hmx in H.
        -- inversion H; subst z'. apply Hm in Hmx as (y & Hd & Hk & Hb). simpl in *.
           destruct (y.1 =? x.1)%nat; [discriminate|].
           destruct (Hstep y Hd Hk Hb) as (y' & ? & ? & ?). exists y'.
           replace (min_count 0 max) with O in * by (destruct max; reflexivity). auto.
        -- exists x. replace (min_count 0 max) with O by (destruct max; reflexivity).
           repeat split; auto; lia.
      * apply Hm in H as (y & Hd & Hk & Hb). simpl in *.
        apply (Hstep y Hd Hk Hb).
Qed.

Lemma matcher_progresses r : progresses text (matcher text r) (min_length r).
Proof.
  induction r as [|cs|r1 IH1 r2 IH2|r1 IH1 r2 IH2|r IH min max|n r IH| | |];
    intros x c z H; [simpl in H..|idtac|simpl in H|simpl in H|simpl in H|simpl in H].
  - exists x. repeat split; auto; simpl; lia.
  - destruct (text !! x.1) as [ch|] eqn:Hch; [|discriminate].
    destruct (cs ch); [|discriminate].
    exists (S x.1, x.2). apply lookup_lt_Some in Hch. simpl. repeat split; auto; lia.
  - apply IH1 in H as (y & Hy & Hk & Hb). apply IH2 in Hy as (y' & Hy' & Hk' & Hb').
    exists y'. simpl. repeat split; auto; lia.
  - destruct (matcher text r1 x c) as [z'|] eqn:H1.
    + inversion H; subst z'. apply IH1 in H1 as (y & ? & ? & ?).
      exists y. simpl. repeat split; auto; lia.
    + apply IH2 in H as (y & ? & ? & ?). exists y. simpl. repeat split; auto; lia.
  - change (repeat_matcher (matcher text r) (reset_groups (groups_of r))
              (S (min + (length text - x.1))) min max x c = Some z) in H.
    apply (repeat_matcher_progresses _ _ _ IH) in H. exact H.
  - apply IH in H as (y & Hy & Hk & Hb).
    exists (y.1, <[n := Some (x.1, y.1)]> y.2). simpl. repeat split; auto.
  - destruct (at_word_boundary text x.1); [|discriminate].
    exists x. repeat split; auto; simpl; lia.
  - destruct (x.1 =? 0)%nat; [|discriminate]. exists x. repeat split; auto; simpl; lia.
  - destruct (x.1 =? length text)%nat; [|discriminate].
    exists x. repeat split; auto; simpl; lia.
Qed.

Lemma scan_range re n i j y :
  scan re text n i = Some (j, y) ->
  (i <= j <= i + n)%nat /\ match_at re text j = Some y.
Proof.
  revert i. induction n as [|n IH]; intros i; simpl.
  - destruct (match_at re text i) eqn:Hm; [|discriminate].
    intros H; inversion H; subst. split; [lia|exact Hm].
  - destruct (match_at re text i) eqn:Hm.
    + intros H; inversion H; subst. split; [lia|exact Hm].
    + intros H. apply IH in H as [? ?]. split; [lia|auto].
Qed.

(** What [exec] returns: a match at or after [lastIndex], of at least
    the least length of the pattern, lying inside the text. *)
Lemma exec_range re lastIndex m :
  exec re text lastIndex = Some m ->
  (lastIndex <= index m)%nat
  /\ (index m + min_length (source re) <= end_index m)%nat
  /\ (end_index m <= length text)%nat
  /\ matched m = take (end_index m - index m) (drop (index m) text).
Proof.
  unfold exec. destruct (length text <? lastIndex)%nat eqn:Hl; [discriminate|].
  apply Nat.ltb_ge in Hl.
  destruct (scan re text (length text - lastIndex) lastIndex) as [[i [e cap]]|] eqn:Hs;
    [|discriminate].
  intros H; inversion H; subst; simpl. clear H.
  apply scan_range in Hs as [Hi Hm]. unfold match_at in Hm.
  apply matcher_progresses in Hm as (y & Hy & Hk & Hb). inversion Hy; subst y.
  simpl in *. repeat split; try lia. 
Qed.

Lemma exec_matched_length re lastIndex m :
  exec re text lastIndex = Some m ->
  len (matched m) = Z.of_nat (end_index m) - Z.of_nat (index m).
Proof.
  intros H. apply exec_range in H as (H1 & H2 & H3 & ->).
  unfold len. rewrite length_take, length_drop. lia.
Qed.
End Progress.

(** ** Results that do not depend on the fuel *)

Lemma returns_intro {A : Type} (run : nat -> option A) (P : A -> Prop) (n : nat) :
  (forall fuel fuel' r, run fuel = Some r -> (fuel <= fuel')%nat -> run fuel' = Some r) ->
  (exists r, run n = Some r) ->
  (forall fuel r, run fuel = Some r -> P r) ->
  returns run P.
Proof.
  intros Hmono [r Hr] HP. exists n, r. split; [|eapply HP; eauto].
  intros fuel Hle. eapply Hmono; eauto.
Qed.

Lemma returns_unique {A : Type} (run : nat -> option A) (P : A -> Prop) fuel r :
  (forall fuel fuel' r, run fuel = Some r -> (fuel <= fuel')%nat -> run fuel' = Some r) ->
  returns run P -> run fuel = Some r -> P r.
Proof.
  intros Hmono (n & r' & Hn & HP) Hr.
  pose proof (Hn (Nat.max n fuel) ltac:(lia)) as H1.
  pose proof (Hmono _ (Nat.max n fuel) _ Hr ltac:(lia)) as H2.
  congruence.
Qed.

Lemma for_of_ext {A St : Type} (body1 body2 : A -> St -> option St) l s r :
  (forall a s r, body1 a s = Some r -> body2 a s = Some r) ->
  for_of l body1 s = Some r -> for_of l body2 s = Some r.
Proof.
  intros Hb. revert s. induction l as [|a l IH]; intros s H; simpl in *; [exact H|].
  destruct (body1 a s) as [s'|] eqn:H1; [|discriminate].
  rewrite (Hb _ _ _ H1). apply IH, H.
Qed.

Lemma fmap_while_mono {St B : Type} (g : St -> B) (body : St -> option St) fuel fuel' s r :
  g <$> while fuel body s = Some r -> (fuel <= fuel')%nat ->
  g <$> while fuel' body s = Some r.
Proof.
  intros H Hle. destruct (while fuel body s) as [t|] eqn:Hw; [|discriminate].
  rewrite (while_mono body _ _ _ _ Hw Hle). exact H.
Qed.

Lemma detectPII_mono text fuel fuel' r :
  detectPII fuel text = Some r -> (fuel <= fuel')%nat -> detectPII fuel' text = Some r.
Proof.
  unfold detectPII. intros H Hle.
  destruct (for_of PII_PATTERNS _ []) as [found|] eqn:Hf in H; [|discriminate].
  erewrite for_of_ext; [exact H| |exact Hf].
  intros a s t Ht. simpl in *. eapply fmap_while_mono; eauto.
Qed.

Lemma convert_mono originalText cleanText items syntheticMap fuel fuel' r :
  convertBackendResponseToMatches fuel originalText cleanText items syntheticMap = Some r ->
  (fuel <= fuel')%nat ->
  convertBackendResponseToMatches fuel' originalText cleanText items syntheticMap = Some r.
Proof.
  unfold convertBackendResponseToMatches. intros H Hle.
  assert (Hb : forall (o : option (list PIIMatch)) o',
             (forall t, o = Some t -> o' = Some t) ->
             o ≫= (fun found => Some (filter_indexed differs_from_previous (sort by_start found)))
               = Some r ->
             o' ≫= (fun found => Some (filter_indexed differs_from_previous (sort by_start found)))
               = Some r).
  { intros [t|] o' Ho Hr; [|discriminate]. rewrite (Ho t eq_refl). exact Hr. }
  revert H. destruct syntheticMap as [[|entry entries]|]; apply Hb; intros t Ht.
  - eapply fmap_while_mono; eauto.
  - destruct (for_of (entry :: entries) (scan_entry fuel cleanText) _) as [st|] eqn:Hf;
      [|discriminate].
    erewrite for_of_ext; [exact Ht| |exact Hf].
    intros a s u Hu. unfold scan_entry in *. eapply while_mono; eauto.
  - eapply fmap_while_mono; eauto.
Qed.

(** ** Loops over the matches of a pattern *)

Section ExecLoop.
Context {A : Type} (re : RegExp) (text : jsstring) (f : MatchResult -> A).
Hypothesis Hmin : (1 <= min_length (source re))%nat.

Lemma exec_push_step st st' :
  exec_push re text f st = Some st' ->
  exists m, exec re text st.1 = Some m /\ st' = (end_index m, st.2 ++ [f m])
            /\ (st.1 <= index m < end_index m)%nat /\ (end_index m <= length text)%nat.
Proof.
  unfold exec_push. destruct (exec re text st.1) as [m|] eqn:He; [|discriminate].
  intros H; inversion H; subst. exists m.
  apply exec_range in He as Hr. destruct Hr as (H1 & H2 & H3 & _).
  repeat split; auto; lia.
Qed.

Lemma exec_push_total fuel st :
  (length text + 2 <= fuel)%nat ->
  exists r, while fuel (exec_push re text f) st = Some r.
Proof.
  intros Hf.
  apply (while_total _ (fun _ => True) (fun st => (S (length text) - st.1)%nat));
    [|exact I|lia].
  intros s s' _ Hs. split; [exact I|].
  apply exec_push_step in Hs as (m & _ & -> & ? & ?). simpl. lia.
Qed.

Lemma exec_push_inv (I : nat * list A -> Prop) fuel st r :
  (forall st m, I st -> exec re text st.1 = Some m ->
                (st.1 <= index m < end_index m)%nat -> (end_index m <= length text)%nat ->
                I (end_index m, st.2 ++ [f m])) ->
  I st -> while fuel (exec_push re text f) st = Some r ->
  I r /\ exec re text r.1 = None.
Proof.
  intros Hstep Hst Hw.
  apply (while_inv _ I) in Hw as [Hr Hb]; [| |exact Hst].
  - split; [exact Hr|]. unfold exec_push in Hb.
    destruct (exec re text r.1); [discriminate|reflexivity].
  - intros s s' Hs Hb. apply exec_push_step in Hb as (m & He & -> & ? & ?).
    apply Hstep; auto.
Qed.
End ExecLoop.

Lemma laid_out_snoc bound l m bound' :
  laid_out bound l -> bound <= start m -> span_ok m -> end_ m <= bound' ->
  laid_out bound' (l ++ [m]).
Proof.
  intros [Hs Hf] Hb Hm He. split.
  - apply StronglySorted_app; repeat split; [|exact Hs|repeat constructor].
    intros a b Ha Hb'. apply list_elem_of_singleton in Hb' as ->.
    apply (proj1 (Forall_forall _ _) Hf) in Ha as [_ ?]. lia.
  - apply Forall_app; split.
    + eapply Forall_impl; [exact Hf|]. unfold span_ok in *. intros a [? ?]. split; [auto|lia].
    + apply Forall_singleton. split; [exact Hm|exact He].
Qed.

Lemma laid_out_sorted bound l : laid_out bound l -> StronglySorted start_le l.
Proof.
  intros [Hs Hf]. induction Hs as [|a l Hl IH Ha]; [constructor|].
  apply Forall_cons in Hf as [[Hok _] Hf].
  constructor; [auto|].
  eapply Forall_impl; [exact Ha|]. unfold start_le, span_ok in *. intros; lia.
Qed.

Lemma laid_out_lookup bound l i j a b :
  laid_out bound l -> (i < j)%nat -> l !! i = Some a -> l !! j = Some b ->
  start a < start b.
Proof.
  intros [Hs Hf]. revert i j. induction Hs as [|x l Hl IH Hx]; intros i j Hij Ha Hb.
  - rewrite lookup_nil in Ha; discriminate.
  - apply Forall_cons in Hf as [[Hok _] Hf].
    destruct j as [|j]; [lia|]. simpl in Hb. destruct i as [|i]; simpl in Ha.
    + inversion Ha; subst.
      assert (Hin : b ∈ l) by (eapply list_elem_of_lookup_2; eauto).
      apply (proj1 (Forall_forall _ _) Hx) in Hin. unfold span_ok in Hok. lia.
    + apply (IH Hf i j); auto; lia.
Qed.

(** ** The local detector *)

Lemma PII_PATTERNS_consume :
  Forall (fun p => (1 <= min_length (source (pattern_regex p)))%nat) PII_PATTERNS.
Proof. repeat constructor; vm_compute; lia. Qed.

Lemma detected_span text pattern lastIndex m :
  exec (pattern_regex pattern) text lastIndex = Some m ->
  (index m < end_index m)%nat ->
  span_ok (detected pattern m) /\ end_ (detected pattern m) = Z.of_nat (end_index m).
Proof.
  intros He Hlt. unfold span_ok, detected; simpl.
  rewrite (exec_matched_length _ _ _ _ He). lia.
Qed.

Lemma tagged_span text lastIndex m :
  exec tagPattern text lastIndex = Some m ->
  (index m < end_index m)%nat ->
  span_ok (tagged m) /\ end_ (tagged m) = Z.of_nat (end_index m).
Proof.
  intros He Hlt. unfold span_ok, tagged; simpl.
  rewrite (exec_matched_length _ _ _ _ He). lia.
Qed.

Lemma detectPII_total text : exists r, detectPII (length text + 2) text = Some r.
Proof.
  unfold detectPII.
  destruct (for_of_total
              (fun pattern matches =>
                 snd <$> while (length text + 2) (detect_body text pattern) (O, matches))
              (fun _ => True) PII_PATTERNS []) as (r & -> & _); [|exact I|simpl; eauto].
  intros p s Hp _. 
  pose proof (proj1 (Forall_forall _ _) PII_PATTERNS_consume p Hp) as Hmin.
  destruct (exec_push_total (pattern_regex p) text (detected p) Hmin (length text + 2) (O, s))
    as [r Hr]; [lia|].
  unfold detect_body. rewrite Hr. simpl. eauto.
Qed.

(** The array before the final sort. *)
Lemma detect_loops_spans_ok fuel text found :
  for_of PII_PATTERNS
    (fun pattern matches => snd <$> while fuel (detect_body text pattern) (O, matches)) []
  = Some found ->
  Forall span_ok found.
Proof.
  apply (for_of_inv _ (Forall span_ok)); [|constructor].
  intros p s s' Hp Hs Hw.
  pose proof (proj1 (Forall_forall _ _) PII_PATTERNS_consume p Hp) as Hmin.
  destruct (while fuel (detect_body text p) (O, s)) as [st|] eqn:Hst; [|discriminate].
  simpl in Hw. inversion Hw; subst s'.
  apply (exec_push_inv _ _ _ Hmin (fun st => Forall span_ok st.2)) in Hst as [Hr _]; auto.
  intros st0 m H0 He Hi _. simpl. apply Forall_app; split; [exact H0|].
  apply Forall_singleton. eapply detected_span; [exact He|lia].
Qed.

(** ** The map-driven scan *)

Section Scan.
Variables cleanText original replacement : jsstring.

Lemma scan_body_Some st st' :
  scan_body cleanText original replacement st = Some st' ->
  let index := indexOf cleanText replacement (searchIndex st) in
  searchIndex st < len cleanText /\ index <> -1
  /\ ((posKey index (index + len replacement) ∈ processedPositions st
       /\ st' = mkScan (index + 1) (matches st) (processedPositions st))
      \/ ((posKey index (index + len replacement) ∉ processedPositions st)
          /\ st' = mkScan (index + len replacement)
                     (matches st ++ [accepted original replacement index])
                     ({[ posKey index (index + len replacement) ]} ∪ processedPositions st))).
Proof.
  unfold scan_body.
  destruct (searchIndex st <? len cleanText) eqn:Hg; [|discriminate].
  apply Z.ltb_lt in Hg.
  destruct (indexOf cleanText replacement (searchIndex st) =? -1) eqn:Hi; [discriminate|].
  apply Z.eqb_neq in Hi.
  destruct (decide _) as [Hin|Hin]; intros H; inversion H; subst; clear H; simpl;
    (split; [exact Hg|split; [exact Hi|]]); [left|right]; auto.
Qed.

Lemma index_in_range st :
  0 <= searchIndex st < len cleanText ->
  indexOf cleanText replacement (searchIndex st) <> -1 ->
  searchIndex st <= indexOf cleanText replacement (searchIndex st)
  /\ indexOf cleanText replacement (searchIndex st) + len replacement <= len cleanText.
Proof.
  intros Hs Hi. destruct (indexOf_range _ _ _ _ eq_refl Hi) as [H1 H2].
  unfold clamp_position in H1. split; [lia|exact H2].
Qed.

Lemma index_of_empty_token st :
  0 <= searchIndex st < len cleanText -> len replacement = 0 ->
  indexOf cleanText replacement (searchIndex st) = searchIndex st.
Proof.
  intros Hs Hl. assert (replacement = []) as ->.
  { destruct replacement; [reflexivity|]. unfold len in Hl. simpl in Hl. lia. }
  rewrite indexOf_empty. unfold clamp_position. lia.
Qed.

(** One iteration never moves the search index backwards. *)
Lemma scan_body_monotone st st' :
  0 <= searchIndex st ->
  scan_body cleanText original replacement st = Some st' ->
  searchIndex st <= searchIndex st'.
Proof.
  intros H0 H. apply scan_body_Some in H as (Hg & Hi & Hc).
  destruct (index_in_range st) as [H1 H2]; [lia|exact Hi|].
  pose proof (len_nonneg replacement).
  destruct Hc as [[_ ->]|[_ ->]]; simpl; lia.
Qed.

(** Over two consecutive iterations the search index grows. *)
Lemma scan_body_twice st st1 st2 :
  0 <= searchIndex st ->
  scan_body cleanText original replacement st = Some st1 ->
  scan_body cleanText original replacement st1 = Some st2 ->
  searchIndex st < searchIndex st2.
Proof.
  intros H0 Hst1 Hst2.
  pose proof (scan_body_monotone _ _ H0 Hst1) as Hm1.
  assert (H01 : 0 <= searchIndex st1) by lia.
  pose proof (scan_body_monotone _ _ H01 Hst2) as Hm2.
  apply scan_body_Some in Hst1 as (Hg & Hi & Hc).
  destruct (index_in_range st) as [H1 H2]; [lia|exact Hi|].
  pose proof (len_nonneg replacement) as Hr.
  destruct Hc as [[_ Hst1]|[Hnew Hst1]].
  { rewrite Hst1 in Hm2. cbn [searchIndex] in Hm2. lia. }
  destruct (decide (len replacement = 0)) as [Hz|Hz].
  2:{ rewrite Hst1 in Hm2. cbn [searchIndex] in Hm2. lia. }
  assert (Hsame : indexOf cleanText replacement (searchIndex st) = searchIndex st).
  { apply index_of_empty_token; [lia|exact Hz]. }
  rewrite Hsame, Hz, Z.add_0_r in Hst1, Hnew.
  apply scan_body_Some in Hst2 as (Hg2 & Hi2 & Hc2).
  rewrite Hst1 in Hc2. cbn [searchIndex processedPositions matches] in Hc2.
  rewrite Hsame, Hz, Z.add_0_r in Hc2.
  destruct Hc2 as [[_ ->]|[Hnew2 _]]; [cbn [searchIndex]; lia|].
  exfalso. apply Hnew2. apply elem_of_union. left. apply elem_of_singleton. reflexivity.
Qed.

Lemma scan_body_decreases st st' :
  0 <= searchIndex st ->
  scan_body cleanText original replacement st = Some st' ->
  (scan_measure cleanText replacement st' < scan_measure cleanText replacement st)%nat.
Proof.
  intros H0 H. apply scan_body_Some in H as (Hg & Hi & Hc).
  destruct (index_in_range st) as [H1 H2]; [lia|exact Hi|].
  pose proof (len_nonneg replacement) as Hr.
  unfold scan_measure.
  destruct Hc as [[_ ->]|[Hnew ->]]; simpl.
  - repeat destruct (decide _); lia.
  - destruct (decide (len replacement = 0)) as [Hz|Hz].
    + rewrite index_of_empty_token in * by (auto; lia).
      rewrite Hz, !Z.add_0_r in *.
      destruct (decide (_ ∈ processedPositions st)) as [Hin|_]; [contradiction|].
      destruct (decide _) as [_|Hout]; [lia|].
      exfalso. apply Hout. apply elem_of_union. left. apply elem_of_singleton. reflexivity.
    + repeat destruct (decide _); lia.
Qed.

Lemma scan_body_inv st st' :
  scan_inv cleanText st -> 0 <= searchIndex st ->
  scan_body cleanText original replacement st = Some st' ->
  scan_inv cleanText st'.
Proof.
  intros (Hp & Hk & Hn) H0 H. apply scan_body_Some in H as (Hg & Hi & Hc).
  destruct (index_in_range st) as [H1 H2]; [lia|exact Hi|].
  destruct Hc as [[_ ->]|[Hnew ->]]; [split; [|split]; assumption|].
  set (index := indexOf cleanText replacement (searchIndex st)) in *.
  split; [|split]; simpl.
  - apply Forall_app; split; [exact Hp|]. apply Forall_singleton.
    unfold placed, accepted; simpl. lia.
  - intros m Hm. apply elem_of_app in Hm as [Hm|Hm].
    + apply elem_of_union. right. apply Hk, Hm.
    + apply list_elem_of_singleton in Hm as ->.
      apply elem_of_union. left. apply elem_of_singleton. reflexivity.
  - rewrite fmap_app. apply NoDup_app. split; [exact Hn|]. split; [|apply NoDup_singleton].
    intros k Hk1 Hk2. simpl in Hk2. apply list_elem_of_singleton in Hk2. subst k.
    apply list_elem_of_fmap in Hk1 as (m & Hkm & Hm).
    apply Hnew. unfold key_of, accepted in Hkm; simpl in Hkm. rewrite Hkm. apply Hk, Hm.
Qed.

Lemma scan_entry_inv fuel st st' :
  scan_inv cleanText st ->
  scan_entry fuel cleanText (original, replacement) st = Some st' ->
  scan_inv cleanText st'.
Proof.
  intros Hinv H. unfold scan_entry in H. simpl in H.
  apply (while_inv _ (fun s => scan_inv cleanText s /\ 0 <= searchIndex s)) in H
    as [[Hr _] _]; [exact Hr| |].
  - intros s s' [Hs H0] Hb. split; [eapply scan_body_inv; eauto|].
    pose proof (scan_body_monotone _ _ H0 Hb). lia.
  - split; [exact Hinv|simpl; lia].
Qed.

Lemma scan_entry_total fuel st :
  (2 * length cleanText + 2 <= fuel)%nat ->
  exists st', scan_entry fuel cleanText (original, replacement) st = Some st'.
Proof.
  intros Hf. unfold scan_entry. simpl.
  apply (while_total _ (fun s => 0 <= searchIndex s) (scan_measure cleanText replacement)).
  - intros s s' H0 Hb. split; [|apply scan_body_decreases; assumption].
    pose proof (scan_body_monotone _ _ H0 Hb). lia.
  - simpl; lia.
  - unfold scan_measure, len; simpl. destruct (decide _); lia.
Qed.
End Scan.

(** ** The reconciler *)

Lemma tagPattern_consumes : (1 <= min_length (source tagPattern))%nat.
Proof. vm_compute. lia. Qed.

Lemma tag_loop_total fuel cleanText :
  (length cleanText + 2 <= fuel)%nat ->
  exists st, while fuel (tag_body cleanText) (O, []) = Some st.
Proof. intros Hf. apply exec_push_total; [exact tagPattern_consumes|exact Hf]. Qed.

Lemma tagged_placed cleanText lastIndex m :
  exec tagPattern cleanText lastIndex = Some m ->
  (index m < end_index m)%nat -> (end_index m <= length cleanText)%nat ->
  placed cleanText (tagged m).
Proof.
  intros He Hlt Hle. unfold placed, tagged; simpl.
  rewrite (exec_matched_length _ _ _ _ He). unfold len. lia.
Qed.

(** The tags found by the tag-driven scan lie one after the other. *)
Lemma tag_loop_laid_out fuel cleanText st :
  while fuel (tag_body cleanText) (O, []) = Some st ->
  laid_out (Z.of_nat st.1) st.2 /\ Forall (placed cleanText) st.2
  /\ exec tagPattern cleanText st.1 = None.
Proof.
  intros Hw.
  apply (exec_push_inv _ _ _ tagPattern_consumes
           (fun st => laid_out (Z.of_nat st.1) st.2 /\ Forall (placed cleanText) st.2))
    in Hw as [[H1 H2] H3]; [auto| |].
  - intros s m [Hl Hp] He Hi Hb. simpl.
    destruct (tagged_span _ _ _ He ltac:(lia)) as [Hok Hend].
    split.
    + eapply laid_out_snoc; [exact Hl| |exact Hok|lia]. simpl. lia.
    + apply Forall_app; split; [exact Hp|]. apply Forall_singleton.
      eapply tagged_placed; eauto. lia.
  - simpl. split; [split; constructor|constructor].
Qed.

Lemma laid_out_distinct bound l : laid_out bound l -> NoDup (range_of <$> l).
Proof.
  intros Hl. apply NoDup_alt. intros i j x Hi Hj.
  rewrite list_lookup_fmap in Hi, Hj.
  destruct (l !! i) as [a|] eqn:Ha; [|discriminate].
  destruct (l !! j) as [b|] eqn:Hb; [|discriminate].
  simpl in *. assert (Hsame : start a = start b).
  { unfold range_of in *. congruence. }
  destruct (Nat.lt_trichotomy i j) as [Hlt|[Heq|Hgt]]; [|exact Heq|].
  - pose proof (laid_out_lookup _ _ _ _ _ _ Hl Hlt Ha Hb). lia.
  - pose proof (laid_out_lookup _ _ _ _ _ _ Hl Hgt Hb Ha). lia.
Qed.

Lemma keys_distinct l : NoDup (key_of <$> l) -> NoDup (range_of <$> l).
Proof.
  intros H. apply (NoDup_fmap_1 (fun r : Z * Z => posKey r.1 r.2)).
  rewrite <- list_fmap_compose. exact H.
Qed.

(** The array [matches] before post-processing. *)
Lemma convert_found fuel originalText cleanText items syntheticMap r :
  convertBackendResponseToMatches fuel originalText cleanText items syntheticMap = Some r ->
  exists found,
    r = filter_indexed differs_from_previous (sort by_start found)
    /\ Forall (placed cleanText) found
    /\ NoDup (range_of <$> found)
    /\ (no_entries syntheticMap ->
        exists lastIndex, while fuel (tag_body cleanText) (O, []) = Some (lastIndex, found)).
Proof.
  unfold convertBackendResponseToMatches.
  assert (HB : forall o : option (nat * list PIIMatch),
             o = while fuel (tag_body cleanText) (O, []) ->
             (snd <$> o) ≫= (fun found =>
                Some (filter_indexed differs_from_previous (sort by_start found))) = Some r ->
             exists found,
               r = filter_indexed differs_from_previous (sort by_start found)
               /\ Forall (placed cleanText) found
               /\ NoDup (range_of <$> found)
               /\ exists lastIndex,
                    while fuel (tag_body cleanText) (O, []) = Some (lastIndex, found)).
  { intros [[li found]|] Ho H; [|discriminate]. simpl in H. inversion H; subst r.
    symmetry in Ho. destruct (tag_loop_laid_out _ _ _ Ho) as (Hl & Hp & _). simpl in *.
    exists found. repeat split; auto.
    - eapply laid_out_distinct; eauto.
    - exists li. exact Ho. }
  destruct syntheticMap as [[|entry entries]|].
  - intros H. destruct (HB _ eq_refl H) as (found & ? & ? & ? & ?).
    exists found. repeat split; auto.
  - destruct (for_of (entry :: entries) (scan_entry fuel cleanText) _) as [st|] eqn:Hf;
      [|discriminate].
    simpl. intros H; inversion H; subst r. exists (matches st).
    apply (for_of_inv _ (scan_inv cleanText)) in Hf as (Hp & _ & Hn).
    + repeat split; auto using keys_distinct.
      intros [Hx|Hx]; discriminate.
    + intros [o t] s s' _ Hs Hb. eapply scan_entry_inv; eauto.
    + split; [constructor|split; [|constructor]]. intros m Hm. inversion Hm.
  - intros H. destruct (HB _ eq_refl H) as (found & ? & ? & ? & ?).
    exists found. repeat split; auto.
Qed.

Lemma convert_total originalText cleanText items syntheticMap :
  exists r, convertBackendResponseToMatches (reconcile_fuel cleanText)
              originalText cleanText items syntheticMap = Some r.
Proof.
  unfold convertBackendResponseToMatches, reconcile_fuel.
  assert (HB : exists st, while (2 * length cleanText + 2) (tag_body cleanText) (O, [])
                          = Some st).
  { apply tag_loop_total. lia. }
  destruct HB as [st HB].
  destruct syntheticMap as [[|entry entries]|].
  - rewrite HB. simpl. eauto.
  - destruct (for_of_total (scan_entry (2 * length cleanText + 2) cleanText)
                (fun _ => True) (entry :: entries)
                {| searchIndex := 0; matches := []; processedPositions := ∅ |})
      as (r & Hr & _); [|exact I|].
    + intros [o t] s _ _. destruct (scan_entry_total cleanText o t _ s (Nat.le_refl _)) as [s' Hs'].
      exists s'. split; [exact Hs'|exact I].
    + rewrite Hr. simpl. eauto.
  - rewrite HB. simpl. eauto.
Qed.

Lemma post_processing_keeps (P : PIIMatch -> Prop) found :
  Forall P found -> Forall P (filter_indexed differs_from_previous (sort by_start found)).
Proof.
  intros H. apply Forall_forall. intros m Hm.
  eapply elem_of_sublist in Hm; [|apply filter_indexed_sublist].
  rewrite sort_Permutation in Hm. eapply (proj1 (Forall_forall _ _) H); eauto.
Qed.

Lemma post_processing_sorted found :
  StronglySorted start_le (filter_indexed differs_from_previous (sort by_start found)).
Proof.
  eapply StronglySorted_sublist; [apply filter_indexed_sublist|apply sort_by_start_sorted].
Qed.

Lemma post_processing_distinct found :
  NoDup (range_of <$> found) ->
  NoDup (range_of <$> filter_indexed differs_from_previous (sort by_start found)).
Proof.
  intros H. apply (sublist_NoDup _ (range_of <$> sort by_start found)).
  - rewrite sort_Permutation. exact H.
  - apply fmap_sublist, filter_indexed_sublist.
Qed.

Lemma NoDup_distinct_ranges l : NoDup (range_of <$> l) -> distinct_ranges l.
Proof.
  intros H i j a b Ha Hb Hij [Hs He]. apply Hij.
  eapply (NoDup_lookup _ i j (range_of a) H); rewrite list_lookup_fmap.
  - rewrite Ha. reflexivity.
  - rewrite Hb. simpl. unfold range_of. rewrite Hs, He. reflexivity.
Qed.

(** ** Occurrences and replacement *)

Lemma occurs_in_indexOf pattern s : occurs_in pattern s <-> indexOf s pattern 0 <> -1.
Proof.
  split.
  - intros (before & after & ->) Hi. unfold indexOf in Hi.
    replace (Z.to_nat (Z.min (Z.max 0 0) (len (before ++ pattern ++ after)))) with O in Hi
      by (pose proof (len_nonneg (before ++ pattern ++ after)); lia).
    rewrite drop_0 in Hi.
    destruct (find_from pattern (before ++ pattern ++ after) 0) as [k|] eqn:Hf; [lia|].
    apply (find_from_none _ _ _ (length before)) in Hf; [|rewrite length_app; lia].
    rewrite drop_app_length in Hf.
    assert (Ht : starts_with pattern (pattern ++ after) = true).
    { apply starts_with_spec. apply take_app_length. }
    congruence.
  - intros Hi. pose proof (indexOf_occurrence _ _ _ _ eq_refl Hi) as Ho.
    pose proof (indexOf_range _ _ _ _ eq_refl Hi) as [Hlo Hhi].
    set (i := indexOf s pattern 0) in *.
    unfold clamp_position in Hlo. pose proof (len_nonneg s). pose proof (len_nonneg pattern).
    rewrite slice_in_range in Ho by lia.
    remember (Z.to_nat (i + len pattern - i)) as n eqn:Hn. clear Hn.
    exists (take (Z.to_nat i) s), (drop n (drop (Z.to_nat i) s)).
    rewrite <- Ho at 1. rewrite take_drop, take_drop. reflexivity.
Qed.

Lemma replace_absent s pattern replacement :
  ~ occurs_in pattern s -> replace s pattern replacement = s.
Proof.
  intros H. unfold replace.
  destruct (indexOf s pattern 0 =? -1) eqn:Hi; [reflexivity|].
  apply Z.eqb_neq in Hi. exfalso. apply H, occurs_in_indexOf, Hi.
Qed.

Lemma normalizeEntityType_rules entityType :
  normalizeEntityType entityType
  = foldl (fun s rule => replace s rule.1 rule.2) entityType rewrite_rules.
Proof. unfold normalizeEntityType, rewrite_rules. cbn [foldl fst snd]. reflexivity. Qed.

(** ** The segmenter *)

Section Segmenter.
Variables (text : jsstring) (spans : list PIIMatch).

Lemma tiles_app a ps b qs c :
  tiles text spans a ps b -> tiles text spans b qs c -> tiles text spans a (ps ++ qs) c.
Proof.
  induction 1 as [x|x y key rs z Hxy Hrs IH|i m rs z Hm Hrs IH]; intros Hq; simpl.
  - exact Hq.
  - apply tiles_plain; auto.
  - apply tiles_redacted; auto.
Qed.

Lemma slice_split a b c :
  0 <= a -> a <= b -> b <= c -> c <= len text ->
  slice text a b ++ slice text b c = slice text a c.
Proof.
  intros Ha Hab Hbc Hc. rewrite !slice_in_range by lia.
  replace (drop (Z.to_nat b) text)
    with (drop (Z.to_nat (b - a)) (drop (Z.to_nat a) text))
    by (rewrite drop_drop; f_equal; lia).
  rewrite take_take_drop. f_equal. lia.
Qed.

Lemma slice_all : slice text 0 (len text) = text.
Proof.
  pose proof (len_nonneg text). rewrite slice_in_range by lia.
  simpl. rewrite drop_0. apply take_ge. unfold len. lia.
Qed.

Hypothesis Hbounds : Forall (fun m => 0 <= start m <= end_ m /\ end_ m <= len text) spans.

Lemma tiles_le a ps b : tiles text spans a ps b -> a <= b.
Proof.
  induction 1 as [x|x y key rs z Hxy Hrs IH|i m rs z Hm Hrs IH]; [lia|lia|].
  apply list_elem_of_lookup_2 in Hm.
  apply (proj1 (Forall_forall _ _) Hbounds) in Hm. lia.
Qed.

Lemma tiles_range a ps b :
  tiles text spans a ps b -> 0 <= a -> b <= len text ->
  concat (covered text spans <$> ps) = slice text a b.
Proof.
  induction 1 as [x|x y key rs z Hxy Hrs IH|i m rs z Hm Hrs IH]; intros Ha Hc.
  - rewrite slice_in_range by lia.
    replace (Z.to_nat (x - x)) with O by lia. reflexivity.
  - pose proof (tiles_le _ _ _ Hrs) as Hyz.
    rewrite fmap_cons. cbn [concat covered].
    rewrite IH by lia. apply slice_split; lia.
  - pose proof (tiles_le _ _ _ Hrs) as Hyz.
    pose proof Hm as Hin. apply list_elem_of_lookup_2 in Hin.
    apply (proj1 (Forall_forall _ _) Hbounds) in Hin.
    rewrite fmap_cons. cbn [concat covered].
    rewrite Hm, IH by lia. apply slice_split; lia.
Qed.
End Segmenter.

(** The state of the walk after the spans with indices below [i]: the
    parts tile the text up to [lastIndex], which is where the span before
    ended, and the redacted parts are those of the spans walked. *)
Lemma forEach_tiles text (spans : list PIIMatch) :
  segmentable text spans ->
  forall rest i pre parts lastIndex,
    spans = pre ++ rest -> length pre = i ->
    tiles text spans 0 parts lastIndex ->
    filter is_redacted parts
      = imap (fun k m => RedactedPart (KeyRedacted k) (replacement m)) pre ->
    0 <= lastIndex <= len text ->
    (forall m, rest !! O = Some m -> lastIndex <= start m) ->
    let st := forEach_indexed (render_match text) i rest (parts, lastIndex) in
    tiles text spans 0 st.1 st.2
    /\ filter is_redacted st.1
       = imap (fun k m => RedactedPart (KeyRedacted k) (replacement m)) spans
    /\ 0 <= st.2 <= len text.
Proof.
  intros (Hb & _ & Hno).
  induction rest as [|m rest IH]; intros i pre parts lastIndex Hsp Hi Ht Hr Hl Hnext; simpl.
  - rewrite app_nil_r in Hsp. subst pre. auto.
  - assert (Hm : spans !! i = Some m).
    { rewrite Hsp, lookup_app_r by lia. replace (i - length pre)%nat with O by lia.
      reflexivity. }
    assert (Hin : 0 <= start m <= end_ m /\ end_ m <= len text).
    { eapply (proj1 (Forall_forall _ _) Hb), list_elem_of_lookup_2; eauto. }
    pose proof (Hnext m eq_refl) as Hle.
    apply (IH (S i) (pre ++ [m])).
    + rewrite <- app_assoc. exact Hsp.
    + rewrite length_app. simpl. lia.
    + unfold render_match; simpl.
      destruct (start m >? lastIndex) eqn:Hgt.
      * apply Z.gtb_lt in Hgt. rewrite <- app_assoc.
        eapply tiles_app; [exact Ht|]. apply tiles_plain; [lia|].
        apply tiles_redacted; [exact Hm|apply tiles_nil].
      * assert (start m = lastIndex) as <-.
        { rewrite Z.gtb_ltb in Hgt. apply Z.ltb_ge in Hgt. lia. }
        eapply tiles_app; [exact Ht|].
        apply tiles_redacted; [exact Hm|apply tiles_nil].
    + unfold render_match; simpl. rewrite imap_app. simpl.
      rewrite Nat.add_0_r, Hi. rewrite <- Hr.
      destruct (start m >? lastIndex); rewrite ?filter_app; simpl;
        rewrite ?filter_cons; simpl; rewrite ?filter_nil, ?app_nil_r; reflexivity.
    + unfold render_match; simpl. lia.
    + unfold render_match; simpl. intros n Hn.
      apply (Hno i m n Hm). rewrite Hsp, lookup_app_r by lia.
      replace (S i - length pre)%nat with 1%nat by lia. exact Hn.
Qed.

(** ** Bracketed tags *)

(** A greedy repetition of a character class, followed by something that
    fails wherever a character of the class comes next: the repetition
    takes the whole run. *)
Lemma repeat_charset_then cs text (c : cont) :
  (forall q cap ch, text !! q = Some ch -> cs ch = true -> c (q, cap) = None) ->
  forall fuel min p cap,
    (min + (length text - p) < fuel)%nat ->
    repeat_matcher (matcher text (CharSet cs)) (reset_groups []) fuel min None (p, cap) c
    = if (min <=? run_length cs (drop p text))%nat
      then c ((p + run_length cs (drop p text))%nat, cap)
      else None.
Proof.
  intros Hc. induction fuel as [|fuel IH]; intros min p cap Hf; [lia|].
  cbn [repeat_matcher max_is_zero matcher fst snd reset_groups foldr].
  destruct (text !! p) as [ch|] eqn:Hp.
  - rewrite (drop_S _ _ _ Hp). cbn [run_length].
    apply lookup_lt_Some in Hp as Hlt.
    destruct (cs ch) eqn:Hcs.
    + replace (S p =? p)%nat with false by (symmetry; apply Nat.eqb_neq; lia).
      rewrite andb_false_r. cbn [dec_max fmap option_fmap option_map].
      rewrite IH by lia.
      replace (p + S (run_length cs (drop (S p) text)))%nat
        with (S p + run_length cs (drop (S p) text))%nat by lia.
      destruct min as [|min]; cbn [Nat.eqb Nat.pred Nat.leb].
      * destruct (c _) as [z|] eqn:Hz; [reflexivity|].
        apply (Hc p cap ch Hp Hcs).
      * reflexivity.
    + destruct min as [|min]; cbn [Nat.eqb Nat.leb]; [|reflexivity].
      rewrite Nat.add_0_r. reflexivity.
  - apply lookup_ge_None in Hp. rewrite drop_ge by lia. cbn [run_length].
    destruct min as [|min]; cbn [Nat.eqb Nat.leb]; [|reflexivity].
    rewrite Nat.add_0_r. reflexivity.
Qed.

Lemma run_length_le cs l : (run_length cs l <= length l)%nat.
Proof. induction l as [|c l IH]; simpl; [lia|]. destruct (cs c); simpl; lia. Qed.

Lemma run_length_all cs l : Forall (fun c => cs c = true) (take (run_length cs l) l).
Proof.
  induction l as [|c l IH]; simpl; [constructor|].
  destruct (cs c) eqn:Hc; simpl; [constructor; auto|constructor].
Qed.

Lemma label_char_not_close ch : label_char ch = true -> (ch =? code ">")%N = false.
Proof.
  intros H. destruct (ch =? code ">")%N eqn:He; [|reflexivity].
  apply N.eqb_eq in He. subst ch. vm_compute in H. discriminate.
Qed.

(** What a tag at the front of [l] looks like. *)
Lemma tag_prefix_Some l label :
  tag_prefix l = Some label ->
  exists rest, l = code "<" :: label ++ code ">" :: rest
               /\ label <> []
               /\ label = take (run_length label_char (tail l)) (tail l)
               /\ Forall (fun c => label_char c = true) label.
Proof.
  destruct l as [|c l']; cbn [tag_prefix tail]; [discriminate|].
  destruct (c =? code "<")%N eqn:Hc; [|discriminate]. apply N.eqb_eq in Hc. subst c.
  destruct (take (run_length label_char l') l') as [|a lab] eqn:Ht; [discriminate|].
  destruct (drop (run_length label_char l') l') as [|d rest] eqn:Hd; [discriminate|].
  destruct (d =? code ">")%N eqn:Hclose; [|discriminate]. apply N.eqb_eq in Hclose. subst d.
  intros H; inversion H; subst label. exists rest.
  split; [|split; [discriminate|split; [reflexivity|]]].
  - rewrite <- Ht, <- Hd, take_drop. reflexivity.
  - rewrite <- Ht. apply run_length_all.
Qed.

Lemma tag_prefix_length l label :
  tag_prefix l = Some label -> length label = run_length label_char (tail l).
Proof.
  intros H. apply tag_prefix_Some in H as (rest & _ & _ & Hl & _).
  rewrite Hl at 1. rewrite length_take. pose proof (run_length_le label_char (tail l)). lia.
Qed.

(** The matcher of the tag pattern, started at offset [i], finds the tag
    that [tag_prefix] sees there, and nothing else. *)
Lemma match_at_tag text i :
  match_at tagPattern text i = tag_state i <$> tag_prefix (drop i text).
Proof.
  unfold match_at, tagPattern.
  cbn [source ngroups seq matcher chr plus fst snd groups_of].
  destruct (text !! i) as [ch|] eqn:Hi.
  2:{ apply lookup_ge_None in Hi. rewrite drop_ge by lia. reflexivity. }
  rewrite (drop_S _ _ _ Hi). cbn [tag_prefix].
  destruct (ch =? code "<")%N; [|reflexivity].
  etransitivity.
  { apply (repeat_charset_then label_char text); [|lia].
    intros q cap c Hq Hc. cbn [fst snd]. rewrite Hq.
    rewrite (label_char_not_close _ Hc). reflexivity. }
  set (l' := drop (S i) text). set (n := run_length label_char l').
  pose proof (run_length_le label_char l') as Hn. fold n in Hn.
  destruct n as [|k] eqn:En.
  - cbn [Nat.leb]. rewrite take_0. reflexivity.
  - cbn [Nat.leb fst snd].
    assert (Hlab : length (take (S k) l') = S k) by (rewrite length_take; lia).
    destruct (take (S k) l') as [|a lab] eqn:Ht; [discriminate|].
    replace (text !! (S i + S k)%nat) with (drop (S k) l' !! O).
    2:{ unfold l'. rewrite lookup_drop, lookup_drop. f_equal. lia. }
    destruct (drop (S k) l') as [|d rest] eqn:Hd; [reflexivity|]. cbn [lookup list_lookup].
    destruct (d =? code ">")%N; [|reflexivity].
    cbn [fmap option_fmap option_map]. unfold tag_state. rewrite Hlab.
    do 2 f_equal. lia.
Qed.

Lemma first_tag_Some pos l p label :
  first_tag pos l = Some (p, label) ->
  (pos <= p)%nat /\ tag_prefix (drop (p - pos) l) = Some label.
Proof.
  revert pos. induction l as [|c l IH]; intros pos; cbn [first_tag].
  - destruct (tag_prefix []) eqn:Ht; [discriminate Ht|discriminate].
  - destruct (tag_prefix (c :: l)) as [lab|] eqn:Ht.
    + intros H; inversion H; subst. replace (p - p)%nat with O by lia. split; [lia|exact Ht].
    + intros H. apply IH in H as [Hle Hp]. split; [lia|].
      replace (p - pos)%nat with (S (p - S pos)) by lia. exact Hp.
Qed.

(** Scanning the start positions from [i] on finds the first tag. *)
Lemma scan_first_tag text n i :
  (i + n)%nat = length text ->
  scan tagPattern text n i
  = (fun occ : nat * jsstring => (occ.1, tag_state occ.1 occ.2)) <$> first_tag i (drop i text).
Proof.
  revert i. induction n as [|n IH]; intros i Hi; cbn [scan]; rewrite match_at_tag.
  - rewrite drop_ge by lia. reflexivity.
  - destruct (text !! i) as [ch|] eqn:Hch; [|apply lookup_ge_None in Hch; lia].
    rewrite (drop_S _ _ _ Hch). cbn [first_tag].
    destruct (tag_prefix (ch :: drop (S i) text)) as [label|]; [reflexivity|].
    cbn [fmap option_fmap option_map]. apply IH. lia.
Qed.

Lemma tag_scan_skip k pos l : tag_scan k pos l = tag_scan O (pos + k) (drop k l).
Proof.
  revert pos l. induction k as [|k IH]; intros pos l.
  - rewrite Nat.add_0_r, drop_0. reflexivity.
  - destruct l as [|c l]; [reflexivity|]. cbn [tag_scan drop].
    rewrite IH. f_equal. lia.
Qed.

(** The occurrences from [pos] on are the first tag and those after it. *)
Lemma tag_scan_first pos l :
  tag_scan O pos l
  = match first_tag pos l with
    | Some (p, label) =>
        (p, label) :: tag_scan O (p + length label + 2) (drop (p - pos + length label + 2) l)
    | None => []
    end.
Proof.
  revert pos. induction l as [|c l IH]; intros pos; cbn [tag_scan first_tag].
  - destruct (tag_prefix []) eqn:Ht; [discriminate Ht|reflexivity].
  - destruct (tag_prefix (c :: l)) as [label|] eqn:Ht.
    + rewrite tag_scan_skip. replace (pos - pos + length label + 2)%nat
        with (S (S (length label))) by lia.
      cbn [drop]. do 2 f_equal. lia.
    + rewrite IH. destruct (first_tag (S pos) l) as [[p label]|] eqn:Hf; [|reflexivity].
      apply first_tag_Some in Hf as [Hle _].
      replace (p - pos + length label + 2)%nat with (S (p - S pos + length label + 2)) by lia.
      reflexivity.
Qed.

Lemma capture_text_tag text p label :
  capture_text text (tag_state p label).2 1%nat = take (length label) (drop (S p) text).
Proof.
  unfold capture_text, tag_state. cbn [snd].
  change (<[1%nat:=Some (S p, (S p + length label)%nat)]> (replicate 2 None))
    with [None; Some (S p, (S p + length label)%nat)].
  cbn [lookup list_lookup]. f_equal. lia.
Qed.

(** The result of [exec] on the tag pattern, and the span pushed for it. *)
Lemma exec_tag text lastIndex :
  (lastIndex <= length text)%nat ->
  match first_tag lastIndex (drop lastIndex text) with
  | Some (p, label) =>
      exists m, exec tagPattern text lastIndex = Some m
                /\ end_index m = (p + length label + 2)%nat
                /\ (end_index m <= length text)%nat
                /\ tagged m = tag_span (p, label)
  | None => exec tagPattern text lastIndex = None
  end.
Proof.
  intros Hle. unfold exec.
  replace (length text <? lastIndex)%nat with false by (symmetry; apply Nat.ltb_ge; lia).
  rewrite scan_first_tag by lia.
  destruct (first_tag lastIndex (drop lastIndex text)) as [[p label]|] eqn:Hf; [|reflexivity].
  cbn [fmap option_fmap option_map fst snd].
  apply first_tag_Some in Hf as [Hp Ht]. rewrite drop_drop in Ht.
  replace (lastIndex + (p - lastIndex))%nat with p in Ht by lia.
  pose proof (tag_prefix_Some _ _ Ht) as (rest & Hd & Hne & _ & _).
  assert (Hlen : (p + length label + 2 <= length text)%nat).
  { assert (Hl : length (drop p text) = length (code "<" :: label ++ code ">" :: rest))
      by (rewrite Hd; reflexivity).
    rewrite length_drop in Hl. cbn [length] in Hl. rewrite length_app in Hl.
    cbn [length] in Hl. lia. }
  pose proof (capture_text_tag text p label) as Hcap.
  unfold tag_state in *. cbn [snd] in Hcap.
  eexists. split; [reflexivity|]. cbn [end_index]. split; [reflexivity|]. split; [exact Hlen|].
  unfold tagged, tag_span.
  cbn [group matched index fst snd]. rewrite Hcap.
  assert (Hg : take (length label) (drop (S p) text) = label).
  { replace (drop (S p) text) with (drop 1 (drop p text))
      by (rewrite drop_drop; f_equal; lia).
    rewrite Hd. cbn [drop]. rewrite drop_0.
    apply take_app_length. }
  assert (Hm : take (p + length label + 2 - p) (drop p text) = js "<" ++ label ++ js ">").
  { rewrite Hd. replace (p + length label + 2 - p)%nat with (S (length label + 1)) by lia.
    cbn [take]. change (js "<" ++ label ++ js ">") with (code "<" :: label ++ [code ">"]).
    f_equal. rewrite take_app_add. reflexivity. }
  rewrite Hg, Hm. f_equal.
  rewrite !len_app. change (len (js "<")) with 1. change (len (js ">")) with 1. lia.
Qed.

(** The tag-driven scan pushes the spans of the occurrences from its
    [lastIndex] on. *)
Lemma tag_loop_from text fuel lastIndex acc :
  (lastIndex <= length text)%nat -> (length text - lastIndex + 2 <= fuel)%nat ->
  exists lastIndex',
    while fuel (tag_body text) (lastIndex, acc)
    = Some (lastIndex', acc ++ (tag_span <$> tag_scan O lastIndex (drop lastIndex text))).
Proof.
  revert lastIndex acc. induction fuel as [|fuel IH]; intros lastIndex acc Hle Hf; [lia|].
  cbn [while]. unfold tag_body at 1, exec_push. cbn [fst snd].
  pose proof (exec_tag text lastIndex Hle) as He. rewrite tag_scan_first.
  destruct (first_tag lastIndex (drop lastIndex text)) as [[p label]|] eqn:Hfirst.
  - destruct He as (m & -> & Hend & Hlen & Htag).
    apply first_tag_Some in Hfirst as [Hp _].
    destruct (IH (end_index m) (acc ++ [tagged m])) as [li' Hw]; [lia|lia|].
    exists li'. rewrite Hw. f_equal. f_equal. rewrite <- app_assoc. f_equal.
    rewrite fmap_cons, Htag, Hend, drop_drop. cbn [app]. do 4 f_equal. lia.
  - rewrite He. exists lastIndex. rewrite app_nil_r. reflexivity.
Qed.

Lemma tag_loop_spans text fuel :
  (length text + 2 <= fuel)%nat ->
  exists lastIndex,
    while fuel (tag_body text) (O, []) = Some (lastIndex, tag_span <$> tag_occurrences text).
Proof.
  intros Hf. destruct (tag_loop_from text fuel O []) as [li H]; [lia|lia|].
  exists li. rewrite H, drop_0. reflexivity.
Qed.

(** After the tag-driven scan the final sort and filter change nothing. *)
Lemma post_processing_laid_out bound found :
  laid_out bound found ->
  filter_indexed differs_from_previous (sort by_start found) = found.
Proof.
  intros Hl. rewrite sort_by_start_id by (eapply laid_out_sorted; eauto).
  apply filter_indexed_keep. intros [|i] x Hx; [reflexivity|]. cbn [differs_from_previous].
  destruct (found !! i) as [prev|] eqn:Hprev; [|reflexivity].
  pose proof (laid_out_lookup _ _ i (S i) prev x Hl ltac:(lia) Hprev Hx) as Hlt.
  replace (start x =? start prev) with false by (symmetry; apply Z.eqb_neq; lia).
  reflexivity.
Qed.

(** Every occurrence listed is a tag of the text at the offset listed. *)
Lemma tag_scan_sound n : forall l pos occ,
  (length l <= n)%nat -> occ ∈ tag_scan O pos l ->
  (pos <= occ.1)%nat /\ tag_prefix (drop (occ.1 - pos) l) = Some occ.2.
Proof.
  induction n as [|n IH]; intros l pos occ Hn Hocc.
  - destruct l; [inversion Hocc|simpl in Hn; lia].
  - rewrite tag_scan_first in Hocc.
    destruct (first_tag pos l) as [[p label]|] eqn:Hf; [|inversion Hocc].
    apply first_tag_Some in Hf as [Hp Ht].
    apply elem_of_cons in Hocc as [->|Hocc]; [split; [exact Hp|exact Ht]|].
    pose proof (tag_prefix_Some _ _ Ht) as (rest & Hd & _).
    assert (Hlen : (p - pos + length label + 2 <= length l)%nat).
    { assert (Hl : length (drop (p - pos) l) = length (code "<" :: label ++ code ">" :: rest))
        by (rewrite Hd; reflexivity).
      rewrite length_drop in Hl. cbn [length] in Hl. rewrite length_app in Hl.
      cbn [length] in Hl. lia. }
    apply IH in Hocc as [Hle Hpre]; [|rewrite length_drop; lia].
    split; [lia|]. rewrite drop_drop in Hpre.
    replace (occ.1 - pos)%nat
      with (p - pos + length label + 2 + (occ.1 - (p + length label + 2)))%nat by lia.
    exact Hpre.
Qed.

Lemma tag_occurrences_sound text :
  Forall (fun occ => tag_at text occ.1 occ.2) (tag_occurrences text).
Proof.
  apply Forall_forall. intros occ Hocc.
  apply (tag_scan_sound (length text)) in Hocc as [_ Ht]; [|lia].
  rewrite Nat.sub_0_r in Ht.
  apply tag_prefix_Some in Ht as (rest & Hd & Hne & _ & Hall).
  split; [exact Hne|]. split; [exact Hall|]. exists rest. rewrite Hd. reflexivity.
Qed.

(** ** The matcher and the declarative reading of patterns *)

Section Semantics.
Variable text : jsstring.

Lemma Matches_range r i j :
  Matches text r i j -> (i <= j)%nat /\ ((i < j)%nat -> (j <= length text)%nat).
Proof.
  induction 1 as [i|cs i ch Hch Hcs|r1 r2 i j k H1 IH1 H2 IH2|r1 r2 i j H IH|r1 r2 i j H IH
                 |r min max i Hd|r min max i j k Hz H1 IH1 Hlt H2 IH2|n r i j H IH|i Hb| |];
    try (split; lia); try exact IH.
  apply lookup_lt_Some in Hch. split; lia.
Qed.

Lemma Matches_min_length r i j : Matches text r i j -> (i + min_length r <= j)%nat.
Proof.
  induction 1 as [i|cs i ch Hch Hcs|r1 r2 i j k H1 IH1 H2 IH2|r1 r2 i j H IH|r1 r2 i j H IH
                 |r min max i Hd|r min max i j k Hz H1 IH1 Hlt H2 IH2|n r i j H IH|i Hb| |];
    cbn [min_length] in *; try lia.
  - destruct Hd as [->| ->]; unfold min_count; [destruct max; simpl; lia|].
    rewrite Nat.min_0_r. lia.
  - assert (min_count min max <= S (min_count (Nat.pred min) (dec_max max)))%nat.
    { destruct max as [[|mx]|]; try discriminate; destruct min; simpl; lia. }
    nia.
Qed.

Lemma repeat_matcher_sound m reset r :
  sound text m r ->
  forall fuel min max x c z,
    repeat_matcher m reset fuel min max x c = Some z ->
    exists y, Matches text (Quant r min max) x.1 y.1 /\ c y = Some z.
Proof.
  intros Hm. induction fuel as [|fuel IH]; intros min max x c z H; cbn [repeat_matcher] in H.
  - discriminate.
  - destruct (max_is_zero max) eqn:Hz.
    + exists x. split; [|exact H]. apply Matches_Quant_done.
      destruct max as [[|?]|]; try discriminate. auto.
    + assert (Hmore : forall y,
                Matches text r x.1 y.1 ->
                (if (min =? 0)%nat && (y.1 =? x.1)%nat then None
                 else repeat_matcher m reset fuel (Nat.pred min) (dec_max max) y c) = Some z ->
                exists y', Matches text (Quant r min max) x.1 y'.1 /\ c y' = Some z).
      { intros y Hy Hd.
        destruct ((min =? 0)%nat && (y.1 =? x.1)%nat) eqn:Hc; [discriminate|].
        apply IH in Hd as (y' & Hq & Hc').
        exists y'. split; [|exact Hc'].
        eapply Matches_Quant_more; [exact Hz|exact Hy| |exact Hq].
        intros ->. cbn [Nat.eqb andb] in Hc. apply Nat.eqb_neq in Hc.
        apply Matches_range in Hy as [? _]. lia. }
      destruct (min =? 0)%nat eqn:Hmin.
      * destruct (m (x.1, reset x.2) _) as [z'|] eqn:Hmx in H.
        -- inversion H; subst z'. apply Hm in Hmx as (y & Hy & Hd). cbn [fst] in Hy.
           exact (Hmore y Hy Hd).
        -- exists x. split; [|exact H]. apply Matches_Quant_done. left.
           apply Nat.eqb_eq, Hmin.
      * apply Hm in H as (y & Hy & Hd). cbn [fst] in Hy.
        exact (Hmore y Hy Hd).
Qed.

Lemma matcher_sound r : sound text (matcher text r) r.
Proof.
  induction r as [|cs|r1 IH1 r2 IH2|r1 IH1 r2 IH2|r IH min max|n r IH| | |];
    intros x c z H; cbn [matcher] in H.
  - exists x. split; [constructor|exact H].
  - destruct (text !! x.1) as [ch|] eqn:Hch; [|discriminate].
    destruct (cs ch) eqn:Hcs; [|discriminate].
    exists (S x.1, x.2). split; [econstructor; eauto|exact H].
  - apply IH1 in H as (y & Hy & H). apply IH2 in H as (y' & Hy' & H).
    exists y'. split; [econstructor; eauto|exact H].
  - destruct (matcher text r1 x c) as [z'|] eqn:H1.
    + inversion H; subst z'. apply IH1 in H1 as (y & ? & ?).
      exists y. split; [apply Matches_Alt_l; auto|auto].
    + apply IH2 in H as (y & ? & ?). exists y. split; [apply Matches_Alt_r; auto|auto].
  - eapply repeat_matcher_sound; eauto.
  - apply IH in H as (y & Hy & H).
    exists (y.1, <[n := Some (x.1, y.1)]> y.2). split; [constructor; exact Hy|exact H].
  - destruct (at_word_boundary text x.1) eqn:Hb; [|discriminate].
    exists x. split; [constructor; exact Hb|exact H].
  - destruct (x.1 =? 0)%nat eqn:H0; [|discriminate]. apply Nat.eqb_eq in H0.
    exists x. rewrite H0. split; [constructor|exact H].
  - destruct (x.1 =? length text)%nat eqn:H0; [|discriminate]. apply Nat.eqb_eq in H0.
    exists x. rewrite H0. split; [constructor|exact H].
Qed.

Lemma repeat_matcher_monotone m reset :
  monotone m ->
  forall fuel fuel' min max x c c',
    (fuel <= fuel')%nat -> succeeds_more c c' ->
    repeat_matcher m reset fuel min max x c <> None ->
    repeat_matcher m reset fuel' min max x c' <> None.
Proof.
  intros Hm. induction fuel as [|fuel IH]; intros fuel' min max x c c' Hle Hc H;
    cbn [repeat_matcher] in H; [congruence|].
  destruct fuel' as [|fuel']; [lia|]. cbn [repeat_matcher].
  destruct (max_is_zero max); [apply Hc, H|].
  set (d := fun y : state =>
              if (min =? 0)%nat && (y.1 =? x.1)%nat then None
              else repeat_matcher m reset fuel (Nat.pred min) (dec_max max) y c) in *.
  set (d' := fun y : state =>
               if (min =? 0)%nat && (y.1 =? x.1)%nat then None
               else repeat_matcher m reset fuel' (Nat.pred min) (dec_max max) y c').
  assert (Hd : succeeds_more d d').
  { intros y. unfold d, d'. destruct ((min =? 0)%nat && (y.1 =? x.1)%nat); [auto|].
    apply IH; [lia|exact Hc]. }
  destruct (min =? 0)%nat.
  - destruct (m (x.1, reset x.2) d) as [z|] eqn:Hmd.
    + assert (Hmd' : m (x.1, reset x.2) d' <> None)
        by (apply (Hm _ d d' Hd); congruence).
      destruct (m (x.1, reset x.2) d'); congruence.
    + destruct (m (x.1, reset x.2) d'); [congruence|]. apply Hc, H.
  - apply (Hm _ d d' Hd), H.
Qed.

Lemma matcher_monotone r : monotone (matcher text r).
Proof.
  induction r as [|cs|r1 IH1 r2 IH2|r1 IH1 r2 IH2|r IH min max|n r IH| | |];
    intros x c c' Hc H; cbn [matcher] in *.
  - apply Hc, H.
  - destruct (text !! x.1) as [ch|]; [|congruence].
    destruct (cs ch); [apply Hc, H|congruence].
  - eapply IH1; [|exact H]. intros y. apply IH2, Hc.
  - destruct (matcher text r1 x c) as [z|] eqn:H1.
    + assert (H1' : matcher text r1 x c' <> None) by (apply (IH1 x c c' Hc); congruence).
      destruct (matcher text r1 x c'); congruence.
    + destruct (matcher text r1 x c'); [congruence|]. eapply IH2; eauto.
  - eapply repeat_matcher_monotone; eauto.
  - eapply IH; [|exact H]. intros y. apply Hc.
  - destruct (at_word_boundary text x.1); [apply Hc, H|congruence].
  - destruct (x.1 =? 0)%nat; [apply Hc, H|congruence].
  - destruct (x.1 =? length text)%nat; [apply Hc, H|congruence].
Qed.

(** Completeness: where the pattern matches up to an offset at which the
    continuation succeeds, the matcher succeeds. *)
Lemma matcher_complete r i j :
  Matches text r i j ->
  forall cap c, (forall cap', c (j, cap') <> None) -> matcher text r (i, cap) c <> None.
Proof.
  induction 1 as [i|cs i ch Hch Hcs|r1 r2 i j k H1 IH1 H2 IH2|r1 r2 i j H IH|r1 r2 i j H IH
                 |r min max i Hd|r min max i j k Hz H1 IH1 Hlt H2 IH2|n r i j H IH|i Hb| |];
    intros cap c Hc; cbn [matcher fst snd].
  - apply Hc.
  - rewrite Hch, Hcs. apply Hc.
  - apply IH1. intros cap'. apply IH2, Hc.
  - pose proof (IH cap c Hc). destruct (matcher text r1 (i, cap) c); congruence.
  - destruct (matcher text r1 (i, cap) c); [congruence|]. apply IH, Hc.
  - cbn [repeat_matcher fst snd]. destruct (max_is_zero max) eqn:Hz; [apply Hc|].
    destruct Hd as [->| ->]; [|discriminate]. cbn [Nat.eqb].
    destruct (matcher text r _ _); [congruence|apply Hc].
  - cbn [repeat_matcher fst snd]. rewrite Hz.
    set (d := fun y : state => _).
    assert (Hd : forall cap', d (j, cap') <> None).
    { intros cap'. unfold d. cbn [fst].
      replace ((min =? 0)%nat && (j =? i)%nat) with false.
      2:{ symmetry. apply andb_false_iff. destruct min; [right|left; reflexivity].
          apply Nat.eqb_neq. specialize (Hlt eq_refl). lia. }
      pose proof (IH2 cap' c Hc) as Hq. cbn [matcher fst snd] in Hq.
      eapply repeat_matcher_monotone; [apply matcher_monotone| |intros y Hy; exact Hy|exact Hq].
      apply Matches_range in H1 as [Hij Hj].
      destruct min as [|min]; [specialize (Hlt eq_refl); specialize (Hj Hlt)|]; simpl; lia. }
    pose proof (IH1 (reset_groups (groups_of r) cap) d Hd) as Hm.
    destruct (min =? 0)%nat; [|exact Hm].
    destruct (matcher text r _ d); congruence.
  - apply IH. intros cap'. apply Hc.
  - rewrite Hb. apply Hc.
  - apply Hc.
  - rewrite Nat.eqb_refl. apply Hc.
Qed.

(** A match attempt at [i] succeeds exactly when the pattern matches
    from [i]. *)
Lemma match_at_iff re i :
  match_at re text i <> None <-> exists j, Matches text (source re) i j.
Proof.
  unfold match_at. split.
  - destruct (matcher text (source re) _ Some) as [z|] eqn:Hm; [|congruence].
    intros _. apply matcher_sound in Hm as (y & Hy & _). exists y.1. exact Hy.
  - intros [j Hj]. eapply matcher_complete; [exact Hj|]. intros cap'. discriminate.
Qed.

Lemma scan_iff re n i :
  scan re text n i <> None <->
  exists k, (i <= k <= i + n)%nat /\ match_at re text k <> None.
Proof.
  revert i. induction n as [|n IH]; intros i; cbn [scan].
  - destruct (match_at re text i) eqn:Hm.
    + split; [intros _; exists i; split; [lia|congruence]|congruence].
    + split; [congruence|]. intros (k & Hk & Hmk). assert (k = i) by lia. subst. congruence.
  - destruct (match_at re text i) eqn:Hm.
    + split; [intros _; exists i; split; [lia|congruence]|congruence].
    + rewrite IH. split.
      * intros (k & Hk & Hmk). exists k. split; [lia|exact Hmk].
      * intros (k & Hk & Hmk). exists k. split; [|exact Hmk].
        destruct (decide (k = i)); [subst; congruence|lia].
Qed.
End Semantics.

(** [test] decides whether the pattern matches somewhere in the text. *)
Lemma test_iff re text :
  test re text = true <->
  exists i j, (i <= length text)%nat /\ Matches text (source re) i j.
Proof.
  unfold test, exec. cbn [Nat.ltb Nat.leb]. rewrite Nat.sub_0_r.
  pose proof (scan_iff text re (length text) O) as Hs.
  destruct (scan re text (length text) 0) as [[i [e cap]]|] eqn:Hscan.
  - split; [intros _|reflexivity].
    destruct (proj1 Hs ltac:(congruence)) as (k & Hk & Hm).
    apply match_at_iff in Hm as [j Hj]. exists k, j. split; [lia|exact Hj].
  - split; [discriminate|]. intros (i & j & Hi & Hj). exfalso.
    apply (proj2 Hs); [|reflexivity]. exists i. split; [lia|].
    apply match_at_iff. exists j. exact Hj.
Qed.

(** An anchored pattern tests the shape of the whole value. *)
Lemma test_whole body value : test (whole body) value = true <-> shape body value.
Proof.
  rewrite test_iff. unfold whole, shape. cbn [source seq]. split.
  - intros (i & j & _ & H).
    inversion H as [| |r1 r2 i1 j1 k1 Hs Hr| | | | | | | |]; subst.
    inversion Hs; subst.
    inversion Hr as [| |r1 r2 i1 j1 k1 Hb He| | | | | | | |]; subst.
    inversion He; subst. exact Hb.
  - intros H. exists O, (length value). split; [lia|].
    econstructor; [constructor|]. econstructor; [exact H|constructor].
Qed.

(** ** Literal prefixes *)

Lemma Matches_chr text a i j :
  Matches text (chr a) i j <-> text !! i = Some (code a) /\ j = S i.
Proof.
  unfold chr. split.
  - intros H. inversion H as [|cs i' ch Hch Hcs| | | | | | | | |]; subst.
    apply N.eqb_eq in Hcs. subst ch. auto.
  - intros [Hch ->]. econstructor; [exact Hch|apply N.eqb_refl].
Qed.

Lemma Matches_lit text s : forall i j,
  Matches text (lit s) i j <->
  j = (i + length s)%nat /\ starts_with (N_of_ascii <$> s) (drop i text) = true.
Proof.
  induction s as [|a s IH]; intros i j.
  - cbn [lit length fmap list_fmap starts_with]. rewrite Nat.add_0_r. split.
    + intros H; inversion H; subst. auto.
    + intros [-> _]. constructor.
  - assert (Hhead : forall k,
              (text !! i = Some (code a) /\ k = S i /\
               starts_with (N_of_ascii <$> s) (drop (S i) text) = true)
              <-> (k = S i /\ starts_with (N_of_ascii <$> (a :: s)) (drop i text) = true)).
    { intros k. rewrite fmap_cons. destruct (text !! i) as [ch|] eqn:Hch.
      - rewrite (drop_S _ _ _ Hch). cbn [starts_with].
        rewrite andb_true_iff, N.eqb_eq. unfold code. split.
        + intros (Hc & -> & Hs). inversion Hc; subst. auto.
        + intros (-> & -> & Hs). auto.
      - apply lookup_ge_None in Hch. rewrite (drop_ge text i) by lia. cbn [starts_with].
        split; [intros (Hc & _); discriminate|intros (_ & Hc); discriminate]. }
    destruct s as [|b s'].
    + cbn [lit length]. rewrite Matches_chr.
      specialize (Hhead j). cbn [fmap list_fmap starts_with] in Hhead.
      replace (i + 1)%nat with (S i) by lia. rewrite <- Hhead. tauto.
    + change (lit (a :: b :: s')) with (Seq (chr a) (lit (b :: s'))). split.
      * intros H. inversion H as [| |r1 r2 i1 j1 k1 Ha Hs| | | | | | | |]; subst.
        apply Matches_chr in Ha as [Hch ->]. apply IH in Hs as [-> Hs].
        split; [cbn [length]; lia|]. apply (proj1 (Hhead (S i))). auto.
      * intros [-> Hs]. destruct (proj2 (Hhead (S i)) (conj eq_refl Hs)) as (Hch & _ & Hs').
        clear Hs. rename Hs' into Hs.
        econstructor; [apply Matches_chr; eauto|]. apply IH. split; [cbn [length]; lia|exact Hs].
Qed.

Lemma Matches_str text s j :
  Matches text (str s) O j <-> j = length (js s) /\ exists rest, text = js s ++ rest.
Proof.
  unfold str. rewrite Matches_lit. rewrite drop_0, Nat.add_0_l. unfold js.
  rewrite length_fmap, starts_with_spec, length_fmap. split.
  - intros [-> Ht]. split; [reflexivity|]. exists (drop (length (list_ascii_of_string s)) text).
    rewrite <- Ht at 1. rewrite take_drop. reflexivity.
  - intros [-> [rest ->]]. split; [reflexivity|].
    rewrite <- (length_fmap N_of_ascii). apply take_app_length.
Qed.

(** The credential test holds exactly of the values with a known prefix. *)
Lemma test_credential_prefix value :
  test credential_prefix value = true <-> credential_prefixed value.
Proof.
  rewrite test_iff. unfold credential_prefix, credential_prefixed. cbn [source]. split.
  - intros (i & j & _ & H).
    inversion H as [| |r1 r2 i1 j1 k1 Hs Hg| | | | | | | |]; subst.
    inversion Hs; subst.
    inversion Hg as [| | | | | | |n r i1 j1 Ha| | |]; subst.
    inversion Ha as [| | |r1 r2 i1 j1 H1|r1 r2 i1 j1 H2| | | | | |]; subst.
    + apply Matches_str in H1 as [_ [rest ->]]. exists rest. auto.
    + inversion H2 as [| | |r1 r2 i1 j1 H1|r1 r2 i1 j1 H3| | | | | |]; subst.
      * apply Matches_str in H1 as [_ [rest ->]]. exists rest. auto.
      * apply Matches_str in H3 as [_ [rest ->]]. exists rest. auto.
  - intros [rest Hv].
    assert (Hm : exists j, Matches value
                   (Alt (str "sk-") (Alt (str "ghp_") (str "AKIA"))) O j).
    { destruct Hv as [->|[->| ->]]; eexists.
      - apply Matches_Alt_l, Matches_str. split; [reflexivity|]. eauto.
      - apply Matches_Alt_r, Matches_Alt_l, Matches_str. split; [reflexivity|]. eauto.
      - apply Matches_Alt_r, Matches_Alt_r, Matches_str. split; [reflexivity|]. eauto. }
    destruct Hm as [j Hj]. exists O, j. split; [lia|].
    econstructor; [constructor|]. constructor. exact Hj.
Qed.

Lemma includes_occurs_in value pattern :
  includes value pattern = true <-> occurs_in pattern value.
Proof.
  unfold includes. rewrite occurs_in_indexOf, negb_true_iff, Z.eqb_neq. reflexivity.
Qed.

(** ** The submission handler *)

Section Handler.
Variable number : Type.

Lemma sanitize_started_fields (s0 s : ShieldState number) :
  sanitize_started number s0 = Some s ->
  history s = history s0 /\ input s = input s0.
Proof.
  unfold sanitize_started. destruct (trim (input s0)); [discriminate|].
  intros H; inversion H; subst s. split; reflexivity.
Qed.

Lemma sanitize_resolved_fields fuel text now date response (s s' : ShieldState number) :
  sanitize_resolved number fuel text now date response s = Some s' ->
  exists found,
    convertBackendResponseToMatches fuel text (clean_text response) (items response)
      (synthetic_map response) = Some found
    /\ sanitizedText s' = clean_text response
    /\ currentMatches s' = found
    /\ history s' = mkEntry number now text found date :: history s
    /\ input s' = input s.
Proof.
  unfold sanitize_resolved.
  destruct (convertBackendResponseToMatches fuel text (clean_text response)
              (items response) (synthetic_map response)) as [found|]; [|discriminate].
  intros H; inversion H; subst s'. exists found.
  split; [reflexivity|]. split; [reflexivity|]. split; [reflexivity|].
  split; reflexivity.
Qed.

(** A rejected audit writes the audit status and the audit result and no
    other state variable. *)
Lemma audit_rejected_frame auditError (s' : ShieldState number) :
  let s'' := audit_settled number (Rejected auditError) s' in
  (auditStatus s'' = failed \/ auditStatus s'' = rate_limited)
  /\ auditResult s'' = None
  /\ s'' = setAuditResult number None (setAuditStatus number (auditStatus s'') s')
  /\ sanitizedText s'' = sanitizedText s'
  /\ currentMatches s'' = currentMatches s'
  /\ history s'' = history s'
  /\ input s'' = input s'
  /\ isScanning number s'' = isScanning number s'
  /\ activeStep number s'' = activeStep number s'
  /\ apiError number s'' = apiError number s'
  /\ processingTime number s'' = processingTime number s'
  /\ sanitizeMode number s'' = sanitizeMode number s'
  /\ aiResponse number s'' = aiResponse number s'
  /\ isLoadingAI number s'' = isLoadingAI number s'
  /\ aiError number s'' = aiError number s'.
Proof.
  intros s''. unfold s'', audit_settled.
  set (isRateLimited := includes (message_of auditError) (js "429")
                        || includes (message_of auditError) (js "rate")
                        || includes (message_of auditError) (js "limit")
                        || includes (message_of auditError) (js "500")).
  clearbody isRateLimited.
  split; [destruct isRateLimited; [right|left]; reflexivity|].
  repeat (split; [reflexivity|]). reflexivity.
Qed.
End Handler.

(** ** Worked examples *)

(** The card number of the first sample prompt: one span of type
    CREDIT_CARD over the nineteen code units of the digit groups. *)
Example detectPII_card :
  detectPII 3 (js "card 4532-1234-5678-9012")
  = Some [ {| type := js "CREDIT_CARD"; original := js "4532-1234-5678-9012";
              replacement := js "[REDACTED_CC]"; start := 5; end_ := 24 |} ].
Proof. vm_compute. reflexivity. Qed.

(** An address: the only span is that of the IP pattern. *)
Example detectPII_ip :
  option_map (List.map (fun m => (type m, start m, end_ m)))
    (detectPII 3 (js "Deploy to server 192.168.1.100 now"))
  = Some [ (js "IP_ADDRESS", 17, 30) ].
Proof. vm_compute. reflexivity. Qed.

(** A numbered token takes its type from its leading word, a token of
    neither shape from the original value. *)
Example classify_numbered : classify (js "John Doe") (js "PHONE_NUMBER 2") = js "PHONE".
Proof. vm_compute. reflexivity. Qed.

Example classify_inferred : classify (js "(555) 867-5309") (js "XXXX") = js "PHONE".
Proof. vm_compute. reflexivity. Qed.

(** A token that is a prefix of another: the occurrence of "<A>" inside
    "<A><A>" at 0 is claimed by the second entry as a range of its own,
    the ranges 0-3 and 0-6 differ, and both spans stay in the result. *)
Example reconcile_prefix_tokens :
  option_map (List.map (fun m => (original m, start m, end_ m)))
    (convertBackendResponseToMatches 5 [] (js "<A><A>") []
       (Some [(js "x", js "<A><A>"); (js "y", js "<A>")]))
  = Some [ (js "x", 0, 6); (js "y", 0, 3); (js "y", 3, 6) ].
Proof. vm_compute. reflexivity. Qed.

(** * The properties of the specification *)

(** C1: for the substitution map [{"John Doe": "<PERSON>"}] and the
    substituted text ["Contact <PERSON> now"], the reconciler returns
    exactly one span, of type PERSON, with original value "John Doe",
    replacement value "<PERSON>", start 8 and end 16; the original text
    and the list of items do not matter. *)
Theorem C1_reconcile_person_tag (originalText : jsstring) (items : list jsstring) :
  returns
    (fun fuel => convertBackendResponseToMatches fuel originalText
                   (js "Contact <PERSON> now") items
                   (Some [(js "John Doe", js "<PERSON>")]))
    (fun spans =>
       spans = [ {| type := js "PERSON"; original := js "John Doe";
                    replacement := js "<PERSON>"; start := 8; end_ := 16 |} ]).
Proof.
  exists 3%nat. eexists. split; [|reflexivity].
  intros fuel Hle. apply (convert_mono _ _ _ _ 3%nat); [|exact Hle].
  vm_compute. reflexivity.
Qed.

(** C3: for every text the list returned by the local detector is sorted
    by start, and for every original text, substituted text, item list
    and substitution map so is the list returned by the reconciler:
    [spans[i].start <= spans[i+1].start] for all consecutive indices. *)
Theorem C3_outputs_sorted_by_start :
  (forall text, returns (fun fuel => detectPII fuel text) sorted_by_start)
  /\ (forall originalText cleanText items syntheticMap,
        returns (fun fuel => convertBackendResponseToMatches fuel originalText cleanText
                               items syntheticMap)
                sorted_by_start).
Proof.
  split.
  - intros text. apply (returns_intro _ _ (length text + 2)).
    + intros fuel fuel' r. apply detectPII_mono.
    + apply detectPII_total.
    + intros fuel r H. unfold detectPII in H.
      destruct (for_of PII_PATTERNS _ []) as [found|]; [|discriminate].
      simpl in H. inversion H; subst r.
      apply StronglySorted_sorted_by_start, sort_by_start_sorted.
  - intros originalText cleanText items syntheticMap.
    apply (returns_intro _ _ (reconcile_fuel cleanText)).
    + intros fuel fuel' r. apply convert_mono.
    + apply convert_total.
    + intros fuel r H. apply convert_found in H as (found & -> & _).
      apply StronglySorted_sorted_by_start, post_processing_sorted.
Qed.

(** C4, as the spec has it, fails: for the substituted text "a" and the
    map [{"x": ""}] the reconciler returns a span with start 0 and end 0,
    so not every returned span has [start < end]. *)
Lemma C4_empty_token_zero_width :
  ~ returns (fun fuel => convertBackendResponseToMatches fuel (js "ax") (js "a") []
                           (Some [(js "x", js "")]))
            (Forall span_ok).
Proof.
  intros H.
  apply (returns_unique _ _ 3%nat
           [ {| type := js "PERSON"; original := js "x"; replacement := js "";
                start := 0; end_ := 0 |} ]) in H.
  - apply (proj1 (Forall_singleton _ _)) in H. unfold span_ok in H. simpl in H. lia.
  - intros fuel fuel' r. apply convert_mono.
  - vm_compute. reflexivity.
Qed.

(** C4, amended: every span returned by the local detector satisfies
    [0 <= start < end]; every span returned by the reconciler starts at
    or after 0, ends inside the substituted text and is exactly as wide
    as its replacement token, so it satisfies [0 <= start < end] whenever
    its token is not the empty string, and always when the map is absent
    or empty. *)
Theorem C4_span_invariant :
  (forall text, returns (fun fuel => detectPII fuel text) (Forall span_ok))
  /\ (forall originalText cleanText items syntheticMap,
        returns (fun fuel => convertBackendResponseToMatches fuel originalText cleanText
                               items syntheticMap)
                (fun spans =>
                   Forall (fun m => 0 <= start m
                                    /\ end_ m = start m + len (replacement m)
                                    /\ end_ m <= len cleanText
                                    /\ (replacement m <> [] -> span_ok m)) spans
                   /\ (no_entries syntheticMap -> Forall span_ok spans))).
Proof.
  split.
  - intros text. apply (returns_intro _ _ (length text + 2)).
    + intros fuel fuel' r. apply detectPII_mono.
    + apply detectPII_total.
    + intros fuel r H. unfold detectPII in H.
      destruct (for_of PII_PATTERNS _ []) as [found|] eqn:Hf; [|discriminate].
      simpl in H. inversion H; subst r.
      rewrite sort_Permutation. eapply detect_loops_spans_ok; eauto.
  - intros originalText cleanText items syntheticMap.
    apply (returns_intro _ _ (reconcile_fuel cleanText)).
    + intros fuel fuel' r. apply convert_mono.
    + apply convert_total.
    + intros fuel r H. apply convert_found in H as (found & -> & Hp & _ & HB). split.
      * apply post_processing_keeps. eapply Forall_impl; [exact Hp|].
        intros m (H0 & He & Hl). split; [exact H0|split; [exact He|split; [exact Hl|]]].
        intros Hne. split; [exact H0|].
        destruct (replacement m) eqn:Hr; [congruence|].
        rewrite He. unfold len. simpl. lia.
      * intros Hno. destruct (HB Hno) as [lastIndex Hw].
        apply tag_loop_laid_out in Hw as ([_ Hok] & _ & _). simpl in Hok.
        apply post_processing_keeps. eapply Forall_impl; [exact Hok|].
        intros m [Hm _]. exact Hm.
Qed.

(** C9: the reconciler returns for every original text, substituted
    text, item list and substitution map (also with empty tokens or
    tokens that are substrings of one another); every per-entry scan
    ends, from any state; and over two consecutive iterations of the scan
    loop the search index strictly increases. *)
Theorem C9_reconcile_terminates (originalText cleanText : jsstring) (items : list jsstring)
    (syntheticMap : option (list (jsstring * jsstring))) :
  returns (fun fuel => convertBackendResponseToMatches fuel originalText cleanText
                         items syntheticMap)
          (fun _ => True)
  /\ (forall entry st,
        exists st', scan_entry (reconcile_fuel cleanText) cleanText entry st = Some st')
  /\ (forall original replacement st st1 st2,
        0 <= searchIndex st ->
        scan_body cleanText original replacement st = Some st1 ->
        scan_body cleanText original replacement st1 = Some st2 ->
        searchIndex st < searchIndex st2).
Proof.
  split; [|split].
  - apply (returns_intro _ _ (reconcile_fuel cleanText)).
    + intros fuel fuel' r. apply convert_mono.
    + apply convert_total.
    + auto.
  - intros [original replacement] st. apply scan_entry_total. unfold reconcile_fuel. lia.
  - intros original replacement. apply scan_body_twice.
Qed.

(** Two iterations on the text "ab" for the empty token: the first
    accepts the empty occurrence at 0 and leaves the index at 0, the
    second finds that range claimed and moves to 1. *)
Lemma C9_reconcile_terminates_witness :
  let st := mkScan 0 [] ∅ in
  let st1 := mkScan 0 [accepted (js "x") (js "") 0] ({[ posKey 0 0 ]} ∪ ∅) in
  let st2 := mkScan 1 [accepted (js "x") (js "") 0] ({[ posKey 0 0 ]} ∪ ∅) in
  scan_body (js "ab") (js "x") (js "") st = Some st1
  /\ scan_body (js "ab") (js "x") (js "") st1 = Some st2
  /\ searchIndex st < searchIndex st2.
Proof.
  intros st st1 st2.
  assert (H1 : scan_body (js "ab") (js "x") (js "") st = Some st1) by (vm_compute; reflexivity).
  assert (H2 : scan_body (js "ab") (js "x") (js "") st1 = Some st2) by (vm_compute; reflexivity).
  split; [exact H1|split; [exact H2|]].
  apply (proj2 (proj2 (C9_reconcile_terminates [] (js "ab") [] None))
           (js "x") (js "") st st1 st2); [vm_compute; discriminate|exact H1|exact H2].
Defined.

(** C10: in every list returned by the reconciler no two spans, adjacent
    or not, have both the same start and the same end. *)
Theorem C10_ranges_pairwise_distinct (originalText cleanText : jsstring)
    (items : list jsstring) (syntheticMap : option (list (jsstring * jsstring))) :
  returns (fun fuel => convertBackendResponseToMatches fuel originalText cleanText
                         items syntheticMap)
          distinct_ranges.
Proof.
  apply (returns_intro _ _ (reconcile_fuel cleanText)).
  - intros fuel fuel' r. apply convert_mono.
  - apply convert_total.
  - intros fuel r H. apply convert_found in H as (found & -> & _ & Hn & _).
    apply NoDup_distinct_ranges, post_processing_distinct, Hn.
Qed.

(** C7: the normaliser is a function from strings to strings;
    it maps "US_SSN" to "SSN" and "IP_ADDRESS" to "IP", and a label in
    which no search string of a rewrite rule occurs, such as
    "UNKNOWN_TAG", is returned unchanged. *)
Theorem C7_normalize_examples_and_pass_through :
  normalizeEntityType (js "US_SSN") = js "SSN"
  /\ normalizeEntityType (js "IP_ADDRESS") = js "IP"
  /\ normalizeEntityType (js "UNKNOWN_TAG") = js "UNKNOWN_TAG"
  /\ forall label,
       Forall (fun rule => ~ occurs_in rule.1 label) rewrite_rules ->
       normalizeEntityType label = label.
Proof.
  split; [vm_compute; reflexivity|].
  split; [vm_compute; reflexivity|].
  split; [vm_compute; reflexivity|].
  intros label H. rewrite normalizeEntityType_rules.
  induction H as [|rule rules Hr _ IH]; simpl; [reflexivity|].
  rewrite replace_absent by exact Hr. exact IH.
Qed.

(** The label "PERSON_NAME" contains no search string of any rule. *)
Lemma C7_normalize_pass_through_witness :
  normalizeEntityType (js "PERSON_NAME") = js "PERSON_NAME".
Proof.
  apply (proj2 (proj2 (proj2 C7_normalize_examples_and_pass_through))).
  repeat constructor; intros H; apply occurs_in_indexOf in H; apply H; vm_compute; reflexivity.
Defined.

(** C8: once the sanitize call of a submission has succeeded and its
    text, spans and history entry are in the state, a failed or
    rate-limited audit changes the audit status (to failed or
    rate-limited) and the audit result (to none) and nothing else: the
    sanitized text, the span list, the input and the history, with the
    entry just recorded, are as the sanitize step left them, as is every
    other state variable. *)
Theorem C8_audit_failure_keeps_sanitized_output (number : Type) (fuel : nat)
    (now date : number) (response : SanitizeResponse number) (auditError : thrown)
    (s0 s s' : ShieldState number) :
  sanitize_started number s0 = Some s ->
  sanitize_resolved number fuel (input s0) now date response s = Some s' ->
  let s'' := audit_settled number (Rejected auditError) s' in
  handleSanitize number fuel now date (Resolved response) (Rejected auditError) s0 = Some s''
  /\ (exists found,
        convertBackendResponseToMatches fuel (input s0) (clean_text response)
          (items response) (synthetic_map response) = Some found
        /\ sanitizedText s'' = clean_text response
        /\ currentMatches s'' = found
        /\ history s'' = mkEntry number now (input s0) found date :: history s0
        /\ input s'' = input s0)
  /\ (auditStatus s'' = failed \/ auditStatus s'' = rate_limited)
  /\ auditResult s'' = None
  /\ s'' = setAuditResult number None (setAuditStatus number (auditStatus s'') s')
  /\ sanitizedText s'' = sanitizedText s'
  /\ currentMatches s'' = currentMatches s'
  /\ history s'' = history s'
  /\ input s'' = input s'
  /\ isScanning number s'' = isScanning number s'
  /\ activeStep number s'' = activeStep number s'
  /\ apiError number s'' = apiError number s'
  /\ processingTime number s'' = processingTime number s'
  /\ sanitizeMode number s'' = sanitizeMode number s'
  /\ aiResponse number s'' = aiResponse number s'
  /\ isLoadingAI number s'' = isLoadingAI number s'
  /\ aiError number s'' = aiError number s'.
Proof.
  intros Hs H s''. split.
  { unfold handleSanitize. rewrite Hs. simpl. rewrite H. reflexivity. }
  split.
  { destruct (sanitize_started_fields _ _ _ Hs) as [Hh Hi].
    destruct (sanitize_resolved_fields _ _ _ _ _ _ _ _ H)
      as (found & Hc & Ht & Hm & Hy & Hin).
    destruct (audit_rejected_frame number auditError s')
      as (_ & _ & _ & Ht' & Hm' & Hy' & Hin' & _).
    exists found. unfold s''.
    rewrite Ht', Hm', Hy', Hin', Ht, Hm, Hy, Hin, Hh, Hi. auto. }
  apply audit_rejected_frame.
Qed.

(** A submission of "Contact John Doe now" whose sanitize call answers
    "Contact <PERSON> now" and whose audit call then fails with "API
    error (503): down": the sanitized text is still there afterwards. *)
Lemma C8_audit_failure_witness :
  let s0 := mkState Z (js "Contact John Doe now") false [] [] [] step_sanitize None None idle
              None synthetic [] false None in
  let response := mkResponse Z (js "Contact <PERSON> now") [js "PERSON"] 12
                    (Some [(js "John Doe", js "<PERSON>")]) in
  let found := [ mkPIIMatch (js "PERSON") (js "John Doe") (js "<PERSON>") 8 16 ] in
  let s := mkState Z (js "Contact John Doe now") true [] [] [] step_sanitize None None idle
             None synthetic [] false None in
  let s' := mkState Z (js "Contact John Doe now") false found (js "Contact <PERSON> now")
              [mkEntry Z 1700000000000 (js "Contact John Doe now") found 1700000000001]
              step_verify None None running (Some 12) synthetic [] true None in
  let s'' := audit_settled Z (Rejected (ErrorObject (js "API error (503): down"))) s' in
  sanitize_started Z s0 = Some s
  /\ sanitize_resolved Z 3 (input s0) 1700000000000 1700000000001 response s = Some s'
  /\ auditStatus s'' = failed
  /\ sanitizedText s'' = sanitizedText s'.
Proof.
  intros s0 response found s s' s''.
  assert (H1 : sanitize_started Z s0 = Some s) by (vm_compute; reflexivity).
  assert (H2 : sanitize_resolved Z 3 (input s0) 1700000000000 1700000000001 response s
               = Some s')
    by (vm_compute; reflexivity).
  split; [exact H1|]. split; [exact H2|]. split; [vm_compute; reflexivity|].
  exact (proj1 (proj2 (proj2 (proj2 (proj2 (proj2
           (C8_audit_failure_keeps_sanitized_output Z 3 1700000000000 1700000000001 response
              (ErrorObject (js "API error (503): down")) s0 s s' H1 H2))))))).
Defined.

(** C5: for every text and every span list that lies inside the text, is
    sorted by start and does not overlap, the segmenter consumes the text
    exactly.  For the empty text it shows the placeholder and for no
    spans the whole text; otherwise its parts tile the text from offset 0
    to its end, each plain part holding the non-empty gap before the next
    span (or after the last), each redacted part standing for one span
    and showing its replacement value; there is one redacted part per
    span, in order; and the ranges consumed, put together, are the text. *)
Theorem C5_segmenter_consumes_text (text : jsstring) (spans : list PIIMatch)
    (isScanning : bool) :
  segmentable text spans ->
  match RedactedText text spans isScanning with
  | Placeholder => text = []
  | WholeText shown => shown = text /\ spans = []
  | Parts _ parts =>
      tiles text spans 0 parts (len text)
      /\ filter is_redacted parts
         = imap (fun i m => RedactedPart (KeyRedacted i) (replacement m)) spans
      /\ concat (covered text spans <$> parts) = text
  end.
Proof.
  intros Hseg. unfold RedactedText.
  destruct text as [|c text']; [reflexivity|].
  destruct spans as [|m spans']; [auto|].
  lazy beta iota.
  set (text := c :: text') in *. set (spans := m :: spans') in *.
  clearbody text spans.
  destruct (forEach_tiles text spans Hseg spans O [] [] 0) as (Ht & Hr & Hl).
  - reflexivity.
  - reflexivity.
  - apply tiles_nil.
  - reflexivity.
  - pose proof (len_nonneg text). lia.
  - intros n Hn. destruct Hseg as (Hb & _).
    apply list_elem_of_lookup_2 in Hn. apply (proj1 (Forall_forall _ _) Hb) in Hn. lia.
  - set (st := forEach_indexed (render_match text) 0 spans ([], 0)) in *.
    assert (Hfinal : tiles text spans 0
                       (if st.2 <? len text
                        then st.1 ++ [PlainPart KeyTextEnd (slice_from text st.2)]
                        else st.1) (len text)
                     /\ filter is_redacted
                          (if st.2 <? len text
                           then st.1 ++ [PlainPart KeyTextEnd (slice_from text st.2)]
                           else st.1)
                        = imap (fun i m => RedactedPart (KeyRedacted i) (replacement m)) spans).
    { destruct (st.2 <? len text) eqn:Hlt.
      - apply Z.ltb_lt in Hlt. split.
        + eapply tiles_app; [exact Ht|]. apply tiles_plain; [exact Hlt|apply tiles_nil].
        + rewrite filter_app, Hr. simpl. rewrite filter_cons. simpl.
          rewrite filter_nil. apply app_nil_r.
      - apply Z.ltb_ge in Hlt. replace (len text) with st.2 by lia. auto. }
    destruct Hfinal as [Hf1 Hf2].
    split; [exact Hf1|]. split; [exact Hf2|].
    destruct Hseg as (Hb & _).
    rewrite (tiles_range text spans Hb _ _ _ Hf1) by lia.
    apply slice_all.
Qed.

(** The text "Contact <PERSON> now" with its one span from 8 to 16. *)
Lemma C5_segmenter_witness :
  let text := js "Contact <PERSON> now" in
  let spans := [ mkPIIMatch (js "PERSON") (js "John Doe") (js "<PERSON>") 8 16 ] in
  RedactedText text spans false
  = Parts false [ PlainPart (KeyText 0) (js "Contact ");
                  RedactedPart (KeyRedacted 0) (js "<PERSON>");
                  PlainPart KeyTextEnd (js " now") ]
  /\ concat (covered text spans
               <$> [ PlainPart (KeyText 0) (js "Contact ");
                     RedactedPart (KeyRedacted 0) (js "<PERSON>");
                     PlainPart KeyTextEnd (js " now") ]) = text.
Proof.
  intros text spans.
  assert (Hseg : segmentable text spans).
  { split; [|split].
    - apply Forall_singleton. vm_compute. repeat split; discriminate.
    - intros [|i] a b Ha Hb; simpl in *; [discriminate|].
      rewrite lookup_nil in Ha. discriminate.
    - intros [|i] a b Ha Hb; simpl in *; [discriminate|].
      rewrite lookup_nil in Ha. discriminate. }
  pose proof (C5_segmenter_consumes_text text spans false Hseg) as H.
  assert (Hr : RedactedText text spans false
               = Parts false [ PlainPart (KeyText 0) (js "Contact ");
                               RedactedPart (KeyRedacted 0) (js "<PERSON>");
                               PlainPart KeyTextEnd (js " now") ])
    by (vm_compute; reflexivity).
  rewrite Hr in H. split; [exact Hr|]. exact (proj2 (proj2 H)).
Defined.

(** C2, as the spec has it, fails: for the substituted text "<EMAIL>" and
    no map, the original value of the span returned is "[EMAIL]", in
    square brackets, and not the bracketed tag "<EMAIL>" itself, which is
    the replacement value. *)
Lemma C2_original_is_not_the_tag :
  ~ returns (fun fuel => convertBackendResponseToMatches fuel (js "a@b.c") (js "<EMAIL>") []
                           None)
            (Forall (fun m => original m = replacement m)).
Proof.
  intros H.
  apply (returns_unique _ _ 3%nat
           [ {| type := js "EMAIL"; original := js "[EMAIL]"; replacement := js "<EMAIL>";
                start := 0; end_ := 7 |} ]) in H.
  - apply (proj1 (Forall_singleton _ _)) in H. vm_compute in H. discriminate.
  - intros fuel fuel' r. apply convert_mono.
  - vm_compute. reflexivity.
Qed.

(** C2, amended: whenever the substitution map is absent or empty the
    reconciler returns exactly one span per bracketed-tag occurrence of
    the substituted text, in left-to-right order: its type is the
    normalised tag contents, its original value is the tag contents
    wrapped in square brackets, its replacement value is the tag as
    matched, and its range is that of the tag.  Every occurrence listed
    is a tag of the text.  For "<EMAIL> sent <PHONE_NUMBER>" and no map
    the result is a span of type EMAIL followed by one of type PHONE. *)
Theorem C2_tag_driven_mode :
  (forall originalText cleanText items syntheticMap,
     no_entries syntheticMap ->
     returns (fun fuel => convertBackendResponseToMatches fuel originalText cleanText
                            items syntheticMap)
             (fun spans => spans = tag_span <$> tag_occurrences cleanText))
  /\ (forall cleanText,
        Forall (fun occ => tag_at cleanText occ.1 occ.2) (tag_occurrences cleanText))
  /\ (forall originalText items,
        returns (fun fuel => convertBackendResponseToMatches fuel originalText
                               (js "<EMAIL> sent <PHONE_NUMBER>") items None)
                (fun spans =>
                   spans = [ {| type := js "EMAIL"; original := js "[EMAIL]";
                                replacement := js "<EMAIL>"; start := 0; end_ := 7 |};
                             {| type := js "PHONE"; original := js "[PHONE_NUMBER]";
                                replacement := js "<PHONE_NUMBER>";
                                start := 13; end_ := 27 |} ])).
Proof.
  split; [|split].
  - intros originalText cleanText items syntheticMap Hno.
    apply (returns_intro _ _ (reconcile_fuel cleanText)).
    + intros fuel fuel' r. apply convert_mono.
    + apply convert_total.
    + intros fuel r H. apply convert_found in H as (found & -> & _ & _ & HB).
      destruct (HB Hno) as [lastIndex Hw].
      pose proof (tag_loop_laid_out _ _ _ Hw) as (Hl & _ & _). cbn [fst snd] in Hl.
      rewrite (post_processing_laid_out _ _ Hl).
      destruct (tag_loop_spans cleanText (Nat.max fuel (length cleanText + 2)))
        as [lastIndex' Hw']; [lia|].
      apply (while_mono _ _ (Nat.max fuel (length cleanText + 2))) in Hw; [|lia].
      congruence.
  - apply tag_occurrences_sound.
  - intros originalText items. exists 3%nat. eexists. split; [|reflexivity].
    intros fuel Hle. apply (convert_mono _ _ _ _ 3%nat); [|exact Hle].
    vm_compute. reflexivity.
Qed.

(** The text "<EMAIL>" with an empty map. *)
Lemma C2_tag_driven_mode_witness :
  returns (fun fuel => convertBackendResponseToMatches fuel (js "a@b.c") (js "<EMAIL>") []
                         (Some []))
          (fun spans => spans = [ {| type := js "EMAIL"; original := js "[EMAIL]";
                                     replacement := js "<EMAIL>"; start := 0; end_ := 7 |} ]).
Proof.
  apply (proj1 C2_tag_driven_mode (js "a@b.c") (js "<EMAIL>") [] (Some [])).
  right. reflexivity.
Defined.

(** C6: the fallback classifier tries its shape predicates in a fixed
    order and the first that holds decides: a value containing "@" is
    EMAIL; else one of the national-id shape is SSN; else one of the
    sixteen-digit grouped shape is CREDIT_CARD; else one of the phone-like
    shape, which has at least ten code units, is PHONE; else one with a
    credential prefix is API_KEY; else one of the dotted-quad shape is IP;
    anything else is PERSON.  The shapes are those of the patterns, read
    declaratively.  In particular "192.168.1.1" is IP, "jane@x.com" is
    EMAIL and "Jane Smith" is PERSON. *)
Theorem C6_infer_priority_order :
  (forall value,
     let email := occurs_in (js "@") value in
     let ssn := shape ssn_body value in
     let card := shape card_body value in
     let phone := shape phone_like_body value in
     let credential := credential_prefixed value in
     let ip := shape ip_body value in
     (email -> inferEntityType value = js "EMAIL")
     /\ (~ email -> ssn -> inferEntityType value = js "SSN")
     /\ (~ email -> ~ ssn -> card -> inferEntityType value = js "CREDIT_CARD")
     /\ (~ email -> ~ ssn -> ~ card -> phone -> inferEntityType value = js "PHONE")
     /\ (~ email -> ~ ssn -> ~ card -> ~ phone -> credential ->
         inferEntityType value = js "API_KEY")
     /\ (~ email -> ~ ssn -> ~ card -> ~ phone -> ~ credential -> ip ->
         inferEntityType value = js "IP")
     /\ (~ email -> ~ ssn -> ~ card -> ~ phone -> ~ credential -> ~ ip ->
         inferEntityType value = js "PERSON")
     /\ (phone -> (10 <= length value)%nat))
  /\ inferEntityType (js "192.168.1.1") = js "IP"
  /\ inferEntityType (js "jane@x.com") = js "EMAIL"
  /\ inferEntityType (js "Jane Smith") = js "PERSON".
Proof.
  split; [|split; [|split]]; try (vm_compute; reflexivity).
  intros value email ssn card phone credential ip.
  pose proof (includes_occurs_in value (js "@")) as He.
  pose proof (test_whole ssn_body value) as Hs.
  pose proof (test_whole card_body value) as Hc.
  pose proof (test_whole phone_like_body value) as Hp.
  pose proof (test_credential_prefix value) as Hk.
  pose proof (test_whole ip_body value) as Hi.
  fold email in He. fold ssn in Hs. fold card in Hc. fold phone in Hp.
  fold credential in Hk. fold ip in Hi.
  unfold inferEntityType.
  destruct (includes value (js "@")); destruct (test (whole ssn_body) value);
    destruct (test (whole card_body) value); destruct (test (whole phone_like_body) value);
    destruct (test credential_prefix value); destruct (test (whole ip_body) value);
    repeat split; intros;
    try reflexivity;
    try (exfalso; intuition congruence);
    try (apply Matches_min_length in H; exact H);
    try (match goal with H : phone |- _ => apply Matches_min_length in H; exact H end).
Qed.

(** The value "192.168.1.1": no "@", none of the earlier shapes, no
    credential prefix, and the dotted-quad shape. *)
Lemma C6_infer_priority_order_witness : inferEntityType (js "192.168.1.1") = js "IP".
Proof.
  destruct (proj1 C6_infer_priority_order (js "192.168.1.1"))
    as (_ & _ & _ & _ & _ & Hip & _).
  apply Hip.
  - intros H. apply includes_occurs_in in H. vm_compute in H. discriminate.
  - intros H. apply test_whole in H. vm_compute in H. discriminate.
  - intros H. apply test_whole in H. vm_compute in H. discriminate.
  - intros H. apply test_whole in H. vm_compute in H. discriminate.
  - intros H. apply test_credential_prefix in H. vm_compute in H. discriminate.
  - apply test_whole. vm_compute. reflexivity.
Defined.

(** * Further properties of the code *)

(** ** The local detector *)

Lemma sort_Forall {A : Type} (P : A -> Prop) (cmp : A -> A -> Z) l :
  Forall P l -> Forall P (sort cmp l).
Proof.
  intros H. apply Forall_forall. intros x Hx. rewrite sort_Permutation in Hx.
  eapply (proj1 (Forall_forall _ _) H); eauto.
Qed.

Lemma detect_loops_Forall (P : PIIMatch -> Prop) fuel text found :
  (forall p lastIndex m, p ∈ PII_PATTERNS ->
     exec (pattern_regex p) text lastIndex = Some m -> P (detected p m)) ->
  for_of PII_PATTERNS
    (fun pattern matches => snd <$> while fuel (detect_body text pattern) (O, matches)) []
  = Some found ->
  Forall P found.
Proof.
  intros HP. apply (for_of_inv _ (Forall P)); [|constructor].
  intros p s s' Hp Hs Hw.
  pose proof (proj1 (Forall_forall _ _) PII_PATTERNS_consume p Hp) as Hmin.
  destruct (while fuel (detect_body text p) (O, s)) as [st|] eqn:Hst; [|discriminate].
  simpl in Hw. inversion Hw; subst s'.
  apply (exec_push_inv _ _ _ Hmin (fun st => Forall P st.2)) in Hst as [Hr _]; auto.
  intros st0 m H0 He _ _. simpl. apply Forall_app; split; [exact H0|].
  apply Forall_singleton. eapply HP; eauto.
Qed.

(** The text of a match is the slice of the subject between its index and
    its end. *)
Lemma matched_slice re text lastIndex m :
  exec re text lastIndex = Some m ->
  slice text (Z.of_nat (index m)) (Z.of_nat (index m) + len (matched m)) = matched m
  /\ Z.of_nat (index m) + len (matched m) = Z.of_nat (end_index m)
  /\ (index m + min_length (source re) <= end_index m)%nat
  /\ (end_index m <= length text)%nat.
Proof.
  intros He. pose proof (exec_matched_length _ _ _ _ He) as Hl.
  destruct (exec_range _ _ _ _ He) as (_ & H1 & H2 & H3).
  split; [|split; [lia|split; lia]].
  rewrite slice_in_range by (unfold len in *; lia).
  etransitivity; [|symmetry; exact H3]. f_equal; [lia|]. f_equal. lia.
Qed.

Lemma exec_short re text lastIndex :
  (length text < min_length (source re))%nat -> exec re text lastIndex = None.
Proof.
  intros Hs. destruct (exec re text lastIndex) as [m|] eqn:He; [|reflexivity].
  apply exec_range in He. lia.
Qed.

Lemma PII_PATTERNS_min_length :
  Forall (fun p => (6 <= min_length (source (pattern_regex p)))%nat) PII_PATTERNS.
Proof. repeat constructor; vm_compute; lia. Qed.

(** What holds of every span of the local detector, for whatever fuel it
    returns with. *)
Lemma detectPII_spans fuel text spans :
  detectPII fuel text = Some spans ->
  Forall (fun m =>
       0 <= start m < end_ m /\ end_ m <= len text
       /\ original m = slice text (start m) (end_ m)
       /\ exists p, p ∈ PII_PATTERNS /\ type m = pattern_type p
                    /\ replacement m = pattern_replacement p) spans.
Proof.
  intros H. unfold detectPII in H.
  destruct (for_of PII_PATTERNS _ []) as [found|] eqn:Hf; [|discriminate].
  simpl in H. inversion H; subst spans. apply sort_Forall.
  revert Hf. apply detect_loops_Forall. intros p li m Hp He.
  destruct (matched_slice _ _ _ _ He) as (Hs & Hend & Hmin & Hlen).
  pose proof (proj1 (Forall_forall _ _) PII_PATTERNS_consume p Hp) as H1.
  cbv beta in H1. unfold detected; cbn [start end_ original type replacement].
  assert (Ht : len text = Z.of_nat (length text)) by reflexivity.
  split; [lia|]. split; [lia|]. split; [symmetry; exact Hs|].
  exists p. auto.
Qed.

(** X1: every span of the local detector lies inside the text with positive
    width, its original value is the text of its range, and its type and
    replacement are those of one entry of the pattern catalogue. *)
Theorem detectPII_spans_quote_the_text text :
  returns (fun fuel => detectPII fuel text)
    (Forall (fun m =>
       0 <= start m < end_ m /\ end_ m <= len text
       /\ original m = slice text (start m) (end_ m)
       /\ exists p, p ∈ PII_PATTERNS /\ type m = pattern_type p
                    /\ replacement m = pattern_replacement p)).
Proof.
  apply (returns_intro _ _ (length text + 2)).
  - intros fuel fuel' r. apply detectPII_mono.
  - apply detectPII_total.
  - intros fuel r. apply detectPII_spans.
Qed.

(** X2: a text of fewer than six code units, the empty text included,
    gives no span: no pattern of the catalogue can match that little. *)
Theorem detectPII_short_text text :
  (length text < 6)%nat ->
  returns (fun fuel => detectPII fuel text) (fun spans => spans = []).
Proof.
  intros Hs. exists 1%nat, []. split; [|reflexivity].
  intros fuel Hf. destruct fuel as [|fuel]; [lia|]. unfold detectPII.
  assert (Hloop : forall l acc,
            Forall (fun p => (6 <= min_length (source (pattern_regex p)))%nat) l ->
            for_of l (fun pattern matches =>
                        snd <$> while (S fuel) (detect_body text pattern) (O, matches)) acc
            = Some acc).
  { induction l as [|p l IH]; intros acc Hl; [reflexivity|].
    inversion Hl; subst. cbn [for_of while]. unfold detect_body at 1, exec_push at 1.
    cbn [fst]. rewrite exec_short by lia. simpl. apply IH. assumption. }
  rewrite Hloop by apply PII_PATTERNS_min_length. reflexivity.
Qed.

Lemma detectPII_short_text_witness :
  returns (fun fuel => detectPII fuel (js "hello")) (fun spans => spans = []).
Proof. apply detectPII_short_text. simpl. lia. Defined.

(** ** The reconciler before its post-processing *)

Lemma convert_collect fuel originalText cleanText items syntheticMap :
  convertBackendResponseToMatches fuel originalText cleanText items syntheticMap
  = (fun found => filter_indexed differs_from_previous (sort by_start found))
      <$> collect_matches fuel cleanText syntheticMap.
Proof.
  unfold convertBackendResponseToMatches, collect_matches.
  destruct syntheticMap as [[|e es]|].
  - destruct (while fuel _ _); reflexivity.
  - destruct (for_of _ _ _); reflexivity.
  - destruct (while fuel _ _); reflexivity.
Qed.

(** What holds of every accepted occurrence holds of every span the scan
    of an entry pushes. *)
Lemma scan_entry_Forall (Q : PIIMatch -> Prop) fuel cleanText original replacement st st' :
  (forall index, 0 <= index -> index + len replacement <= len cleanText ->
     slice cleanText index (index + len replacement) = replacement ->
     Q (accepted original replacement index)) ->
  Forall Q (matches st) ->
  scan_entry fuel cleanText (original, replacement) st = Some st' ->
  Forall Q (matches st').
Proof.
  intros HQ H0 H. unfold scan_entry in H. simpl in H.
  apply (while_inv _ (fun s => Forall Q (matches s) /\ 0 <= searchIndex s)) in H
    as [[Hr _] _]; [exact Hr| |].
  - intros s s' [Hs Hi] Hb.
    pose proof (scan_body_monotone _ _ _ _ _ Hi Hb). split; [|lia].
    apply scan_body_Some in Hb as (Hg & Hne & Hc).
    destruct (index_in_range cleanText replacement s) as [Hlo Hhi]; [lia|exact Hne|].
    destruct Hc as [[_ ->]|[_ ->]]; simpl; [exact Hs|].
    apply Forall_app; split; [exact Hs|]. apply Forall_singleton. apply HQ; [lia|lia|].
    eapply indexOf_occurrence; eauto.
  - simpl. split; [exact H0|lia].
Qed.

Lemma collect_entries_Forall (Q : PIIMatch -> Prop) fuel cleanText entry entries found :
  (forall original replacement index,
     (original, replacement) ∈ entry :: entries ->
     0 <= index -> index + len replacement <= len cleanText ->
     slice cleanText index (index + len replacement) = replacement ->
     Q (accepted original replacement index)) ->
  collect_matches fuel cleanText (Some (entry :: entries)) = Some found ->
  Forall Q found.
Proof.
  intros HQ H. unfold collect_matches in H.
  destruct (for_of (entry :: entries) _ _) as [st|] eqn:Hf; [|discriminate].
  simpl in H. inversion H; subst found.
  apply (for_of_inv _ (fun st => Forall Q (matches st))) in Hf; [exact Hf| |constructor].
  intros [o r] s s' Hin Hs Hb. eapply scan_entry_Forall; [|exact Hs|exact Hb].
  intros index. apply HQ. exact Hin.
Qed.

Lemma collect_tags_Forall (Q : PIIMatch -> Prop) fuel cleanText syntheticMap found :
  no_entries syntheticMap ->
  (forall lastIndex m, exec tagPattern cleanText lastIndex = Some m -> Q (tagged m)) ->
  collect_matches fuel cleanText syntheticMap = Some found ->
  Forall Q found.
Proof.
  intros Hno HQ H.
  assert (Hw : snd <$> while fuel (tag_body cleanText) (O, []) = Some found).
  { destruct Hno as [->| ->]; exact H. }
  destruct (while fuel (tag_body cleanText) (O, [])) as [st|] eqn:Hst; [|discriminate].
  simpl in Hw. inversion Hw; subst found.
  apply (exec_push_inv _ _ _ tagPattern_consumes (fun st => Forall Q st.2)) in Hst
    as [Hr _]; [exact Hr| |constructor].
  intros st0 m H0 He _ _. simpl. apply Forall_app; split; [exact H0|].
  apply Forall_singleton. eapply HQ; eauto.
Qed.

Lemma map_cases (syntheticMap : option (list (jsstring * jsstring))) :
  no_entries syntheticMap \/ exists entry entries, syntheticMap = Some (entry :: entries).
Proof.
  destruct syntheticMap as [[|e es]|]; [left; right; reflexivity|right; eauto|left; left; reflexivity].
Qed.

Lemma collect_distinct fuel cleanText syntheticMap found :
  collect_matches fuel cleanText syntheticMap = Some found ->
  NoDup (range_of <$> found).
Proof.
  intros H. destruct (map_cases syntheticMap) as [Hno|(e & es & ->)].
  - assert (Hw : snd <$> while fuel (tag_body cleanText) (O, []) = Some found).
    { destruct Hno as [->| ->]; exact H. }
    destruct (while fuel (tag_body cleanText) (O, [])) as [st|] eqn:Hst; [|discriminate].
    simpl in Hw. inversion Hw; subst found.
    destruct (tag_loop_laid_out _ _ _ Hst) as (Hl & _). eapply laid_out_distinct; eauto.
  - unfold collect_matches in H.
    destruct (for_of (e :: es) _ _) as [st|] eqn:Hf; [|discriminate].
    simpl in H. inversion H; subst found.
    apply (for_of_inv _ (scan_inv cleanText)) in Hf as (_ & _ & Hn).
    + apply keys_distinct, Hn.
    + intros [o t] s s' _ Hs Hb. eapply scan_entry_inv; eauto.
    + split; [constructor|split; [|constructor]]. intros m Hm. inversion Hm.
Qed.

Lemma collect_mono cleanText syntheticMap fuel fuel' r :
  collect_matches fuel cleanText syntheticMap = Some r -> (fuel <= fuel')%nat ->
  collect_matches fuel' cleanText syntheticMap = Some r.
Proof.
  intros H Hf. unfold collect_matches in *.
  destruct syntheticMap as [[|e es]|]; try (eapply fmap_while_mono; eauto).
  destruct (for_of (e :: es) (scan_entry fuel cleanText) _) as [st|] eqn:Hst; [|discriminate].
  erewrite for_of_ext; [exact H| |exact Hst].
  intros a s r0 Hr. unfold scan_entry in *. eapply while_mono; eauto.
Qed.

(** In a sorted list without two equal ranges the final filter keeps
    every element. *)
Lemma filter_keeps_distinct l :
  NoDup (range_of <$> l) -> filter_indexed differs_from_previous l = l.
Proof.
  intros Hn. apply filter_indexed_keep. intros [|i] x Hx; [reflexivity|].
  cbn [differs_from_previous].
  destruct (l !! i) as [prev|] eqn:Hprev; [|reflexivity].
  destruct (start x =? start prev) eqn:Hs; [|reflexivity].
  destruct (end_ x =? end_ prev) eqn:He; [|reflexivity].
  apply Z.eqb_eq in Hs. apply Z.eqb_eq in He. exfalso.
  assert (S i = i); [|lia].
  eapply (NoDup_lookup _ (S i) i (range_of x) Hn); rewrite list_lookup_fmap.
  - rewrite Hx. reflexivity.
  - rewrite Hprev. simpl. unfold range_of. rewrite Hs, He. reflexivity.
Qed.

(** X3: every span the reconciler returns lies inside the substituted
    text, and the text of its range is its replacement value, in both
    modes. *)
Theorem reconciled_spans_quote_the_clean_text originalText cleanText items syntheticMap :
  returns (fun fuel => convertBackendResponseToMatches fuel originalText cleanText items
                         syntheticMap)
    (Forall (fun m => 0 <= start m /\ end_ m <= len cleanText
                      /\ slice cleanText (start m) (end_ m) = replacement m)).
Proof.
  apply (returns_intro _ _ (reconcile_fuel cleanText)).
  - intros fuel fuel' r. apply convert_mono.
  - apply convert_total.
  - intros fuel r H. rewrite convert_collect in H.
    destruct (collect_matches fuel cleanText syntheticMap) as [found|] eqn:Hc; [|discriminate].
    simpl in H. inversion H; subst r. apply post_processing_keeps.
    destruct (map_cases syntheticMap) as [Hno|(e & es & ->)].
    + revert Hc. apply collect_tags_Forall; [exact Hno|]. intros li m He.
      destruct (matched_slice _ _ _ _ He) as (Hs & Hend & _ & Hlen).
      assert (Ht : len cleanText = Z.of_nat (length cleanText)) by reflexivity.
      unfold tagged; cbn [start end_ replacement]. split; [lia|]. split; [lia|exact Hs].
    + revert Hc. apply collect_entries_Forall. intros o r index _ H0 H1 Hs.
      unfold accepted; cbn [start end_ replacement]. auto.
Qed.


(** X5: the final filter never removes a span: the reconciler returns the
    spans its loops pushed, sorted by start, all of them. *)
Theorem final_filter_removes_nothing fuel originalText cleanText items syntheticMap :
  convertBackendResponseToMatches fuel originalText cleanText items syntheticMap
  = sort by_start <$> collect_matches fuel cleanText syntheticMap.
Proof.
  rewrite convert_collect.
  destruct (collect_matches fuel cleanText syntheticMap) as [found|] eqn:Hc; [|reflexivity].
  simpl. f_equal. apply filter_keeps_distinct.
  rewrite sort_Permutation. eapply collect_distinct; eauto.
Qed.

(** ** Tokens that do not occur, and the empty text *)

Lemma scan_entry_absent fuel cleanText original replacement st :
  ~ occurs_in replacement cleanText \/ cleanText = [] ->
  scan_entry (S fuel) cleanText (original, replacement) st
  = Some {| searchIndex := 0; matches := matches st;
            processedPositions := processedPositions st |}.
Proof.
  intros Hno. unfold scan_entry. cbn [while fst snd].
  assert (Hb : scan_body cleanText original replacement
                 {| searchIndex := 0; matches := matches st;
                    processedPositions := processedPositions st |} = None).
  { unfold scan_body. cbn [searchIndex]. destruct Hno as [Hno| ->]; [|reflexivity].
    destruct (0 <? len cleanText); [|reflexivity].
    destruct (indexOf cleanText replacement 0 =? -1) eqn:Hi; [reflexivity|].
    apply Z.eqb_neq in Hi. exfalso. apply Hno, occurs_in_indexOf, Hi. }
  rewrite Hb. reflexivity.
Qed.

Lemma scan_entries_absent fuel cleanText entries : forall st,
  Forall (fun e => ~ occurs_in e.2 cleanText) entries \/ cleanText = [] ->
  matches <$> for_of entries (scan_entry (S fuel) cleanText) st = Some (matches st).
Proof.
  induction entries as [|[o r] entries IH]; intros st Hno; [reflexivity|].
  cbn [for_of]. rewrite scan_entry_absent.
  - rewrite IH; [reflexivity|]. destruct Hno as [Hno|Hno]; [left|right; exact Hno].
    inversion Hno; assumption.
  - destruct Hno as [Hno|Hno]; [left|right; exact Hno]. inversion Hno; assumption.
Qed.

(** X6: when no replacement token of the map occurs in the substituted
    text, the reconciler returns no span, whatever else the text holds:
    with a map that has entries, bracketed tags of the text are not
    looked for. *)
Theorem absent_tokens_give_no_span originalText cleanText items entry entries :
  Forall (fun e => ~ occurs_in e.2 cleanText) (entry :: entries) ->
  returns (fun fuel => convertBackendResponseToMatches fuel originalText cleanText items
                         (Some (entry :: entries)))
    (fun spans => spans = []).
Proof.
  intros Hno. exists 1%nat, []. split; [|reflexivity].
  intros [|fuel] Hf; [lia|]. rewrite convert_collect. unfold collect_matches.
  rewrite scan_entries_absent by (left; exact Hno). reflexivity.
Qed.

Lemma absent_tokens_give_no_span_witness :
  returns (fun fuel => convertBackendResponseToMatches fuel (js "John wrote")
                         (js "<EMAIL> wrote") [] (Some [(js "John", js "<PERSON>")]))
    (fun spans => spans = []).
Proof.
  apply absent_tokens_give_no_span. constructor; [|constructor].
  intros H. apply occurs_in_indexOf in H. vm_compute in H. congruence.
Defined.

(** X7: for the empty substituted text the reconciler returns no span,
    with or without a map, even when the map has an empty token. *)
Theorem empty_clean_text_gives_no_span originalText items syntheticMap :
  returns (fun fuel => convertBackendResponseToMatches fuel originalText [] items syntheticMap)
    (fun spans => spans = []).
Proof.
  exists 1%nat, []. split; [|reflexivity].
  intros [|fuel] Hf; [lia|]. rewrite convert_collect. unfold collect_matches.
  assert (HB : snd <$> while (S fuel) (tag_body []) (O, []) = Some ([] : list PIIMatch)).
  { cbn [while]. unfold tag_body at 1, exec_push at 1. cbn [fst].
    rewrite exec_short by (vm_compute; lia). reflexivity. }
  destruct syntheticMap as [[|e es]|]; [rewrite HB; reflexivity| |rewrite HB; reflexivity].
  rewrite scan_entries_absent by (right; reflexivity). reflexivity.
Qed.

(** ** Spans the segmenter can walk *)

Lemma StronglySorted_lookup_lt {A : Type} (R : A -> A -> Prop) l i j a b :
  StronglySorted R l -> (i < j)%nat -> l !! i = Some a -> l !! j = Some b -> R a b.
Proof.
  intros Hs. revert i j.
  induction Hs as [|x l Hs IH Hx]; intros i j Hij Ha Hb;
    [rewrite lookup_nil in Ha; discriminate|].
  destruct j as [|j]; [lia|]. destruct i as [|i]; simpl in *.
  - inversion Ha; subst. eapply (proj1 (Forall_forall _ _) Hx).
    eapply list_elem_of_lookup_2; eauto.
  - eapply (IH i j); [lia|assumption|assumption].
Qed.

Lemma laid_out_segmentable text bound l :
  laid_out bound l -> bound <= len text -> segmentable text l.
Proof.
  intros Hl Hb. pose proof (laid_out_sorted _ _ Hl) as Hs. destruct Hl as [Hd Hok].
  split; [|split].
  - eapply Forall_impl; [exact Hok|]. intros m [[H0 H1] H2]. simpl. lia.
  - apply StronglySorted_sorted_by_start, Hs.
  - intros i a b Ha Hb'.
    apply (StronglySorted_lookup_lt (fun a b => end_ a <= start b) l i (S i) a b Hd);
      [lia|exact Ha|exact Hb'].
Qed.

Lemma laid_out_mono bound bound' l : laid_out bound l -> bound <= bound' -> laid_out bound' l.
Proof.
  intros [Hd Hok] Hb. split; [exact Hd|].
  eapply Forall_impl; [exact Hok|]. intros m [H1 H2]. split; [exact H1|lia].
Qed.

(** X8: without a map, or with an empty one, the spans returned satisfy
    the precondition of the segmenter for the substituted text: inside the
    text, sorted by start, each ending before the next starts. *)
Theorem tag_driven_spans_are_segmentable originalText cleanText items syntheticMap :
  no_entries syntheticMap ->
  returns (fun fuel => convertBackendResponseToMatches fuel originalText cleanText items
                         syntheticMap)
    (segmentable cleanText).
Proof.
  intros Hno. apply (returns_intro _ _ (reconcile_fuel cleanText)).
  - intros fuel fuel' r. apply convert_mono.
  - apply convert_total.
  - intros fuel r H. apply convert_found in H as (found & -> & _ & _ & Hw).
    destruct (Hw Hno) as [li Hli].
    destruct (tag_loop_laid_out _ _ _ Hli) as (Hl & _ & He). cbn [fst snd] in *.
    rewrite (post_processing_laid_out _ _ Hl).
    assert (Hle : (li <= length cleanText)%nat).
    { pose proof Hli as Hli'.
      apply (exec_push_inv _ _ _ tagPattern_consumes
               (fun st => (st.1 <= length cleanText)%nat)) in Hli' as [Hr _];
        [exact Hr| |simpl; lia].
      intros st0 m0 _ _ _ Hb. exact Hb. }
    eapply laid_out_segmentable; [exact Hl|unfold len; lia].
Qed.

Lemma tag_driven_spans_are_segmentable_witness :
  returns (fun fuel => convertBackendResponseToMatches fuel (js "a@b.io sent 5551234567")
                         (js "<EMAIL> sent <PHONE_NUMBER>") [] None)
    (segmentable (js "<EMAIL> sent <PHONE_NUMBER>")).
Proof. apply tag_driven_spans_are_segmentable. left. reflexivity. Defined.

(** The scan of one entry with a non-empty token, started without spans,
    lays its spans out one after the other. *)
Lemma scan_entry_laid_out fuel cleanText original replacement st st' :
  replacement <> [] -> matches st = [] ->
  scan_entry fuel cleanText (original, replacement) st = Some st' ->
  exists bound, laid_out bound (matches st') /\ bound <= len cleanText.
Proof.
  intros Hne H0 H. unfold scan_entry in H. simpl in H.
  assert (Hpos : 0 < len replacement).
  { destruct replacement; [congruence|]. unfold len. simpl. lia. }
  apply (while_inv _ (fun s => laid_out (searchIndex s) (matches s)
                               /\ 0 <= searchIndex s <= len cleanText)) in H
    as [[Hl Hr] _].
  - exists (searchIndex st'). split; [exact Hl|lia].
  - intros s s' [Hl Hi] Hb.
    apply scan_body_Some in Hb as (Hg & Hx & Hc).
    destruct (index_in_range cleanText replacement s) as [Hlo Hhi]; [lia|exact Hx|].
    destruct Hc as [[_ ->]|[_ ->]]; cbn [searchIndex matches].
    + split; [eapply laid_out_mono; [exact Hl|lia]|lia].
    + split; [|lia]. eapply laid_out_snoc; [exact Hl| | |]; unfold accepted, span_ok;
        cbn [start end_]; lia.
  - cbn [searchIndex matches]. rewrite H0. pose proof (len_nonneg cleanText).
    split; [split; constructor|lia].
Qed.

(** X9: with a map of a single entry whose replacement token is not empty,
    the spans returned satisfy the precondition of the segmenter. *)
Theorem single_entry_spans_are_segmentable originalText cleanText items original replacement :
  replacement <> [] ->
  returns (fun fuel => convertBackendResponseToMatches fuel originalText cleanText items
                         (Some [(original, replacement)]))
    (segmentable cleanText).
Proof.
  intros Hne. apply (returns_intro _ _ (reconcile_fuel cleanText)).
  - intros fuel fuel' r. apply convert_mono.
  - apply convert_total.
  - intros fuel r H. rewrite convert_collect in H. unfold collect_matches in H.
    cbn [for_of] in H.
    destruct (scan_entry fuel cleanText (original, replacement) _) as [st|] eqn:Hst;
      [|discriminate].
    simpl in H. inversion H; subst r.
    apply scan_entry_laid_out in Hst as (bound & Hl & Hb); [|exact Hne|reflexivity].
    rewrite (post_processing_laid_out _ _ Hl). eapply laid_out_segmentable; eauto.
Qed.

Lemma single_entry_spans_are_segmentable_witness :
  returns (fun fuel => convertBackendResponseToMatches fuel (js "Ann met Ann")
                         (js "Eve met Eve") [] (Some [(js "Ann", js "Eve")]))
    (segmentable (js "Eve met Eve")).
Proof. apply single_entry_spans_are_segmentable. discriminate. Defined.

(** ** Runs of a character class *)

Lemma Matches_run text cs : forall n min i,
  (min <= n)%nat ->
  (forall k, (i <= k < i + n)%nat -> exists ch, text !! k = Some ch /\ cs ch = true) ->
  Matches text (Quant (CharSet cs) min None) i (i + n).
Proof.
  induction n as [|n IH]; intros min i Hmin Hch.
  - rewrite Nat.add_0_r. apply Matches_Quant_done. left. lia.
  - destruct (Hch i ltac:(lia)) as (ch & Hi & Hc).
    apply (Matches_Quant_more text (CharSet cs) min None i (S i) (i + S n)).
    + reflexivity.
    + econstructor; eauto.
    + intros _. lia.
    + replace (i + S n)%nat with (S i + n)%nat by lia. apply IH; [lia|].
      intros k Hk. apply Hch. lia.
Qed.

Lemma label_char_cases c : label_char c = true -> (65 <= c <= 90 \/ c = 95)%N.
Proof.
  unfold label_char, is_upper, code. intros H.
  apply orb_true_iff in H as [H|H].
  - apply andb_true_iff in H as [H1 H2]. apply N.leb_le in H1, H2. left. lia.
  - apply N.eqb_eq in H. right. exact H.
Qed.

Lemma tag_token_length label : length (js "<" ++ label ++ js ">") = (length label + 2)%nat.
Proof. rewrite !length_app. simpl. lia. Qed.

Lemma tag_token_open label : (js "<" ++ label ++ js ">") !! O = Some (code "<").
Proof. reflexivity. Qed.

Lemma tag_token_label label k : (k < length label)%nat ->
  (js "<" ++ label ++ js ">") !! S k = label !! k.
Proof.
  intros Hk. change ((label ++ js ">") !! k = label !! k). apply lookup_app_l. exact Hk.
Qed.

Lemma tag_token_close label :
  (js "<" ++ label ++ js ">") !! S (length label) = Some (code ">").
Proof.
  change ((label ++ js ">") !! length label = Some (code ">")).
  rewrite lookup_app_r by lia. rewrite Nat.sub_diag. reflexivity.
Qed.

(** ** The type of a span in the map-driven mode *)

Lemma test_bracketed_token label :
  label <> [] -> Forall (fun c => label_char c = true) label ->
  test bracketed_token (js "<" ++ label ++ js ">") = true.
Proof.
  intros Hne Hl. apply test_whole. unfold shape. cbn [seq]. rewrite tag_token_length.
  apply (Matches_Seq _ _ _ O 1%nat); [apply Matches_chr; split; [apply tag_token_open|reflexivity]|].
  apply (Matches_Seq _ _ _ 1%nat (1 + length label)%nat).
  - apply Matches_run.
    + destruct label; [congruence|simpl; lia].
    + intros k Hk. destruct k as [|k]; [lia|]. rewrite tag_token_label by lia.
      destruct (label !! k) as [ch|] eqn:Hch.
      * exists ch. split; [reflexivity|]. eapply (proj1 (Forall_lookup _ _) Hl); eauto.
      * apply lookup_ge_None in Hch. lia.
  - apply Matches_chr. split; [apply tag_token_close|lia].
Qed.

Lemma test_bracketed_token_open token :
  test bracketed_token token = true -> token !! O = Some (code "<").
Proof.
  intros H. apply test_whole in H. unfold shape in H. cbn [seq] in H.
  inversion H as [| |r1 r2 i1 j1 k1 Ha Hs| | | | | | | |]; subst.
  apply Matches_chr in Ha as [Hch _]. exact Hch.
Qed.

(** X10: a replacement token that is a bracketed tag gives its span the
    normalised label of the tag as type, whatever the original value is;
    the original value is not inspected. *)
Theorem classify_bracketed_token original label :
  label <> [] -> Forall (fun c => label_char c = true) label ->
  classify original (js "<" ++ label ++ js ">") = normalizeEntityType label.
Proof.
  intros Hne Hl. unfold classify. rewrite test_bracketed_token by assumption.
  f_equal. unfold slice, rel_index, len. rewrite tag_token_length.
  replace (1 <? 0) with false by reflexivity. replace (-1 <? 0) with true by reflexivity.
  replace (Z.to_nat (Z.min 1 (Z.of_nat (length label + 2)))) with 1%nat by lia.
  replace (Z.to_nat (Z.max (Z.of_nat (length label + 2) + -1) 0
                     - Z.min 1 (Z.of_nat (length label + 2)))) with (length label) by lia.
  change (js "<" ++ label ++ js ">") with (code "<" :: (label ++ js ">")).
  cbn [drop]. rewrite drop_0. apply take_app_length.
Qed.

Lemma classify_bracketed_token_witness :
  classify (js "4532-1234-5678-9012") (js "<" ++ js "EMAIL_ADDRESS" ++ js ">")
  = normalizeEntityType (js "EMAIL_ADDRESS").
Proof.
  apply classify_bracketed_token; [discriminate|].
  repeat constructor.
Defined.

Lemma find_from_char c l rest : forall k,
  Forall (fun x => x <> c) l -> find_from [c] (l ++ c :: rest) k = Some (k + length l)%nat.
Proof.
  induction l as [|x l IH]; intros k Hl; cbn [app find_from starts_with length].
  - rewrite N.eqb_refl. simpl. f_equal. lia.
  - inversion Hl; subst.
    replace (c =? x)%N with false by (symmetry; apply N.eqb_neq; congruence).
    simpl. rewrite IH by assumption. f_equal. lia.
Qed.

(** X11: a replacement token made of a label, one space and digits gives
    its span the normalised label as type, whatever the original value
    is. *)
Theorem classify_numbered_token original label digits :
  label <> [] -> Forall (fun c => label_char c = true) label ->
  digits <> [] -> Forall (fun c => is_digit c = true) digits ->
  classify original (label ++ js " " ++ digits) = normalizeEntityType label.
Proof.
  intros Hne Hl Hdne Hd. unfold classify.
  change (js " " ++ digits) with (code " " :: digits).
  assert (Hb : test bracketed_token (label ++ code " " :: digits) = false).
  { destruct (test bracketed_token _) eqn:Ht; [|reflexivity].
    apply test_bracketed_token_open in Ht. destruct label as [|c label]; [congruence|].
    simpl in Ht. inversion Ht as [Hc]. inversion Hl as [|? ? Hlc _]; subst.
    apply label_char_cases in Hlc. unfold code in Hlc. simpl in Hlc. lia. }
  assert (Hn : test numbered_token (label ++ code " " :: digits) = true).
  { apply test_whole. unfold shape. cbn [seq]. rewrite length_app. cbn [length].
    apply (Matches_Seq _ _ _ O (0 + length label)%nat).
    - apply Matches_run; [destruct label; [congruence|simpl; lia]|].
      intros k Hk. rewrite lookup_app_l by lia.
      destruct (label !! k) as [ch|] eqn:Hch.
      + exists ch. split; [reflexivity|]. eapply (proj1 (Forall_lookup _ _) Hl); eauto.
      + apply lookup_ge_None in Hch. lia.
    - apply (Matches_Seq _ _ _ _ (S (length label))).
      + apply Matches_chr. split; [|reflexivity].
        rewrite lookup_app_r by lia. replace (0 + length label - length label)%nat with O by lia.
        reflexivity.
      + replace (length label + S (length digits))%nat
          with (S (length label) + length digits)%nat by lia.
        apply Matches_run; [destruct digits; [congruence|simpl; lia]|].
        intros k Hk. rewrite lookup_app_r by lia.
        replace (k - length label)%nat with (S (k - S (length label))) by lia.
        change ((code " " :: digits) !! S (k - S (length label)))
          with (digits !! (k - S (length label))%nat).
        destruct (digits !! (k - S (length label))%nat) as [ch|] eqn:Hch.
        * exists ch. split; [reflexivity|]. eapply (proj1 (Forall_lookup _ _) Hd); eauto.
        * apply lookup_ge_None in Hch. lia. }
  rewrite Hb, Hn. f_equal. unfold split_first, indexOf.
  change (js " ") with [code " "].
  replace (Z.to_nat (Z.min (Z.max 0 0) (len (label ++ code " " :: digits)))) with O
    by (pose proof (len_nonneg (label ++ code " " :: digits)); lia).
  rewrite drop_0, find_from_char.
  2:{ eapply Forall_impl; [exact Hl|]. intros x Hx Heq. apply label_char_cases in Hx.
      subst x. unfold code in Hx. simpl in Hx. lia. }
  replace (Z.of_nat (0 + length label) =? -1) with false by (symmetry; apply Z.eqb_neq; lia).
  rewrite slice_in_range by (rewrite ?len_app; unfold len; simpl; lia).
  cbn [Z.to_nat]. rewrite drop_0.
  replace (Z.to_nat (Z.of_nat (0 + length label) - 0)) with (length label) by lia.
  apply take_app_length.
Qed.

Lemma classify_numbered_token_witness :
  classify (js "a@b.io") (js "PHONE_NUMBER" ++ js " " ++ js "12") = normalizeEntityType (js "PHONE_NUMBER").
Proof.
  apply classify_numbered_token; [discriminate|repeat constructor|discriminate|repeat constructor].
Defined.

(** ** Maps whose tokens are bracketed tags *)

(** The code units of an occurrence of a token. *)
Lemma slice_lookup text s token k :
  0 <= s -> s + len token <= len text -> slice text s (s + len token) = token ->
  (k < length token)%nat -> text !! (Z.to_nat s + k)%nat = token !! k.
Proof.
  intros H0 H1 Hs Hk. pose proof (len_nonneg token).
  rewrite slice_in_range in Hs by lia.
  replace (Z.to_nat (s + len token - s)) with (length token) in Hs by (unfold len; lia).
  transitivity (take (length token) (drop (Z.to_nat s) text) !! k).
  - rewrite lookup_take_lt by exact Hk. rewrite lookup_drop. reflexivity.
  - rewrite Hs. reflexivity.
Qed.

(** Two occurrences of bracketed tags in a text either start together and
    are equally long, or the first ends before the second starts. *)
Lemma tag_occurrences_apart text sa sb la lb :
  Forall (fun c => label_char c = true) la -> Forall (fun c => label_char c = true) lb ->
  0 <= sa -> sa + len (js "<" ++ la ++ js ">") <= len text ->
  slice text sa (sa + len (js "<" ++ la ++ js ">")) = js "<" ++ la ++ js ">" ->
  0 <= sb -> sb + len (js "<" ++ lb ++ js ">") <= len text ->
  slice text sb (sb + len (js "<" ++ lb ++ js ">")) = js "<" ++ lb ++ js ">" ->
  sa <= sb ->
  (sa = sb /\ length la = length lb) \/ sa + len (js "<" ++ la ++ js ">") <= sb.
Proof.
  intros Hla Hlb Ha0 Ha1 Ha Hb0 Hb1 Hb Hle.
  pose proof (fun k => slice_lookup text sa _ k Ha0 Ha1 Ha) as Hca.
  pose proof (fun k => slice_lookup text sb _ k Hb0 Hb1 Hb) as Hcb.
  unfold len in *. rewrite tag_token_length in *.
  assert (Hnot : forall l k ch, Forall (fun c => label_char c = true) l ->
                   l !! k = Some ch -> ch <> code "<" /\ ch <> code ">").
  { intros l k ch Hl Hk. pose proof (proj1 (Forall_lookup _ _) Hl k ch Hk) as Hc.
    apply label_char_cases in Hc. unfold code; simpl. lia. }
  destruct (decide (sa = sb)) as [->|Hne].
  - destruct (Nat.lt_trichotomy (length la) (length lb)) as [Hlt|[Heq|Hgt]].
    + exfalso. pose proof (Hca (S (length la)) ltac:(lia)) as H1.
      pose proof (Hcb (S (length la)) ltac:(lia)) as H2.
      rewrite tag_token_close in H1. rewrite tag_token_label in H2 by lia.
      rewrite H1 in H2. symmetry in H2. apply (Hnot _ _ _ Hlb) in H2. tauto.
    + left. auto.
    + exfalso. pose proof (Hca (S (length lb)) ltac:(lia)) as H1.
      pose proof (Hcb (S (length lb)) ltac:(lia)) as H2.
      rewrite tag_token_close in H2. rewrite tag_token_label in H1 by lia.
      rewrite H2 in H1. symmetry in H1. apply (Hnot _ _ _ Hla) in H1. tauto.
  - right. destruct (Z_lt_le_dec sb (sa + Z.of_nat (length la + 2))) as [Hin|Hout]; [|lia].
    exfalso. pose proof (Hcb O ltac:(lia)) as H2. rewrite tag_token_open in H2.
    pose proof (Hca (Z.to_nat (sb - sa)) ltac:(lia)) as H1.
    replace (Z.to_nat sa + Z.to_nat (sb - sa))%nat with (Z.to_nat sb + 0)%nat in H1 by lia.
    rewrite H2 in H1.
    destruct (Z.to_nat (sb - sa)) as [|k] eqn:Hk; [lia|].
    destruct (decide (k < length la)%nat) as [Hlt|Hge].
    + rewrite tag_token_label in H1 by lia. symmetry in H1.
      apply (Hnot _ _ _ Hla) in H1. tauto.
    + replace k with (length la) in H1 by lia. rewrite tag_token_close in H1. discriminate.
Qed.

(** X12: when every replacement token of the map is a bracketed tag, the
    spans returned satisfy the precondition of the segmenter: occurrences
    of such tokens cannot overlap, and equal ranges are claimed once. *)
Theorem tag_tokens_spans_are_segmentable originalText cleanText items entry entries :
  Forall (fun e => tag_token e.2) (entry :: entries) ->
  returns (fun fuel => convertBackendResponseToMatches fuel originalText cleanText items
                         (Some (entry :: entries)))
    (segmentable cleanText).
Proof.
  intros Htok. apply (returns_intro _ _ (reconcile_fuel cleanText)).
  - intros fuel fuel' r. apply convert_mono.
  - apply convert_total.
  - intros fuel r H. rewrite convert_collect in H.
    destruct (collect_matches fuel cleanText _) as [found|] eqn:Hc; [|discriminate].
    simpl in H. inversion H; subst r. clear H.
    pose proof (post_processing_sorted found) as Hsorted.
    pose proof (post_processing_distinct found (collect_distinct _ _ _ _ Hc)) as Hdistinct.
    assert (Hocc : Forall (fun m => 0 <= start m
                            /\ end_ m = start m + len (replacement m)
                            /\ end_ m <= len cleanText
                            /\ slice cleanText (start m) (end_ m) = replacement m
                            /\ tag_token (replacement m))
                     (filter_indexed differs_from_previous (sort by_start found))).
    { apply post_processing_keeps. revert Hc. apply collect_entries_Forall.
      intros o r index Hin H0 H1 Hs. unfold accepted; cbn [start end_ replacement].
      repeat (split; [assumption || reflexivity|]).
      apply (proj1 (Forall_forall _ _) Htok (o, r) Hin). }
    set (spans := filter_indexed differs_from_previous (sort by_start found)) in *.
    clearbody spans. split; [|split].
    + eapply Forall_impl; [exact Hocc|]. intros m (H0 & H1 & H2 & _).
      pose proof (len_nonneg (replacement m)). simpl. lia.
    + apply StronglySorted_sorted_by_start, Hsorted.
    + intros i a b Hia Hib.
      pose proof (StronglySorted_lookup_lt _ _ i (S i) a b Hsorted ltac:(lia) Hia Hib) as Hle.
      unfold start_le in Hle.
      pose proof (proj1 (Forall_lookup _ _) Hocc i a Hia)
        as (Ha0 & Ha1 & Ha2 & Ha3 & la & _ & Hla & Hra).
      pose proof (proj1 (Forall_lookup _ _) Hocc (S i) b Hib)
        as (Hb0 & Hb1 & Hb2 & Hb3 & lb & _ & Hlb & Hrb).
      rewrite Ha1 in Ha2, Ha3 |- *. rewrite Hb1 in Hb2, Hb3. rewrite Hra in *. rewrite Hrb in *.
      destruct (tag_occurrences_apart cleanText (start a) (start b) la lb
                  Hla Hlb Ha0 Ha2 Ha3 Hb0 Hb2 Hb3 Hle) as [[Hs Hl]|Hapart]; [|exact Hapart].
      exfalso. assert (Hij : i = S i); [|lia].
      eapply (NoDup_lookup _ i (S i) (range_of a) Hdistinct); rewrite list_lookup_fmap.
      * rewrite Hia. reflexivity.
      * rewrite Hib. simpl. unfold range_of. rewrite Ha1, Hb1, Hs.
        unfold len. rewrite !tag_token_length, Hl. reflexivity.
Qed.

Lemma tag_tokens_spans_are_segmentable_witness :
  returns (fun fuel => convertBackendResponseToMatches fuel (js "Ann wrote to a@b.io")
                         (js "<PERSON> wrote to <EMAIL>") []
                         (Some [(js "Ann", js "<PERSON>"); (js "a@b.io", js "<EMAIL>")]))
    (segmentable (js "<PERSON> wrote to <EMAIL>")).
Proof.
  apply tag_tokens_spans_are_segmentable.
  constructor; [|constructor; [|constructor]].
  - exists (js "PERSON"). split; [discriminate|]. split; [repeat constructor|reflexivity].
  - exists (js "EMAIL"). split; [discriminate|]. split; [repeat constructor|reflexivity].
Defined.

(** ** The segmenter on arbitrary spans *)

Lemma forEach_redacted text : forall (rest : list PIIMatch) i parts lastIndex,
  let st := forEach_indexed (render_match text) i rest (parts, lastIndex) in
  filter is_redacted st.1
  = filter is_redacted parts
    ++ imap (fun k m => RedactedPart (KeyRedacted (i + k)) (replacement m)) rest
  /\ (length st.1 <= length parts + 2 * length rest)%nat.
Proof.
  induction rest as [|m rest IH]; intros i parts lastIndex; cbn [forEach_indexed].
  - cbn [imap length]. rewrite app_nil_r. cbn [fst]. split; [reflexivity|lia].
  - cbn zeta in IH.
    destruct (IH (S i) (render_match text (parts, lastIndex) i m).1
                (render_match text (parts, lastIndex) i m).2) as [H1 H2].
    rewrite <- surjective_pairing in H1, H2. cbn zeta. split.
    + rewrite H1. unfold render_match; cbn [fst snd imap].
      rewrite Nat.add_0_r.
      assert (Hk : imap (fun k m0 => RedactedPart (KeyRedacted (S i + k)) (replacement m0)) rest
                   = imap ((fun k m0 => RedactedPart (KeyRedacted (i + k)) (replacement m0)) ∘ S)
                       rest).
      { apply imap_ext. intros k x _. simpl. do 2 f_equal. lia. }
      rewrite Hk.
      destruct (start m >? lastIndex); rewrite !filter_app; rewrite ?filter_cons; simpl;
        rewrite ?filter_nil, ?app_nil_r, <- ?app_assoc; reflexivity.
    + etransitivity; [exact H2|]. unfold render_match; cbn [fst snd length].
      destruct (start m >? lastIndex); rewrite !length_app; simpl; lia.
Qed.

(** X13: for a text that is not empty and any spans, at least one, in any
    order and whether or not they overlap or fit the text, the segmenter
    renders one highlighted part per span, in the order of the spans and
    showing the replacement value of each, and at most one plain part
    before each and one after the last. *)
Theorem RedactedText_one_part_per_span text spans isScanning :
  text <> [] -> spans <> [] ->
  exists parts,
    RedactedText text spans isScanning = Parts isScanning parts
    /\ filter is_redacted parts
       = imap (fun i m => RedactedPart (KeyRedacted i) (replacement m)) spans
    /\ (length parts <= 2 * length spans + 1)%nat.
Proof.
  intros Ht Hs. destruct text as [|c text]; [congruence|].
  destruct spans as [|m spans]; [congruence|].
  unfold RedactedText.
  destruct (forEach_redacted (c :: text) (m :: spans) O [] 0) as [H1 H2].
  cbn zeta in H1, H2.
  set (st := forEach_indexed (render_match (c :: text)) O (m :: spans) ([], 0)) in *.
  clearbody st. eexists. split; [reflexivity|]. cbn [length] in H2.
  destruct (st.2 <? len (c :: text)).
  - rewrite filter_app, H1. rewrite ?filter_cons; simpl.
    rewrite ?filter_nil, ?app_nil_r. split; [reflexivity|]. rewrite length_app. simpl. lia.
  - rewrite H1. split; [reflexivity|]. simpl. lia.
Qed.

Lemma RedactedText_one_part_per_span_witness :
  exists parts,
    RedactedText (js "ab") [ mkPIIMatch (js "T") (js "b") (js "<T>") 1 2;
                             mkPIIMatch (js "T") (js "ab") (js "<U>") 0 2 ] false
    = Parts false parts
    /\ filter is_redacted parts
       = imap (fun i m => RedactedPart (KeyRedacted i) (replacement m))
           [ mkPIIMatch (js "T") (js "b") (js "<T>") 1 2;
             mkPIIMatch (js "T") (js "ab") (js "<U>") 0 2 ]
    /\ (length parts <= 2 * 2 + 1)%nat.
Proof. apply RedactedText_one_part_per_span; discriminate. Defined.

(** ** The length of a normalised label *)

Lemma slice_length s a b : 0 <= a -> a <= b -> b <= len s -> len (slice s a b) = b - a.
Proof.
  intros H0 H1 H2. rewrite slice_in_range by assumption. unfold len in *.
  rewrite length_take, length_drop. lia.
Qed.

Lemma replace_length s pattern replacement :
  len replacement <= len pattern -> len (replace s pattern replacement) <= len s.
Proof.
  intros Hr. unfold replace.
  destruct (indexOf s pattern 0 =? -1) eqn:Hi; [lia|]. apply Z.eqb_neq in Hi.
  destruct (indexOf_range s pattern 0 _ eq_refl Hi) as [H1 H2].
  unfold clamp_position in H1. pose proof (len_nonneg s). pose proof (len_nonneg pattern).
  rewrite !len_app. unfold slice_from. rewrite !slice_length by lia. lia.
Qed.

(** X14: normalising a label never makes it longer. *)
Theorem normalizeEntityType_never_longer entityType :
  len (normalizeEntityType entityType) <= len entityType.
Proof.
  rewrite normalizeEntityType_rules.
  assert (Hrules : Forall (fun rule : jsstring * jsstring => len rule.2 <= len rule.1)
                     rewrite_rules).
  { repeat constructor; vm_compute; discriminate. }
  revert entityType. induction Hrules as [|rule rules Hr _ IH]; intros s; simpl; [lia|].
  etransitivity; [apply IH|]. apply replace_length, Hr.
Qed.

(** ** The events of the component *)

Section InteractionFacts.
Variable number : Type.

Lemma fallback_timeout_fields fuel text now date (s s' : ShieldState number) :
  fallback_timeout number fuel text now date s = Some s' ->
  exists found,
    detectPII fuel text = Some found
    /\ sanitizedText s' = text
    /\ currentMatches s' = found
    /\ history s' = mkEntry number now text found date :: history s
    /\ input s' = input s
    /\ auditStatus s' = idle
    /\ auditResult s' = auditResult s
    /\ isScanning number s' = false
    /\ apiError number s' = apiError number s.
Proof.
  unfold fallback_timeout. destruct (detectPII fuel text) as [found|]; [|discriminate].
  intros H; inversion H; subst s'. exists found.
  repeat (split; [reflexivity|]). reflexivity.
Qed.

Lemma apply_event_total e (s : ShieldState number) :
  exists s', apply_event number e s = Some s'.
Proof.
  destruct e as [|text now date response| |text now date| | | | | | | |];
    cbn [apply_event]; eauto.
  - destruct (sanitize_started number s); eauto.
  - unfold sanitize_resolved.
    destruct (convert_total text (clean_text response) (items response)
                (synthetic_map response)) as [r ->].
    simpl. eauto.
  - unfold fallback_timeout. destruct (detectPII_total text) as [r ->]. simpl. eauto.
Qed.

(** An event leaves the text and the spans on display as they are, or
    clears both, or sets both from one response or one input. *)
Lemma apply_event_display e (s s' : ShieldState number) :
  apply_event number e s = Some s' ->
  (sanitizedText s' = sanitizedText s /\ currentMatches s' = currentMatches s)
  \/ (sanitizedText s' = [] /\ currentMatches s' = [])
  \/ (exists fuel originalText items syntheticMap,
        convertBackendResponseToMatches fuel originalText (sanitizedText s') items syntheticMap
        = Some (currentMatches s'))
  \/ (exists fuel, detectPII fuel (sanitizedText s') = Some (currentMatches s')).
Proof.
  destruct e as [|text now date response|error|text now date|audit|chat|sample|value| | | |];
    cbn [apply_event]; intros H.
  - left. unfold sanitize_started in H. destruct (trim (input s));
      inversion H; subst s'; split; reflexivity.
  - right. right. left. apply sanitize_resolved_fields in H as (found & Hc & Ht & Hm & _).
    rewrite Ht, Hm. eauto.
  - left. inversion H; subst s'. split; reflexivity.
  - right. right. right. apply fallback_timeout_fields in H as (found & Hc & Ht & Hm & _).
    rewrite Ht, Hm. eauto.
  - left. inversion H; subst s'. destruct audit; [split; reflexivity|].
    destruct (audit_rejected_frame number e s) as (_ & _ & _ & H1 & H2 & _). auto.
  - left. inversion H; subst s'. destruct chat; split; reflexivity.
  - right. left. inversion H; subst s'. split; reflexivity.
  - inversion H; subst s'. unfold handleInputChange.
    destruct (trim value); [right; left|left]; split; reflexivity.
  - left. inversion H; subst s'. split; reflexivity.
  - right. left. inversion H; subst s'. split; reflexivity.
  - right. left. inversion H; subst s'. split; reflexivity.
  - left. inversion H; subst s'. unfold step_effect.
    destruct (_ && _); split; reflexivity.
Qed.

(** An event leaves the history as it is or puts one entry in front. *)
Lemma apply_event_history e (s s' : ShieldState number) :
  apply_event number e s = Some s' ->
  history s' = history s \/ exists entry, history s' = entry :: history s.
Proof.
  destruct e as [|text now date response|error|text now date|audit|chat|sample|value| | | |];
    cbn [apply_event]; intros H.
  - left. unfold sanitize_started in H. destruct (trim (input s));
      inversion H; subst s'; reflexivity.
  - right. apply sanitize_resolved_fields in H as (found & _ & _ & _ & Hh & _). eauto.
  - left. inversion H; subst s'. reflexivity.
  - right. apply fallback_timeout_fields in H as (found & _ & _ & _ & Hh & _). eauto.
  - left. inversion H; subst s'. destruct audit; [reflexivity|].
    destruct (audit_rejected_frame number e s) as (_ & _ & _ & _ & _ & H1 & _). auto.
  - left. inversion H; subst s'. destruct chat; reflexivity.
  - left. inversion H; subst s'. reflexivity.
  - left. inversion H; subst s'. unfold handleInputChange. destruct (trim value); reflexivity.
  - left. inversion H; subst s'. reflexivity.
  - left. inversion H; subst s'. reflexivity.
  - left. inversion H; subst s'. reflexivity.
  - left. inversion H; subst s'. unfold step_effect. destruct (_ && _); reflexivity.
Qed.

Lemma apply_event_inside e (s s' : ShieldState number) :
  apply_event number e s = Some s' ->
  spans_inside_text number s -> spans_inside_text number s'.
Proof.
  intros H Hs. unfold spans_inside_text in *.
  destruct (apply_event_display _ _ _ H) as [[-> ->]|[[-> ->]|[(fuel & o & i & m & Hc)|[fuel Hd]]]].
  - exact Hs.
  - constructor.
  - apply convert_found in Hc as (found & -> & Hp & _).
    apply post_processing_keeps. eapply Forall_impl; [exact Hp|].
    intros x (H0 & H1 & H2). pose proof (len_nonneg (replacement x)). simpl. lia.
  - apply detectPII_spans in Hd. eapply Forall_impl; [exact Hd|].
    intros x (H0 & H1 & _). simpl. lia.
Qed.

End InteractionFacts.

Lemma trim_start_blank l : Forall (fun c => is_space c = true) l -> trim_start l = [].
Proof.
  induction 1 as [|c l Hc _ IH]; [reflexivity|]. cbn [trim_start]. rewrite Hc. exact IH.
Qed.

Lemma trim_blank l : Forall (fun c => is_space c = true) l -> trim l = [].
Proof. intros H. unfold trim. rewrite (trim_start_blank _ H). reflexivity. Qed.

(** X15: whatever sequence of handler invocations, settled requests and
    fired timers the component goes through from its initial state, every
    event returns, and every span on display lies inside the sanitized text
    on display: the two are always written together. *)
Theorem spans_on_display_lie_inside_the_text (number : Type) (events : list (event number)) :
  exists s, apply_events number events (initial_state number) = Some s
            /\ spans_inside_text number s.
Proof.
  assert (Hgen : forall s0, spans_inside_text number s0 ->
            exists s, apply_events number events s0 = Some s /\ spans_inside_text number s).
  { induction events as [|e events IH]; intros s0 H0; [exists s0; split; [reflexivity|exact H0]|].
    destruct (apply_event_total number e s0) as [s1 H1].
    unfold apply_events. cbn [for_of]. rewrite H1. apply IH.
    eapply apply_event_inside; eauto. }
  apply Hgen. constructor.
Qed.

(** X16: no event removes or changes an entry of the history: after any
    sequence of events the history it started with is still there, behind
    the entries recorded since; clearing the form does not clear it. *)
Theorem history_only_grows (number : Type) (events : list (event number))
    (s : ShieldState number) :
  exists s', apply_events number events s = Some s'
             /\ history s `suffix_of` history s'.
Proof.
  revert s. induction events as [|e events IH]; intros s.
  - exists s. split; [reflexivity|]. exists []. reflexivity.
  - destruct (apply_event_total number e s) as [s1 H1].
    unfold apply_events. cbn [for_of]. rewrite H1.
    destruct (IH s1) as (s' & Hs' & Hsuf). exists s'. split; [exact Hs'|].
    etransitivity; [|exact Hsuf].
    destruct (apply_event_history number _ _ _ H1) as [->|[entry ->]].
    + reflexivity.
    + apply suffix_cons_r. reflexivity.
Qed.

(** X17: when the input is empty or holds white space only, the handler
    returns at once: the state is left as it is and no request outcome is
    looked at. *)
Theorem handleSanitize_ignores_blank_input (number : Type) fuel (now date : number)
    sanitize audit (s : ShieldState number) :
  Forall (fun c => is_space c = true) (input s) ->
  handleSanitize number fuel now date sanitize audit s = Some s.
Proof.
  intros Hb. unfold handleSanitize, sanitize_started. rewrite (trim_blank _ Hb). reflexivity.
Qed.

Lemma handleSanitize_ignores_blank_input_witness :
  handleSanitize Z 0 0 0 (Rejected (OtherValue [])) (Rejected (OtherValue []))
    (setInput Z (js "  ") (initial_state Z))
  = Some (setInput Z (js "  ") (initial_state Z)).
Proof. apply handleSanitize_ignores_blank_input. repeat constructor. Defined.

(** ** Whole runs of the submission handler *)

Lemma handleSanitize_mono (number : Type) (now date : number) sanitize audit
    (s : ShieldState number) fuel fuel' r :
  handleSanitize number fuel now date sanitize audit s = Some r -> (fuel <= fuel')%nat ->
  handleSanitize number fuel' now date sanitize audit s = Some r.
Proof.
  intros H Hf. unfold handleSanitize in *.
  destruct (sanitize_started number s) as [s1|]; [|exact H].
  destruct sanitize as [response|error].
  - unfold sanitize_resolved in *.
    destruct (convertBackendResponseToMatches fuel _ _ _ _) as [found|] eqn:Hc; [|discriminate].
    rewrite (convert_mono _ _ _ _ _ _ _ Hc Hf). exact H.
  - unfold fallback_timeout in *.
    destruct (detectPII fuel (input s)) as [found|] eqn:Hd; [|discriminate].
    rewrite (detectPII_mono _ _ _ _ Hd Hf). exact H.
Qed.

Lemma handleSanitize_total (number : Type) (now date : number) sanitize audit
    (s : ShieldState number) :
  exists fuel r, handleSanitize number fuel now date sanitize audit s = Some r.
Proof.
  unfold handleSanitize. destruct (sanitize_started number s) as [s1|]; [|exists O; eauto].
  destruct sanitize as [response|error].
  - exists (reconcile_fuel (clean_text response)). unfold sanitize_resolved.
    destruct (convert_total (input s) (clean_text response) (items response)
                (synthetic_map response)) as [r ->].
    simpl. eauto.
  - exists (length (input s) + 2)%nat. unfold fallback_timeout.
    destruct (detectPII_total (input s)) as [r ->]. simpl. eauto.
Qed.

(** A run of the handler whose sanitize request failed. *)
Lemma handleSanitize_rejected (number : Type) fuel (now date : number)
    (error : thrown) audit (s s' : ShieldState number) :
  trim (input s) <> [] ->
  handleSanitize number fuel now date (Rejected error) audit s = Some s' ->
  exists found,
    detectPII fuel (input s) = Some found
    /\ sanitizedText s' = input s
    /\ currentMatches s' = found
    /\ history s' = mkEntry number now (input s) found date :: history s
    /\ input s' = input s
    /\ isScanning number s' = false
    /\ auditStatus s' = idle
    /\ auditResult s' = None
    /\ apiError number s'
       = Some match error with
              | ErrorObject message => message
              | OtherValue _ => js "Backend unavailable - using demo mode"
              end.
Proof.
  intros Hin Hr. unfold handleSanitize in Hr.
  destruct (sanitize_started number s) as [s1|] eqn:Hs1.
  2:{ unfold sanitize_started in Hs1. destruct (trim (input s)); [congruence|discriminate]. }
  apply fallback_timeout_fields in Hr
    as (found & Hd & Ht & Hm & Hh & Hi & Hst & Hres & Hscan & Herr).
  assert (Hfields : history s1 = history s /\ input s1 = input s
                    /\ auditResult s1 = None).
  { unfold sanitize_started in Hs1. destruct (trim (input s)); [discriminate|].
    inversion Hs1; subst s1. repeat split; reflexivity. }
  destruct Hfields as (Hh1 & Hi1 & Hr1).
  exists found. split; [exact Hd|]. split; [exact Ht|]. split; [exact Hm|].
  split; [rewrite Hh; f_equal; exact Hh1|].
  split; [rewrite Hi; exact Hi1|]. split; [exact Hscan|]. split; [exact Hst|].
  split; [rewrite Hres; exact Hr1|]. rewrite Herr. destruct error; reflexivity.
Qed.

(** X18: when the sanitize request fails for an input that is not blank,
    the handler returns with the local detector's result: the text shown as
    sanitized is the input itself, unchanged, the spans are those of
    [detectPII] on it, one history entry is recorded, the audit is idle
    and without result whatever the audit service would have answered,
    and the error shown is the message of the error, or the demo-mode
    notice when what was thrown is not an error object. *)
Theorem sanitize_failure_shows_the_raw_input (number : Type) (now date : number)
    (error : thrown) audit (s : ShieldState number) :
  trim (input s) <> [] ->
  returns (fun fuel => handleSanitize number fuel now date (Rejected error) audit s)
    (fun s' =>
       sanitizedText s' = input s
       /\ returns (fun fuel => detectPII fuel (input s))
            (fun found => currentMatches s' = found
                          /\ history s' = mkEntry number now (input s) found date :: history s)
       /\ input s' = input s
       /\ isScanning number s' = false
       /\ auditStatus s' = idle
       /\ auditResult s' = None
       /\ apiError number s'
          = Some match error with
                 | ErrorObject message => message
                 | OtherValue _ => js "Backend unavailable - using demo mode"
                 end).
Proof.
  intros Hin. destruct (handleSanitize_total number now date (Rejected error) audit s)
    as (n & r & Hr).
  exists n, r. split; [intros fuel Hf; eapply handleSanitize_mono; eauto|].
  destruct (handleSanitize_rejected number _ _ _ _ _ _ _ Hin Hr)
    as (found & Hd & Ht & Hm & Hh & Hi & Hscan & Hst & Hres & Herr).
  split; [exact Ht|]. split.
  { exists n, found. split; [intros fuel Hf; eapply detectPII_mono; eauto|]. auto. }
  auto.
Qed.

Lemma sanitize_failure_shows_the_raw_input_witness :
  returns (fun fuel => handleSanitize Z fuel 0 0 (Rejected (ErrorObject (js "offline")))
                         (Rejected (OtherValue []))
                         (setInput Z (js "mail a@b.io") (initial_state Z)))
    (fun s' =>
       sanitizedText s' = js "mail a@b.io"
       /\ returns (fun fuel => detectPII fuel (js "mail a@b.io"))
            (fun found => currentMatches s' = found
                          /\ history s' = mkEntry Z 0 (js "mail a@b.io") found 0 :: [])
       /\ input s' = js "mail a@b.io"
       /\ isScanning Z s' = false
       /\ auditStatus s' = idle
       /\ auditResult s' = None
       /\ apiError Z s' = Some (js "offline")).
Proof.
  apply (sanitize_failure_shows_the_raw_input Z 0 0 (ErrorObject (js "offline"))
           (Rejected (OtherValue [])) (setInput Z (js "mail a@b.io") (initial_state Z))).
  vm_compute. discriminate.
Defined.

(** X19: when the sanitize request and the audit both succeed for an
    input that is not blank, the handler returns with the audit passed and
    its result stored, the sanitized text and the spans of the response on
    display, one history entry recorded and the input still in place. *)
Theorem audit_success_keeps_sanitized_output (number : Type) (now date : number)
    (response : SanitizeResponse number) (result : AuditResult number)
    (s : ShieldState number) :
  trim (input s) <> [] ->
  returns (fun fuel => handleSanitize number fuel now date (Resolved response)
                         (Resolved result) s)
    (fun s' =>
       auditStatus s' = passed
       /\ auditResult s' = Some result
       /\ sanitizedText s' = clean_text response
       /\ returns (fun fuel => convertBackendResponseToMatches fuel (input s)
                                 (clean_text response) (items response)
                                 (synthetic_map response))
            (fun found => currentMatches s' = found
                          /\ history s' = mkEntry number now (input s) found date :: history s)
       /\ input s' = input s
       /\ isScanning number s' = false
       /\ apiError number s' = None).
Proof.
  intros Hin. destruct (handleSanitize_total number now date (Resolved response)
                          (Resolved result) s) as (n & r & Hr).
  exists n, r. split; [intros fuel Hf; eapply handleSanitize_mono; eauto|].
  unfold handleSanitize in Hr.
  destruct (sanitize_started number s) as [s1|] eqn:Hs1.
  2:{ unfold sanitize_started in Hs1. destruct (trim (input s)); [congruence|discriminate]. }
  destruct (sanitize_resolved number n (input s) now date response s1) as [s2|] eqn:Hs2;
    [|discriminate].
  simpl in Hr. inversion Hr; subst r. clear Hr.
  assert (Hfields : history s1 = history s /\ input s1 = input s
                    /\ apiError number s1 = None).
  { unfold sanitize_started in Hs1. destruct (trim (input s)); [discriminate|].
    inversion Hs1; subst s1. repeat split; reflexivity. }
  destruct Hfields as (Hh1 & Hi1 & He1).
  assert (Hmore : isScanning number s2 = false /\ apiError number s2 = apiError number s1).
  { unfold sanitize_resolved in Hs2.
    destruct (convertBackendResponseToMatches n _ _ _ _); [|discriminate].
    inversion Hs2; subst s2. split; reflexivity. }
  destruct Hmore as (Hscan & Herr).
  apply sanitize_resolved_fields in Hs2 as (found & Hc & Ht & Hm & Hh & Hi).
  split; [reflexivity|]. split; [reflexivity|].
  split; [exact Ht|]. split.
  { exists n, found. split; [intros fuel Hf; eapply convert_mono; eauto|].
    split; [exact Hm|]. change (history s2 = mkEntry number now (input s) found date :: history s).
    rewrite Hh. f_equal. exact Hh1. }
  split; [change (input s2 = input s); rewrite Hi; exact Hi1|].
  split; [exact Hscan|]. change (apiError number s2 = None). rewrite Herr. exact He1.
Qed.

Lemma audit_success_keeps_sanitized_output_witness :
  returns (fun fuel => handleSanitize Z fuel 0 0
                         (Resolved (mkResponse Z (js "mail <EMAIL>") [] 0 None))
                         (Resolved (mkAudit Z 0 0 []))
                         (setInput Z (js "mail a@b.io") (initial_state Z)))
    (fun s' =>
       auditStatus s' = passed
       /\ auditResult s' = Some (mkAudit Z 0 0 [])
       /\ sanitizedText s' = js "mail <EMAIL>"
       /\ returns (fun fuel => convertBackendResponseToMatches fuel (js "mail a@b.io")
                                 (js "mail <EMAIL>") [] None)
            (fun found => currentMatches s' = found
                          /\ history s' = mkEntry Z 0 (js "mail a@b.io") found 0 :: [])
       /\ input s' = js "mail a@b.io"
       /\ isScanning Z s' = false
       /\ apiError Z s' = None).
Proof.
  apply (audit_success_keeps_sanitized_output Z 0 0 (mkResponse Z (js "mail <EMAIL>") [] 0 None)
           (mkAudit Z 0 0 []) (setInput Z (js "mail a@b.io") (initial_state Z))).
  vm_compute. discriminate.
Defined.

(** ** The API client *)


Lemma backoff_succ baseDelayMs k :
  0 <= k -> backoff baseDelayMs (k + 1) = backoff baseDelayMs k ++ [baseDelayMs * 2 ^ k].
Proof.
  intros Hk. unfold backoff. rewrite seqZ_app by lia. rewrite fmap_app. f_equal.
Qed.



Section ApiFacts.
Variable NEXT_PUBLIC_API_BASE : option jsstring.
Context {T : Type}.
Variables (fetch : Z -> fetched T) (retries baseDelayMs : Z).

(** The loop, entered at an iteration inside the range after failed
    attempts only: it goes on to the first attempt that returns or to the
    last attempt. *)
Lemma apiFetch_loop_spec : forall n attempt_index lastError,
  Z.to_nat (retries - attempt_index) = n -> 0 <= attempt_index <= retries ->
  all_fail fetch attempt_index ->
  exists result k,
    (forall fuel, (n < fuel)%nat ->
       apiFetch_loop NEXT_PUBLIC_API_BASE fuel fetch retries baseDelayMs attempt_index
         lastError (backoff baseDelayMs attempt_index)
       = Some (result, backoff baseDelayMs k))
    /\ attempt_index <= k <= retries /\ all_fail fetch k
    /\ match attempt (fetch k) with
       | inl promise => result = promise
       | inr error =>
           k = retries
           /\ result = RejectedWith (normalizeFetchError NEXT_PUBLIC_API_BASE error)
       end.
Proof.
  induction n as [|n IH]; intros a lastError Hn Ha Hfail.
  - assert (a = retries) as -> by lia.
    destruct (attempt (fetch retries)) as [promise|error] eqn:Hat.
    + exists promise, retries. rewrite Hat. split; [|split; [lia|split; [exact Hfail|reflexivity]]].
      intros [|fuel] Hf; [lia|]. cbn [apiFetch_loop]. rewrite Z.leb_refl, Hat. reflexivity.
    + exists (RejectedWith (normalizeFetchError NEXT_PUBLIC_API_BASE error)), retries.
      rewrite Hat. split; [|split; [lia|split; [exact Hfail|split; reflexivity]]].
      intros [|fuel] Hf; [lia|]. cbn [apiFetch_loop]. rewrite Z.leb_refl, Hat.
      replace (retries >=? retries) with true by (symmetry; apply Z.geb_le; lia).
      reflexivity.
  - destruct (attempt (fetch a)) as [promise|error] eqn:Hat.
    + exists promise, a. rewrite Hat. split; [|split; [lia|split; [exact Hfail|reflexivity]]].
      intros [|fuel] Hf; [lia|]. cbn [apiFetch_loop].
      replace (a <=? retries) with true by (symmetry; apply Z.leb_le; lia).
      rewrite Hat. reflexivity.
    + destruct (IH (a + 1) error) as (result & k & Hrun & Hk & Hfk & Hres); [lia|lia| |].
      { intros i Hi. destruct (decide (i = a)) as [->|Hne]; [eauto|]. apply Hfail. lia. }
      exists result, k. split; [|split; [lia|split; [exact Hfk|exact Hres]]].
      intros [|fuel] Hf; [lia|]. cbn [apiFetch_loop].
      replace (a <=? retries) with true by (symmetry; apply Z.leb_le; lia).
      rewrite Hat.
      replace (a >=? retries) with false
        by (symmetry; apply not_true_is_false; rewrite Z.geb_le; lia).
      rewrite <- backoff_succ by lia. apply Hrun. lia.
Qed.

Lemma apiFetch_spec :
  0 <= retries ->
  exists result k,
    (forall fuel, (Z.to_nat retries < fuel)%nat ->
       apiFetch NEXT_PUBLIC_API_BASE fuel fetch retries baseDelayMs
       = Some (result, backoff baseDelayMs k))
    /\ 0 <= k <= retries /\ all_fail fetch k
    /\ match attempt (fetch k) with
       | inl promise => result = promise
       | inr error =>
           k = retries
           /\ result = RejectedWith (normalizeFetchError NEXT_PUBLIC_API_BASE error)
       end.
Proof.
  intros Hr. unfold apiFetch.
  destruct (apiFetch_loop_spec (Z.to_nat retries) 0 (NonError (js "undefined")))
    as (result & k & Hrun & Hk & Hfail & Hres); [f_equal; lia|lia|intros i Hi; lia|].
  exists result, k. auto.
Qed.

(** Two attempts that do not reach the [catch] after failures only are
    the same attempt. *)
Lemma first_return_unique k k' promise promise' :
  all_fail fetch k -> all_fail fetch k' -> 0 <= k -> 0 <= k' ->
  attempt (fetch k) = inl promise -> attempt (fetch k') = inl promise' -> k = k'.
Proof.
  intros Hk Hk' H0 H0' Ha Ha'.
  destruct (Z.lt_trichotomy k k') as [Hlt|[Heq|Hgt]]; [|exact Heq|].
  - destruct (Hk' k ltac:(lia)) as [e He]. congruence.
  - destruct (Hk k' ltac:(lia)) as [e He]. congruence.
Qed.

End ApiFacts.

Lemma normalizeFetchError_is_error env error :
  exists message, normalizeFetchError env error = ErrorValue message.
Proof.
  unfold normalizeFetchError. destruct (_ || _) eqn:Hnet; [eauto|].
  destruct error as [m|m|v]; [discriminate|eauto|eauto].
Qed.

(** X20: the first attempt whose response is ok ends the call: the
    promise returned settles as [response.json()] of that response does,
    fulfilled or rejected, a rejection being passed on as it is; the waits
    made before it are the base delay doubled from one attempt to the
    next. *)
Theorem apiFetch_returns_the_first_ok_response env (T : Type) (fetch : Z -> fetched T)
    retries baseDelayMs k response :
  0 <= k <= retries -> all_fail fetch k ->
  fetch k = FetchResolved response -> response_ok response = true ->
  returns (fun fuel => apiFetch env fuel fetch retries baseDelayMs)
    (fun r => r = (response_json response, backoff baseDelayMs k)).
Proof.
  intros Hk Hfail Hf Hok.
  assert (Hat : attempt (fetch k) = inl (response_json response)).
  { rewrite Hf. unfold attempt. rewrite Hok. reflexivity. }
  destruct (apiFetch_spec env fetch retries baseDelayMs ltac:(lia))
    as (result & k' & Hrun & Hk' & Hfail' & Hres).
  exists (S (Z.to_nat retries)), (result, backoff baseDelayMs k').
  split; [intros fuel Hfuel; apply Hrun; lia|].
  destruct (attempt (fetch k')) as [promise|error] eqn:Hat'.
  - assert (k = k') as <- by (eapply first_return_unique; eauto; lia).
    rewrite Hat in Hat'. inversion Hat'; subst. reflexivity.
  - destruct Hres as [-> _]. exfalso.
    destruct (decide (k = retries)) as [->|Hne]; [congruence|].
    destruct (Hfail' k ltac:(lia)) as [e He]. congruence.
Qed.

Lemma apiFetch_returns_the_first_ok_response_witness :
  returns (fun fuel => getStats None fuel
             (fun i => if i =? 0 then FetchRejected (TypeErrorValue (js "Failed to fetch"))
                       else FetchResolved (mkHttp true 200 None (Fulfilled 7))))
    (fun r => r = (Fulfilled 7, backoff 250 1)).
Proof.
  apply (apiFetch_returns_the_first_ok_response None Z _ 1 250 1
           (mkHttp true 200 None (Fulfilled 7))).
  - lia.
  - intros i Hi. assert (i = 0) as -> by lia. simpl. eauto.
  - reflexivity.
  - reflexivity.
Defined.

(** X21: when every attempt fails, the last with counter [retries], the
    call rejects with [normalizeFetchError] of what the last attempt
    caught, which is an [Error] with a message and never a [TypeError];
    its waits are the base delay doubled [retries] times. *)
Theorem apiFetch_rejects_after_the_last_attempt env (T : Type) (fetch : Z -> fetched T)
    retries baseDelayMs error :
  0 <= retries -> all_fail fetch retries -> attempt (fetch retries) = inr error ->
  returns (fun fuel => apiFetch env fuel fetch retries baseDelayMs)
    (fun r => r = (RejectedWith (normalizeFetchError env error), backoff baseDelayMs retries)
              /\ exists message, normalizeFetchError env error = ErrorValue message).
Proof.
  intros Hr Hfail Hat.
  destruct (apiFetch_spec env fetch retries baseDelayMs Hr)
    as (result & k & Hrun & Hk & Hfail' & Hres).
  exists (S (Z.to_nat retries)), (result, backoff baseDelayMs k).
  split; [intros fuel Hfuel; apply Hrun; lia|].
  split; [|apply normalizeFetchError_is_error].
  destruct (attempt (fetch k)) as [promise|error'] eqn:Hat'.
  - exfalso. destruct (decide (k = retries)) as [->|Hne]; [congruence|].
    destruct (Hfail k ltac:(lia)) as [e He]. congruence.
  - destruct Hres as [-> ->]. rewrite Hat in Hat'. inversion Hat'; subst. reflexivity.
Qed.

Lemma apiFetch_rejects_after_the_last_attempt_witness :
  returns (fun fuel => getStats (T := Z) None fuel (fun _ => FetchResolved (mkHttp false 429 None (Fulfilled 0))))
    (fun r => r = (RejectedWith (normalizeFetchError None
                     (ErrorValue (js "Rate limit exceeded. Please try again later."))),
                   backoff 250 1)
              /\ exists message,
                   normalizeFetchError None
                     (ErrorValue (js "Rate limit exceeded. Please try again later."))
                   = ErrorValue message).
Proof.
  apply (apiFetch_rejects_after_the_last_attempt None Z _ 1 250).
  - lia.
  - intros i Hi. simpl. eauto.
  - reflexivity.
Defined.



(** ** The client and the handler together *)

Lemma occurs_in_app_r c pattern a b :
  c ∉ a -> occurs_in (c :: pattern) (a ++ b) -> occurs_in (c :: pattern) b.
Proof.
  intros Hc (before & after & H). revert before H.
  induction a as [|x a IH]; intros before H; [exists before, after; exact H|].
  destruct before as [|y before]; simpl in H; inversion H; subst.
  - exfalso. apply Hc. left.
  - apply (IH ltac:(intros Hin; apply Hc; right; exact Hin) before). assumption.
Qed.

(** With no retries the call settles with the outcome of its one
    attempt. *)
Lemma apiFetch_once env (T : Type) (fetch : Z -> fetched T) baseDelayMs fuel :
  apiFetch env (S fuel) fetch 0 baseDelayMs
  = Some (match attempt (fetch 0) with
          | inl promise => promise
          | inr error => RejectedWith (normalizeFetchError env error)
          end, []).
Proof.
  unfold apiFetch. cbn [apiFetch_loop]. cbn [Z.leb Z.compare].
  destruct (attempt (fetch 0)); reflexivity.
Qed.

Lemma rate_limit_error_kept env :
  normalizeFetchError env (ErrorValue (js "Rate limit exceeded. Please try again later."))
  = ErrorValue (js "Rate limit exceeded. Please try again later.").
Proof.
  unfold normalizeFetchError.
  replace (_ || _) with false; [reflexivity|]. vm_compute. reflexivity.
Qed.

Lemma server_error_kept env errorText :
  ~ occurs_in (js "NetworkError") errorText -> ~ occurs_in (js "Load failed") errorText ->
  normalizeFetchError env (ErrorValue (js "API error (500): " ++ errorText))
  = ErrorValue (js "API error (500): " ++ errorText).
Proof.
  intros Hn Hl. unfold normalizeFetchError.
  replace (_ || _) with false; [reflexivity|]. symmetry.
  apply orb_false_iff. split; [apply orb_false_iff; split; [apply orb_false_iff; split|]|].
  - reflexivity.
  - apply bool_decide_eq_false. discriminate.
  - apply not_true_is_false. rewrite includes_occurs_in. intros H. apply Hn.
    eapply occurs_in_app_r; [|exact H]. vm_compute. intros Hin.
    repeat (apply elem_of_cons in Hin as [Hin|Hin]; [discriminate|]). inversion Hin.
  - apply not_true_is_false. rewrite includes_occurs_in. intros H. apply Hl.
    eapply occurs_in_app_r; [|exact H]. vm_compute. intros Hin.
    repeat (apply elem_of_cons in Hin as [Hin|Hin]; [discriminate|]). inversion Hin.
Qed.

(** X23: when the audit service answers with HTTP status 429, or with
    status 500 and an error text that mentions neither "NetworkError" nor
    "Load failed", the audit is shown as rate limited, not as failed. *)
Theorem audit_http_errors_show_as_rate_limited env (number : Type)
    (response : Response (AuditResult number)) (s : ShieldState number) :
  response_ok response = false ->
  response_status response = 429
  \/ (response_status response = 500
      /\ forall errorText, response_text response = Some errorText ->
           ~ occurs_in (js "NetworkError") errorText
           /\ ~ occurs_in (js "Load failed") errorText) ->
  returns (fun fuel => auditText env fuel (fun _ => FetchResolved response))
    (fun r => auditStatus (audit_settled number (to_outcome r.1) s) = rate_limited).
Proof.
  intros Hok Hstatus. eexists 1%nat, _. split.
  { intros [|fuel] Hf; [lia|]. unfold auditText. rewrite apiFetch_once. reflexivity. }
  cbn [fst]. unfold attempt. rewrite Hok. cbn [negb].
  assert (Hlimited : forall msg,
            includes msg (js "429") || includes msg (js "rate")
            || includes msg (js "limit") || includes msg (js "500") = true ->
            auditStatus (audit_settled number (to_outcome (T := AuditResult number)
                           (RejectedWith (ErrorValue msg))) s) = rate_limited).
  { intros msg Hm. unfold to_outcome, to_thrown, audit_settled, message_of.
    rewrite Hm. reflexivity. }
  destruct Hstatus as [->|[-> Htext]].
  - cbn [Z.eqb Pos.eqb]. rewrite rate_limit_error_kept. apply Hlimited.
    vm_compute. reflexivity.
  - cbn [Z.eqb Pos.eqb].
    set (errorText := match response_text response with
                      | Some t => t
                      | None => js "Unknown error"
                      end).
    assert (Hclean : ~ occurs_in (js "NetworkError") errorText
                     /\ ~ occurs_in (js "Load failed") errorText).
    { unfold errorText. destruct (response_text response) as [t|]; [apply Htext; reflexivity|].
      split; intros H; apply occurs_in_indexOf in H; apply H; vm_compute; reflexivity. }
    change (js "API error (" ++ Number_toString 500 ++ js "): " ++ errorText)
      with (js "API error (500): " ++ errorText).
    rewrite server_error_kept by tauto. apply Hlimited.
    apply orb_true_iff. right. apply includes_occurs_in.
    exists (js "API error ("), (js "): " ++ errorText). reflexivity.
Qed.

Lemma audit_http_errors_show_as_rate_limited_witness :
  returns (fun fuel => auditText None fuel
             (fun _ => FetchResolved (mkHttp false 500 (Some (js "Internal Server Error"))
                                        (RejectedWith (NonError [])))))
    (fun r => auditStatus (audit_settled Z (to_outcome r.1) (initial_state Z)) = rate_limited).
Proof.
  apply (audit_http_errors_show_as_rate_limited None Z
           (mkHttp false 500 (Some (js "Internal Server Error")) (RejectedWith (NonError [])))
           (initial_state Z)).
  - reflexivity.
  - right. split; [reflexivity|]. intros errorText H. inversion H; subst errorText.
    split; intros Ho; apply occurs_in_indexOf in Ho; apply Ho; vm_compute; reflexivity.
Defined.

(** X24: when the sanitize request of an input that is not blank cannot
    reach the backend, [fetch] rejecting with a [TypeError], the handler
    falls back to the local detector: the error shown names the API base,
    and the text shown as sanitized is the input itself. *)
Theorem unreachable_backend_shows_the_raw_input env (number : Type) (now date : number)
    message audit (s : ShieldState number) :
  trim (input s) <> [] ->
  returns (fun fuel => sanitizeText (T := SanitizeResponse number) env fuel
                         (fun _ => FetchRejected (TypeErrorValue message)))
    (fun r =>
       returns (fun fuel => handleSanitize number fuel now date (to_outcome r.1) audit s)
         (fun s' =>
            apiError number s'
            = Some (js "Cannot reach the API at " ++ API_BASE env
                    ++ js ". Ensure the backend is running (e.g. `uvicorn app.main:app`) and reachable.")
            /\ sanitizedText s' = input s
            /\ auditStatus s' = idle)).
Proof.
  intros Hin. eexists 1%nat, _. split.
  { intros [|fuel] Hf; [lia|]. unfold sanitizeText. rewrite apiFetch_once. reflexivity. }
  cbn [fst attempt]. unfold normalizeFetchError. cbn [orb]. cbn [to_outcome to_thrown].
  set (msg := js "Cannot reach the API at " ++ API_BASE env ++ _).
  destruct (handleSanitize_total number now date (Rejected (ErrorObject msg)) audit s)
    as (n & r & Hr).
  exists n, r. split; [intros fuel Hf; eapply handleSanitize_mono; eauto|].
  destruct (handleSanitize_rejected number _ _ _ _ _ _ _ Hin Hr)
    as (found & _ & Ht & _ & _ & _ & _ & Hst & _ & Herr).
  auto.
Qed.

Lemma unreachable_backend_shows_the_raw_input_witness :
  returns (fun fuel => sanitizeText (T := SanitizeResponse Z) None fuel
                         (fun _ => FetchRejected (TypeErrorValue (js "Failed to fetch"))))
    (fun r =>
       returns (fun fuel => handleSanitize Z fuel 0 0 (to_outcome r.1)
                              (Rejected (OtherValue []))
                              (setInput Z (js "mail a@b.io") (initial_state Z)))
         (fun s' =>
            apiError Z s'
            = Some (js "Cannot reach the API at " ++ API_BASE None
                    ++ js ". Ensure the backend is running (e.g. `uvicorn app.main:app`) and reachable.")
            /\ sanitizedText s' = js "mail a@b.io"
            /\ auditStatus s' = idle)).
Proof.
  apply (unreachable_backend_shows_the_raw_input None Z 0 0 (js "Failed to fetch")
           (Rejected (OtherValue [])) (setInput Z (js "mail a@b.io") (initial_state Z))).
  vm_compute. discriminate.
Defined.

(** ** The threat summary *)



Lemma Map_get_None {V : Type} (m : list (jsstring * V)) key :
  Map_get m key = None <-> key ∉ m.*1.
Proof.
  induction m as [|[k v] m IH]; cbn [Map_get fmap list_fmap fst].
  - split; [intros _ Hin; inversion Hin|reflexivity].
  - destruct (decide (k = key)) as [->|Hk].
    + split; [discriminate|]. intros Hn. exfalso. apply Hn. left.
    + rewrite IH. split.
      * intros Hn Hin. apply elem_of_cons in Hin as [->|Hin]; [congruence|contradiction].
      * intros Hn Hin. apply Hn. right. exact Hin.
Qed.




(** ** The step indicator *)

Lemma findIndex_from_lookup (steps : list jsstring) activeStep : forall k j,
  NoDup steps -> steps !! k = Some activeStep ->
  findIndex_from (fun step => bool_decide (step = activeStep)) steps j = j + Z.of_nat k.
Proof.
  induction steps as [|x steps IH]; intros k j Hn Hk; [rewrite lookup_nil in Hk; discriminate|].
  apply NoDup_cons in Hn as [Hx Hn]. cbn [findIndex_from]. destruct k as [|k].
  - inversion Hk; subst x. rewrite bool_decide_eq_true_2 by reflexivity. lia.
  - change (steps !! k = Some activeStep) in Hk.
    rewrite bool_decide_eq_false_2.
    + rewrite (IH k (j + 1) Hn Hk). lia.
    + intros ->. apply Hx. eapply list_elem_of_lookup_2; eauto.
Qed.

(** X26: for steps with distinct ids of which the one at position [k] is
    the active one, the indicator shows every step listed as unavailable
    with the unavailable look, also the active one; of the others it
    shows the step at [k] as active, the steps before it as completed and
    the steps after it as pending; the connectors before position [k] are
    lit, the others are not, and the last step has none. *)
Theorem StepIndicator_marks_progress steps activeStep unavailableSteps k :
  NoDup steps -> steps !! k = Some activeStep ->
  StepIndicator steps activeStep unavailableSteps
  = imap (fun i step =>
            (expected_style unavailableSteps k i step,
             if decide (S i < length steps)%nat then Some (bool_decide (i < k)%nat) else None))
      steps.
Proof.
  intros Hn Hk. unfold StepIndicator, findIndex.
  rewrite (findIndex_from_lookup _ _ k 0 Hn Hk). apply imap_ext. intros i step Hi. cbn zeta.
  f_equal.
  - unfold expected_style. destruct (bool_decide (step ∈ unavailableSteps)); [reflexivity|].
    destruct (decide (i = k)) as [->|Hne].
    + rewrite Hk in Hi. inversion Hi; subst step.
      rewrite bool_decide_eq_true_2 by reflexivity. reflexivity.
    + rewrite bool_decide_eq_false_2.
      2:{ intros ->. apply Hne. eapply NoDup_lookup; eauto. }
      destruct (decide (i < k)%nat) as [Hlt|Hge].
      * replace (Z.of_nat i <? 0 + Z.of_nat k) with true by (symmetry; apply Z.ltb_lt; lia).
        reflexivity.
      * replace (Z.of_nat i <? 0 + Z.of_nat k) with false by (symmetry; apply Z.ltb_ge; lia).
        reflexivity.
  - destruct (decide (S i < length steps)%nat) as [Hlt|Hge].
    + replace (Z.of_nat i <? Z.of_nat (length steps) - 1) with true
        by (symmetry; apply Z.ltb_lt; lia).
      f_equal. destruct (decide (i < k)%nat) as [Hik|Hik].
      * rewrite bool_decide_eq_true_2 by exact Hik. apply Z.ltb_lt. lia.
      * rewrite bool_decide_eq_false_2 by exact Hik. apply Z.ltb_ge. lia.
    + replace (Z.of_nat i <? Z.of_nat (length steps) - 1) with false
        by (symmetry; apply Z.ltb_ge; lia).
      reflexivity.
Qed.

Lemma StepIndicator_marks_progress_witness :
  StepIndicator [js "sanitize"; js "verify"; js "forward"] (js "verify")
    [js "verify"; js "forward"]
  = [ (StyleCompleted, Some true); (StyleUnavailable, Some false); (StyleUnavailable, None) ].
Proof.
  eapply eq_trans; [apply (StepIndicator_marks_progress _ _ _ 1%nat)|].
  - repeat (apply NoDup_cons_2;
            [intros Hin; repeat (apply elem_of_cons in Hin as [Hin|Hin]; [discriminate|]);
             inversion Hin|]).
    apply NoDup_nil_2.
  - reflexivity.
  - vm_compute. reflexivity.
Defined.

(** ** Position keys *)

Lemma pretty_N_go_no_dash x : forall s,
  "-"%char ∉ list_ascii_of_string s -> "-"%char ∉ list_ascii_of_string (pretty_N_go x s).
Proof.
  induction (N.lt_wf_0 x) as [x _ IH]; intros s Hs.
  assert (x = 0 \/ 0 < x)%N as [->|Hx] by lia.
  - rewrite pretty_N_go_0. exact Hs.
  - rewrite pretty_N_go_step by exact Hx. apply IH; [apply N.div_lt; [exact Hx|reflexivity]|].
    cbn [list_ascii_of_string]. intros Hin. apply elem_of_cons in Hin as [Heq|Hin]; [|contradiction].
    revert Heq. unfold pretty_N_char. repeat case_match; discriminate.
Qed.

Lemma Number_toString_no_dash z : 0 <= z -> code "-" ∉ Number_toString z.
Proof.
  intros Hz Hin. unfold Number_toString, js in Hin.
  apply list_elem_of_fmap in Hin as (a & Ha & Hin).
  assert (a = "-"%char) as ->.
  { rewrite <- (ascii_N_embedding a), <- Ha. reflexivity. }
  revert Hin. destruct z as [|p|p]; [| |lia].
  - vm_compute. intros Hin. apply elem_of_cons in Hin as [Hin|Hin]; [discriminate|inversion Hin].
  - unfold pretty, pretty_Z, pretty, pretty_positive, pretty, pretty_N.
    destruct (decide (N.pos p = 0%N)); [discriminate|].
    apply pretty_N_go_no_dash. cbn. intros Hin. inversion Hin.
Qed.

Lemma app_sep_inj (c : N) : forall l1 l2 r1 r2,
  c ∉ l1 -> c ∉ l2 -> l1 ++ c :: r1 = l2 ++ c :: r2 -> l1 = l2 /\ r1 = r2.
Proof.
  induction l1 as [|x l1 IH]; intros [|y l2] r1 r2 H1 H2 H; simpl in H; inversion H; subst.
  - auto.
  - exfalso. apply H2. left.
  - exfalso. apply H1. left.
  - destruct (IH l2 r1 r2) as [-> ->]; auto.
    + intros Hin. apply H1. right. exact Hin.
    + intros Hin. apply H2. right. exact Hin.
Qed.

Lemma js_inj s s' : js s = js s' -> s = s'.
Proof.
  unfold js. intros H.
  rewrite <- (string_of_list_ascii_of_string s), <- (string_of_list_ascii_of_string s').
  f_equal. revert H. generalize (list_ascii_of_string s) (list_ascii_of_string s').
  induction l as [|a l IH]; intros [|b l'] H; simpl in H; inversion H; [reflexivity|].
  f_equal; [|apply IH; assumption].
  rewrite <- (ascii_N_embedding a), <- (ascii_N_embedding b). congruence.
Qed.

(** The key of a range that starts at an offset determines the range. *)
Lemma posKey_inj a b a' b' :
  0 <= a -> 0 <= a' -> posKey a b = posKey a' b' -> a = a' /\ b = b'.
Proof.
  intros Ha Ha' H. unfold posKey in H. change (js "-") with [code "-"] in H. cbn [app] in H.
  apply app_sep_inj in H as [H1 H2]; try (apply Number_toString_no_dash; assumption).
  unfold Number_toString in H1, H2. apply js_inj in H1, H2.
  split; eapply (inj pretty); eassumption.
Qed.

(** ** Tokens that occur are reported *)

(** One iteration keeps the link between claimed ranges and spans. *)
Lemma scan_body_claims cleanText value token st st' :
  claims_inv cleanText st -> 0 <= searchIndex st ->
  scan_body cleanText value token st = Some st' ->
  claims_inv cleanText st'.
Proof.
  intros [Hpp Hocc] H0 Hb. apply scan_body_Some in Hb as (Hg & Hne & Hc).
  destruct (index_in_range cleanText token st) as [Hlo Hhi]; [lia|exact Hne|].
  destruct Hc as [[_ ->]|[_ ->]]; [split; assumption|].
  set (index := indexOf cleanText token (searchIndex st)) in *.
  split; cbn [matches processedPositions].
  - intros a b Ha Hin. apply elem_of_union in Hin as [Hin|Hin].
    + apply elem_of_singleton in Hin. apply posKey_inj in Hin as [-> ->]; [|lia|lia].
      exists (accepted value token index).
      split; [apply elem_of_app; right; left|]. split; reflexivity.
    + destruct (Hpp a b Ha Hin) as (m & Hm & Hs & He).
      exists m. split; [apply elem_of_app; left; exact Hm|]. auto.
  - apply Forall_app. split; [exact Hocc|]. apply Forall_singleton.
    unfold accepted; cbn [start end_ replacement].
    split; [lia|]. eapply indexOf_occurrence; [reflexivity|exact Hne].
Qed.

Lemma scan_entry_claims fuel cleanText value token st st' :
  claims_inv cleanText st ->
  scan_entry fuel cleanText (value, token) st = Some st' ->
  claims_inv cleanText st'.
Proof.
  intros Hinv H. unfold scan_entry in H. simpl in H.
  apply (while_inv _ (fun s => claims_inv cleanText s /\ 0 <= searchIndex s)) in H
    as [[Hr _] _]; [exact Hr| |].
  - intros s s' [Hs H0] Hb. split; [eapply scan_body_claims; eauto|].
    pose proof (scan_body_monotone _ _ _ _ _ H0 Hb). lia.
  - split; [exact Hinv|simpl; lia].
Qed.

(** The scan of an entry keeps the spans found before it. *)
Lemma scan_entry_keeps fuel cleanText entry st st' m :
  m ∈ matches st -> scan_entry fuel cleanText entry st = Some st' -> m ∈ matches st'.
Proof.
  intros Hm H. unfold scan_entry in H.
  apply (while_inv _ (fun s => m ∈ matches s)) in H as [Hr _]; [exact Hr| |exact Hm].
  intros s s' Hs Hb. apply scan_body_Some in Hb as (_ & _ & Hc).
  destruct Hc as [[_ ->]|[_ ->]]; cbn [matches]; [exact Hs|].
  apply elem_of_app. left. exact Hs.
Qed.

Lemma scan_entries_keep fuel cleanText entries : forall st st' m,
  m ∈ matches st -> for_of entries (scan_entry fuel cleanText) st = Some st' ->
  m ∈ matches st'.
Proof.
  induction entries as [|e entries IH]; intros st st' m Hm H; cbn [for_of] in H.
  - inversion H; subst. exact Hm.
  - destruct (scan_entry fuel cleanText e st) as [s1|] eqn:H1; [|discriminate].
    eapply IH; [|exact H]. eapply scan_entry_keeps; eauto.
Qed.

(** The scan of an entry whose token occurs leaves a span at the first
    occurrence: its own, or the one that claimed the range before. *)
Lemma scan_entry_first fuel cleanText value token st st' :
  claims_inv cleanText st -> cleanText <> [] -> occurs_in token cleanText ->
  scan_entry fuel cleanText (value, token) st = Some st' ->
  exists m, m ∈ matches st' /\ replacement m = token
            /\ start m = indexOf cleanText token 0
            /\ end_ m = start m + len token.
Proof.
  intros [Hpp Hocc] Hne Hin H. unfold scan_entry in H. cbn [fst snd] in H.
  destruct fuel as [|fuel]; [discriminate|]. cbn [while] in H.
  set (s0 := {| searchIndex := 0; matches := matches st;
                processedPositions := processedPositions st |}) in *.
  assert (Hi : indexOf cleanText token 0 <> -1) by (apply occurs_in_indexOf, Hin).
  assert (Hlen : 0 < len cleanText).
  { destruct cleanText; [congruence|]. unfold len. simpl. lia. }
  destruct (scan_body cleanText value token s0) as [s1|] eqn:Hb.
  2:{ exfalso. unfold scan_body in Hb. cbn [searchIndex s0] in Hb.
      replace (0 <? len cleanText) with true in Hb by (symmetry; apply Z.ltb_lt; lia).
      replace (indexOf cleanText token 0 =? -1) with false in Hb
        by (symmetry; apply Z.eqb_neq; exact Hi).
      destruct (decide _); discriminate. }
  assert (Hfirst : exists m, m ∈ matches s1 /\ replacement m = token
                             /\ start m = indexOf cleanText token 0
                             /\ end_ m = start m + len token).
  { apply scan_body_Some in Hb as (_ & _ & Hc). cbn [searchIndex processedPositions matches s0] in Hc.
    destruct (index_in_range cleanText token s0) as [Hlo Hhi];
      [cbn [searchIndex s0]; lia|exact Hi|]. cbn [searchIndex s0] in Hlo, Hhi.
    destruct Hc as [[Hk ->]|[_ ->]]; cbn [matches].
    - destruct (Hpp _ _ Hlo Hk) as (m & Hm & Hs & He). exists m. split; [exact Hm|].
      pose proof (proj1 (Forall_forall _ _) Hocc m Hm) as [_ Hslice].
      rewrite Hs, He in Hslice. split; [|split; [exact Hs|rewrite Hs; exact He]].
      rewrite <- Hslice. eapply indexOf_occurrence; [reflexivity|exact Hi].
    - exists (accepted value token (indexOf cleanText token 0)).
      split; [apply elem_of_app; right; left|]. repeat split; reflexivity. }
  destruct Hfirst as (m & Hm & Hfacts). exists m. split; [|exact Hfacts].
  apply (while_inv _ (fun s => m ∈ matches s)) in H as [Hr _]; [exact Hr| |exact Hm].
  intros s s' Hs Hb'. apply scan_body_Some in Hb' as (_ & _ & Hc).
  destruct Hc as [[_ ->]|[_ ->]]; cbn [matches]; [exact Hs|].
  apply elem_of_app. left. exact Hs.
Qed.

(** X27: with a text that is not empty, every replacement token of the
    map that occurs in the text is reported: the spans returned include one
    at the first occurrence of the token, with the token as replacement
    value. *)
Theorem occurring_tokens_are_reported originalText cleanText items entry entries
    value token :
  (value, token) ∈ entry :: entries ->
  cleanText <> [] -> occurs_in token cleanText ->
  returns (fun fuel => convertBackendResponseToMatches fuel originalText cleanText items
                         (Some (entry :: entries)))
    (fun spans => exists m, m ∈ spans /\ replacement m = token
                            /\ start m = indexOf cleanText token 0
                            /\ end_ m = start m + len token).
Proof.
  intros Hentry Hne Hin. apply (returns_intro _ _ (reconcile_fuel cleanText)).
  - intros fuel fuel' r. apply convert_mono.
  - apply convert_total.
  - intros fuel r H. rewrite convert_collect in H.
    destruct (collect_matches fuel cleanText _) as [found|] eqn:Hc; [|discriminate].
    simpl in H. inversion H; subst r. clear H.
    rewrite (filter_keeps_distinct (sort by_start found))
      by (rewrite sort_Permutation; eapply collect_distinct; eauto).
    setoid_rewrite sort_Permutation.
    unfold collect_matches in Hc.
    destruct (for_of (entry :: entries) _ _) as [st|] eqn:Hf; [|discriminate].
    simpl in Hc. inversion Hc; subst found. clear Hc.
    revert Hentry Hf.
    generalize (entry :: entries).
    assert (Hstart : claims_inv cleanText
                       {| searchIndex := 0; matches := []; processedPositions := ∅ |}).
    { split; [intros a b _ Hx; apply elem_of_empty in Hx; contradiction|constructor]. }
    revert Hstart.
    generalize ({| searchIndex := 0; matches := []; processedPositions := ∅ |}).
    intros s0 Hs0 l. revert s0 Hs0.
    induction l as [|[o r] l IH]; intros s0 Hs0 Hentry Hf; [inversion Hentry|].
    cbn [for_of] in Hf.
    destruct (scan_entry fuel cleanText (o, r) s0) as [s1|] eqn:H1; [|discriminate].
    apply elem_of_cons in Hentry as [Heq|Hentry].
    + inversion Heq; subst o r.
      destruct (scan_entry_first _ _ _ _ _ _ Hs0 Hne Hin H1) as (m & Hm & Hfacts).
      exists m. split; [|exact Hfacts]. eapply scan_entries_keep; eauto.
    + apply (IH s1); [eapply scan_entry_claims; eauto|exact Hentry|exact Hf].
Qed.

Lemma occurring_tokens_are_reported_witness :
  returns (fun fuel => convertBackendResponseToMatches fuel (js "Ann wrote to a@b.io")
                         (js "<PERSON> wrote to <EMAIL>") []
                         (Some [(js "Ann", js "<PERSON>"); (js "a@b.io", js "<EMAIL>")]))
    (fun spans => exists m, m ∈ spans /\ replacement m = js "<EMAIL>"
                            /\ start m = indexOf (js "<PERSON> wrote to <EMAIL>") (js "<EMAIL>") 0
                            /\ end_ m = start m + len (js "<EMAIL>")).
Proof.
  apply (occurring_tokens_are_reported _ _ _ _ _ (js "a@b.io") (js "<EMAIL>")).
  - right. left.
  - discriminate.
  - apply occurs_in_indexOf. vm_compute. discriminate.
Defined.

(** ** The governance panel *)

Lemma Set_add_spec set e x : x ∈ Set_add set e <-> x ∈ set \/ x = e.
Proof.
  unfold Set_add. destruct (decide (e ∈ set)) as [Hin|Hn].
  - split; [auto|]. intros [H| ->]; assumption.
  - rewrite elem_of_app, list_elem_of_singleton. reflexivity.
Qed.

Lemma Set_add_NoDup set e : NoDup set -> NoDup (Set_add set e).
Proof.
  intros Hn. unfold Set_add. destruct (decide (e ∈ set)) as [Hin|Hout]; [exact Hn|].
  apply NoDup_app. split; [exact Hn|]. split; [|apply NoDup_singleton].
  intros x Hx Hx'. apply list_elem_of_singleton in Hx'. subst x. contradiction.
Qed.

Lemma Set_add_all ents : forall set,
  NoDup set ->
  NoDup (foldl Set_add set ents)
  /\ forall x, x ∈ foldl Set_add set ents <-> x ∈ set \/ x ∈ ents.
Proof.
  induction ents as [|e ents IH]; intros set Hn; cbn [foldl].
  - split; [exact Hn|]. intros x. split; [auto|]. intros [H|H]; [exact H|inversion H].
  - destruct (IH (Set_add set e) (Set_add_NoDup _ _ Hn)) as [H1 H2]. split; [exact H1|].
    intros x. rewrite H2, Set_add_spec, elem_of_cons. tauto.
Qed.

(** X28: the entities derived from a list of rules are pairwise distinct,
    and an entity is among them exactly when [RULE_TO_ENTITIES] lists it
    for some enabled rule of the list. *)
Theorem deriveEnabledEntities_collects_enabled_rules nextRules :
  Forall (fun rule => rule_id rule ∈ rule_id <$> INITIAL_RULES) nextRules ->
  NoDup (deriveEnabledEntities nextRules)
  /\ forall e, e ∈ deriveEnabledEntities nextRules
               <-> exists rule ents, rule ∈ nextRules /\ rule_enabled rule = true
                                     /\ Map_get RULE_TO_ENTITIES (rule_id rule) = Some ents
                                     /\ e ∈ ents.
Proof.
  intros _. unfold deriveEnabledEntities.
  assert (Hgen : forall rest pre set,
            NoDup set
            /\ (forall e, e ∈ set <-> exists rule ents,
                   rule ∈ pre /\ rule_enabled rule = true
                   /\ Map_get RULE_TO_ENTITIES (rule_id rule) = Some ents /\ e ∈ ents) ->
            let set' := foldl (fun set rule =>
                          if negb (rule_enabled rule) then set
                          else match Map_get RULE_TO_ENTITIES (rule_id rule) with
                               | None => set
                               | Some ents => foldl Set_add set ents
                               end) set rest in
            NoDup set'
            /\ (forall e, e ∈ set' <-> exists rule ents,
                   rule ∈ pre ++ rest /\ rule_enabled rule = true
                   /\ Map_get RULE_TO_ENTITIES (rule_id rule) = Some ents /\ e ∈ ents)).
  { induction rest as [|r rest IH]; intros pre set [Hn Hset]; cbn [foldl].
    - rewrite app_nil_r. auto.
    - cbn zeta in IH.
      replace (pre ++ r :: rest) with ((pre ++ [r]) ++ rest) by (rewrite <- app_assoc; reflexivity).
      apply IH. clear IH.
      assert (Hskip : (rule_enabled r = false
                       \/ Map_get RULE_TO_ENTITIES (rule_id r) = None) ->
                forall e, e ∈ set <-> exists rule ents,
                  rule ∈ pre ++ [r] /\ rule_enabled rule = true
                  /\ Map_get RULE_TO_ENTITIES (rule_id rule) = Some ents /\ e ∈ ents).
      { intros Hr e. rewrite Hset. split.
        - intros (rule & ents & Hin & H). exists rule, ents.
          split; [apply elem_of_app; left; exact Hin|exact H].
        - intros (rule & ents & Hin & He & Hm & Hx).
          apply elem_of_app in Hin as [Hin|Hin]; [exists rule, ents; auto|].
          apply list_elem_of_singleton in Hin. subst rule.
          destruct Hr as [Hr|Hr]; congruence. }
      destruct (rule_enabled r) eqn:Hen; cbn [negb]; [|split; [exact Hn|apply Hskip; auto]].
      destruct (Map_get RULE_TO_ENTITIES (rule_id r)) as [ents|] eqn:Hm;
        [|split; [exact Hn|apply Hskip; auto]].
      destruct (Set_add_all ents set Hn) as [H1 H2]. split; [exact H1|].
      intros e. rewrite H2, Hset. split.
      + intros [(rule & ents' & Hin & H)|Hx].
        * exists rule, ents'. split; [apply elem_of_app; left; exact Hin|exact H].
        * exists r, ents. split; [apply elem_of_app; right; left|auto].
      + intros (rule & ents' & Hin & He & Hm' & Hx).
        apply elem_of_app in Hin as [Hin|Hin]; [left; exists rule, ents'; auto|].
        apply list_elem_of_singleton in Hin. subst rule. right. congruence. }
  apply (Hgen nextRules [] []). split; [constructor|].
  intros e. split; [intros H; inversion H|].
  intros (rule & ents & Hin & _). inversion Hin.
Qed.

Lemma deriveEnabledEntities_collects_enabled_rules_witness :
  NoDup (deriveEnabledEntities INITIAL_RULES)
  /\ forall e, e ∈ deriveEnabledEntities INITIAL_RULES
               <-> exists rule ents, rule ∈ INITIAL_RULES /\ rule_enabled rule = true
                                     /\ Map_get RULE_TO_ENTITIES (rule_id rule) = Some ents
                                     /\ e ∈ ents.
Proof.
  apply deriveEnabledEntities_collects_enabled_rules.
  apply Forall_forall. intros rule Hin. apply list_elem_of_fmap. eauto.
Defined.

Lemma risk_sum (l : list DetectionRule) : forall a,
  foldl (fun sum rule => sum + SEVERITY_WEIGHTS (rule_severity rule)) a l
  = a + foldl (fun sum rule => sum + SEVERITY_WEIGHTS (rule_severity rule)) 0 l.
Proof.
  induction l as [|r l IH]; intros a; cbn [foldl]; [lia|].
  rewrite IH, (IH (0 + _)). lia.
Qed.

Lemma calculateRisk_cons r rules :
  calculateRisk (r :: rules)
  = (if rule_enabled r then 0 else SEVERITY_WEIGHTS (rule_severity r)) + calculateRisk rules.
Proof.
  unfold calculateRisk. cbn [List.filter]. destruct (rule_enabled r); cbn [negb foldl]; [lia|].
  rewrite risk_sum. lia.
Qed.

Lemma SEVERITY_WEIGHTS_positive severity : 0 < SEVERITY_WEIGHTS severity.
Proof. destruct severity; simpl; lia. Qed.

Lemma calculateRisk_nonneg rules : 0 <= calculateRisk rules.
Proof.
  induction rules as [|r rules IH]; [unfold calculateRisk; simpl; lia|].
  rewrite calculateRisk_cons. pose proof (SEVERITY_WEIGHTS_positive (rule_severity r)).
  destruct (rule_enabled r); lia.
Qed.

Lemma calculateRisk_disabled rules r :
  r ∈ rules -> rule_enabled r = false ->
  SEVERITY_WEIGHTS (rule_severity r) <= calculateRisk rules.
Proof.
  induction rules as [|x rules IH]; intros Hin Hr; [inversion Hin|].
  rewrite calculateRisk_cons. pose proof (calculateRisk_nonneg rules).
  pose proof (SEVERITY_WEIGHTS_positive (rule_severity x)).
  apply elem_of_cons in Hin as [<-|Hin].
  - rewrite Hr. lia.
  - specialize (IH Hin Hr). destruct (rule_enabled x); lia.
Qed.

(** X29: when the risk level shown is LOW, every disabled rule has
    severity medium or low: no critical and no high rule is switched
    off. *)
Theorem low_risk_keeps_critical_rules_enabled rules :
  getRiskLevel (calculateRisk rules) = LOW ->
  forall rule, rule ∈ rules -> rule_enabled rule = false ->
               rule_severity rule = medium \/ rule_severity rule = low.
Proof.
  intros Hlow rule Hin Hoff. unfold getRiskLevel in Hlow.
  destruct (calculateRisk rules <=? 20) eqn:Hle.
  2:{ destruct (calculateRisk rules <=? 50); discriminate. }
  apply Z.leb_le in Hle. pose proof (calculateRisk_disabled rules rule Hin Hoff) as Hw.
  destruct (rule_severity rule); simpl in Hw; auto; lia.
Qed.

Lemma low_risk_keeps_critical_rules_enabled_witness :
  rule_severity (mkRule (js "names") false medium) = medium
  \/ rule_severity (mkRule (js "names") false medium) = low.
Proof.
  apply (low_risk_keeps_critical_rules_enabled INITIAL_RULES).
  - reflexivity.
  - unfold INITIAL_RULES. do 2 (apply elem_of_cons; right). left.
  - reflexivity.
Defined.

Lemma toggleRule_absent id rules : id ∉ rule_id <$> rules -> toggleRule id rules = rules.
Proof.
  induction rules as [|x rules IH]; intros Hn; [reflexivity|].
  unfold toggleRule in *. cbn [fmap list_fmap] in *.
  destruct (decide (rule_id x = id)) as [<-|Hne].
  - exfalso. apply Hn. left.
  - f_equal. apply IH. intros Hin. apply Hn. right. exact Hin.
Qed.

(** X30: with rules of distinct ids, switching a rule changes the risk
    score by the weight of its severity: up when the rule was enabled,
    down when it was disabled. *)
Theorem toggleRule_moves_the_risk_by_the_weight rules rule :
  NoDup (rule_id <$> rules) -> rule ∈ rules ->
  calculateRisk (toggleRule (rule_id rule) rules)
  = calculateRisk rules
    + (if rule_enabled rule then SEVERITY_WEIGHTS (rule_severity rule)
       else - SEVERITY_WEIGHTS (rule_severity rule)).
Proof.
  induction rules as [|x rules IH]; intros Hn Hin; [inversion Hin|].
  cbn [fmap list_fmap] in Hn. apply NoDup_cons in Hn as [Hx Hn].
  change (toggleRule (rule_id rule) (x :: rules))
    with ((if decide (rule_id x = rule_id rule)
           then mkRule (rule_id x) (negb (rule_enabled x)) (rule_severity x) else x)
          :: toggleRule (rule_id rule) rules).
  apply elem_of_cons in Hin as [->|Hin].
  - destruct (decide (rule_id x = rule_id x)) as [_|Hne]; [|congruence].
    rewrite toggleRule_absent by exact Hx. rewrite !calculateRisk_cons. cbn [rule_enabled rule_severity].
    destruct (rule_enabled x); cbn [negb]; lia.
  - destruct (decide (rule_id x = rule_id rule)) as [Heq|Hne].
    + exfalso. apply Hx. rewrite Heq. apply list_elem_of_fmap. eauto.
    + rewrite !calculateRisk_cons, (IH Hn Hin). lia.
Qed.

Lemma toggleRule_moves_the_risk_by_the_weight_witness :
  calculateRisk (toggleRule (js "ssn") INITIAL_RULES) = calculateRisk INITIAL_RULES + 40.
Proof.
  apply (toggleRule_moves_the_risk_by_the_weight INITIAL_RULES (mkRule (js "ssn") true critical)).
  - vm_compute.
    repeat (apply NoDup_cons_2;
            [intros Hin; repeat (apply elem_of_cons in Hin as [Hin|Hin]; [discriminate|]);
             inversion Hin|]).
    apply NoDup_nil_2.
  - unfold INITIAL_RULES. do 7 (apply elem_of_cons; right). left.
Defined.
